(** * Mentra AI: session and query orchestration core

    A shallow embedding of the TypeScript sources of the server
    (wake-word matcher, location classifier, chat event bus, photo manager,
    session manager and query processor) together with the properties that
    its design document states about them.

    Text is modelled as a list of code units restricted to the range
    U+0000..U+00FF (the 8-bit [ascii] type); [toLowerCase], [trim] and the
    regular-expression character classes are the ECMAScript ones restricted
    to that range. *)

From Stdlib Require Import Ascii String NArith.
From Stdlib.Strings Require Import Byte.
From stdpp Require Import gmap strings list fin_maps pretty.

Set Default Proof Using "Type".

(* ===================================================================== *)
(** * Part I: the embedding                                               *)
(* ===================================================================== *)

(** ** Text: JavaScript string operations *)

Module Text.

Definition str := list ascii.

(** A string literal as a list of code units. *)
Definition txt (s : string) : str := list_ascii_of_string s.

Definition code (c : ascii) : N := N_of_ascii c.

Definition in_range (lo hi : N) (c : ascii) : bool :=
  ((lo <=? code c) && (code c <=? hi))%N.

(** WhiteSpace and LineTerminator code units below U+0100: TAB, LF, VT,
    FF, CR, SPACE and NBSP. This is both what [String.prototype.trim]
    removes and what the class [\s] matches. *)
Definition isWhitespace (c : ascii) : bool :=
  in_range 9 13 c || (code c =? 32)%N || (code c =? 160)%N.

(** [String.prototype.toLowerCase] on one code unit: A-Z and the Latin-1
    capitals U+00C0..U+00DE (except the multiplication sign U+00D7). *)
Definition toLowerChar (c : ascii) : ascii :=
  if in_range 65 90 c
     || (in_range 192 222 c && negb (code c =? 215)%N)
  then ascii_of_N (code c + 32) else c.

Definition toLowerCase (s : str) : str := map toLowerChar s.

Fixpoint trimStart (s : str) : str :=
  match s with
  | c :: s' => if isWhitespace c then trimStart s' else s
  | [] => []
  end.

Fixpoint trimEnd (s : str) : str :=
  match s with
  | c :: s' =>
      match trimEnd s' with
      | [] => if isWhitespace c then [] else [c]
      | r => c :: r
      end
  | [] => []
  end.

Definition trim (s : str) : str := trimEnd (trimStart s).

(** [s.startsWith(p)]. *)
Fixpoint startsWith (p s : str) : bool :=
  match p, s with
  | [], _ => true
  | a :: p', b :: s' => bool_decide (a = b) && startsWith p' s'
  | _ :: _, [] => false
  end.

(** [s.includes(kw)]: [kw] occurs in [s] as a contiguous substring. *)
Fixpoint includes (s kw : str) : bool :=
  startsWith kw s ||
  match s with
  | _ :: s' => includes s' kw
  | [] => false
  end.

(** [s.slice(n)] for [0 <= n]. *)
Definition slice_from (n : nat) (s : str) : str := drop n s.

(** [a.slice(-k)] on arrays and strings: the last [k] elements; [-0] is
    [0], so [slice(-0)] is the whole list. *)
Definition slice_last {A} (k : nat) (l : list A) : list A :=
  match k with
  | O => l
  | _ => drop (length l - k) l
  end.

End Text.

(** ** A backtracking matcher for the regular expressions of the sources *)

Module Regex.
Import Text.

(** [Canonicalize] of the ECMAScript matcher under the [i] flag (without
    [u]): the upper-case mapping of a code unit, as a code point. The
    images of U+00B5 and U+00FF lie outside Latin-1; U+00DF has a
    two-letter upper case and stays. *)
Definition canonicalize (c : ascii) : N :=
  if in_range 97 122 c
     || (in_range 224 254 c && negb (code c =? 247)%N)
  then (code c - 32)%N
  else if (code c =? 181)%N then 924%N
  else if (code c =? 255)%N then 376%N
  else code c.

Inductive re : Type :=
| Eps                           (* the empty pattern *)
| Chr (c : ascii)               (* a literal pattern character *)
| Cls (p : ascii -> bool)       (* a character class *)
| Star (p : ascii -> bool)      (* greedy [class*] *)
| Plus (p : ascii -> bool)      (* greedy [class+] *)
| Cat (r1 r2 : re)
| Alt (r1 r2 : re).

(** Greedy iteration of a class with backtracking: take as many as
    possible, give back one at a time while the continuation fails. *)
Fixpoint star_k (p : ascii -> bool) (s : str)
         (k : str -> option str) : option str :=
  match s with
  | c :: s' =>
      if p c then
        match star_k p s' k with
        | Some r => Some r
        | None => k s
        end
      else k s
  | [] => k s
  end.

(** [run ic r s k]: match [r] at the start of [s], then continue with
    [k] on what is left; [ic] is the ignore-case flag. The result is the
    text left after the whole match. *)
Fixpoint run (ic : bool) (r : re) (s : str)
         (k : str -> option str) : option str :=
  match r with
  | Eps => k s
  | Chr c =>
      match s with
      | x :: s' =>
          if (if ic then (canonicalize x =? canonicalize c)%N
              else (code x =? code c)%N)
          then k s' else None
      | [] => None
      end
  | Cls p =>
      match s with
      | x :: s' => if p x then k s' else None
      | [] => None
      end
  | Star p => star_k p s k
  | Plus p =>
      match s with
      | x :: s' => if p x then star_k p s' k else None
      | [] => None
      end
  | Cat r1 r2 => run ic r1 s (fun s' => run ic r2 s' k)
  | Alt r1 r2 =>
      match run ic r1 s k with
      | Some x => Some x
      | None => run ic r2 s k
      end
  end.

(** The match of [r] anchored at the start of [s]: what is left. *)
Definition match_here (ic : bool) (r : re) (s : str) : option str :=
  run ic r s Some.

(** [s.match(r)] for a pattern without the [g] flag: the leftmost
    position where [r] matches, as [(index, length of match[0])]. *)
Fixpoint search_from (ic : bool) (r : re) (s : str) (i : nat)
  : option (nat * nat) :=
  match match_here ic r s with
  | Some rest => Some (i, length s - length rest)
  | None =>
      match s with
      | _ :: s' => search_from ic r s' (S i)
      | [] => None
      end
  end.

Definition search (ic : bool) (r : re) (s : str) : option (nat * nat) :=
  search_from ic r s 0.

(** [s.replace(/^r/, '')]: remove the match of [r] at the start. *)
Definition replace_prefix (ic : bool) (r : re) (s : str) : str :=
  match match_here ic r s with
  | Some rest => rest
  | None => s
  end.

(** A literal string as a pattern. *)
Definition lit (s : str) : re := foldr (fun c r => Cat (Chr c) r) Eps s.

(** [a|b|...]; the empty alternation never occurs in the sources. *)
Fixpoint alts (rs : list re) : re :=
  match rs with
  | [] => Eps
  | [r] => r
  | r :: rs' => Alt r (alts rs')
  end.

End Regex.

(** ** utils/wake-word.ts *)

Module WakeWord.
Import Text Regex.

Definition WAKE_WORDS : list str := [txt "hey mentra"].

Definition space : ascii := " "%char.

(** The loop that builds one pattern: a space of the wake word becomes
    [\s+]; any other character becomes itself, followed by [\s*] when
    the next character exists and is not a space. *)
Fixpoint wake_pattern (ww : str) : re :=
  match ww with
  | [] => Eps
  | ch :: rest =>
      if bool_decide (ch = space) then Cat (Plus isWhitespace) (wake_pattern rest)
      else
        match rest with
        | next :: _ =>
            if bool_decide (next = space)
            then Cat (Chr ch) (wake_pattern rest)
            else Cat (Chr ch) (Cat (Star isWhitespace) (wake_pattern rest))
        | [] => Cat (Chr ch) Eps
        end
  end.

(** All patterns carry the [i] flag. *)
Definition WAKE_PATTERNS : list re := map wake_pattern WAKE_WORDS.

Record WakeWordResult := {
  detected : bool;
  query : str;
  wakeWordUsed : option str;
}.

(** The class [[,.\s]]. *)
Definition lead_punct (c : ascii) : bool :=
  bool_decide (c = ","%char) || bool_decide (c = "."%char) || isWhitespace c.

(** [query.replace(/^[,.\s]+/, '')]. *)
Definition strip_lead (s : str) : str :=
  replace_prefix false (Plus lead_punct) s.

Fixpoint detect_loop (text lowerText : str) (pats : list (re * str))
  : WakeWordResult :=
  match pats with
  | (pat, ww) :: more =>
      match search true pat lowerText with
      | Some (index, len) =>
          let query := trim (slice_from (index + len) text) in
          let query := trim (strip_lead query) in
          {| detected := true; query := query; wakeWordUsed := Some ww |}
      | None => detect_loop text lowerText more
      end
  | [] => {| detected := false; query := trim text; wakeWordUsed := None |}
  end.

Definition detectWakeWord (text : str) : WakeWordResult :=
  let lowerText := trim (toLowerCase text) in
  detect_loop text lowerText (zip WAKE_PATTERNS WAKE_WORDS).

(** [ww.split(' ').pop() || '']: the last word of a phrase. *)
Fixpoint last_word_acc (acc ww : str) : str :=
  match ww with
  | [] => acc
  | c :: rest =>
      if bool_decide (c = space) then last_word_acc [] rest
      else last_word_acc (acc ++ [c]) rest
  end.

Definition last_word (ww : str) : str := last_word_acc [] ww.

(** The suffixes [lastWord.slice(-len)] for [len] from 1 to
    [lastWord.length - 1]. *)
Definition word_suffixes (lastWord : str) : list str :=
  map (fun len => slice_last len lastWord) (seq 1 (length lastWord - 1)).

Definition fragment_suffixes : list str :=
  flat_map (fun ww => word_suffixes (last_word ww)) WAKE_WORDS.

(** The class [[,.!?;:]]. *)
Definition frag_punct (c : ascii) : bool :=
  bool_decide (c ∈ [","; "."; "!"; "?"; ";"; ":"]%char).

(** [^(?:a|ra|tra|ntra|entra)[,.!?;:]+\s*] with the [i] flag; the
    suffixes contain no character that the escaping step changes. *)
Definition WAKE_WORD_TRAILING_FRAGMENTS : re :=
  Cat (alts (map lit fragment_suffixes))
      (Cat (Plus frag_punct) (Star isWhitespace)).

Definition removeWakeWord (text : str) : str := query (detectWakeWord text).

Definition stripWakeWordResidue (text : str) : str :=
  trim (replace_prefix true WAKE_WORD_TRAILING_FRAGMENTS text).

End WakeWord.

(** ** utils/location-query.ts *)

Module LocationQuery.
Import Text.

Definition LOCATION_KEYWORDS : list str := map txt [
  (* Direct location questions *)
  "where am i"; "my location"; "location"; "my address";
  "current location"; "my current address";
  (* City/area questions *)
  "what city"; "which city"; "what town"; "what state"; "what country";
  "what neighborhood"; "what area"; "what street"; "which street";
  (* Proximity questions *)
  "nearby"; "near me"; "around here"; "close to me"; "closest";
  "nearest"; "in this area";
  (* Navigation/directions *)
  "directions to"; "how to get to"; "navigate to"; "route to"; "how far";
  "distance to"; "walking distance"; "driving distance";
  (* Local recommendations *)
  "restaurants nearby"; "coffee near"; "food near"; "stores near";
  "shops near"; "places near"; "things to do near"; "what's around"
]%string.

Definition WEATHER_KEYWORDS : list str := map txt [
  "weather"; "temperature"; "forecast"; "rain"; "sunny"; "cloudy";
  "snow"; "humidity"; "wind speed"
]%string.

(** [KEYWORDS.some(kw => q.includes(kw))]. *)
Definition some_included (kws : list str) (q : str) : bool :=
  existsb (fun kw => includes q kw) kws.

Definition isLocationQuery (query : str) : bool :=
  let q := toLowerCase query in
  if some_included LOCATION_KEYWORDS q then true
  else if some_included WEATHER_KEYWORDS q then true
  else false.

Definition needsGeocoding (query : str) : bool :=
  let q := toLowerCase query in
  if some_included WEATHER_KEYWORDS q
     && (negb (includes q (txt " in ")) && negb (includes q (txt " at ")))
  then false
  else some_included LOCATION_KEYWORDS q.

Definition isWeatherQuery (query : str) : bool :=
  some_included WEATHER_KEYWORDS (toLowerCase query).

End LocationQuery.

(** ** manager/PhotoManager.ts *)

Module Photo.
Import Text.

(** The bytes of a [Buffer]. *)
Definition bytes := list byte.

(** *** [Buffer.toString("base64")]

    The standard encoding with padding: three bytes are read as four
    groups of six bits. *)

Definition b64_alphabet : str :=
  txt "ABCDEFGHIJKLMNOPQRSTUVWXYZabcdefghijklmnopqrstuvwxyz0123456789+/".

Definition pad : ascii := "="%char.

Definition b64_char (sextet : N) : ascii :=
  nth (N.to_nat sextet) b64_alphabet pad.

Fixpoint base64 (b : bytes) : str :=
  match b with
  | bx :: by_ :: bz :: rest =>
      let x := Byte.to_N bx in
      let y := Byte.to_N by_ in
      let z := Byte.to_N bz in
      b64_char (x / 4)
        :: b64_char ((x mod 4) * 16 + y / 16)
        :: b64_char ((y mod 16) * 4 + z / 64)
        :: b64_char (z mod 64)
        :: base64 rest
  | [bx; by_] =>
      let x := Byte.to_N bx in
      let y := Byte.to_N by_ in
      [b64_char (x / 4); b64_char ((x mod 4) * 16 + y / 16);
       b64_char ((y mod 16) * 4); pad]
  | [bx] =>
      let x := Byte.to_N bx in
      [b64_char (x / 4); b64_char ((x mod 4) * 16); pad; pad]
  | [] => []
  end%N.

(** What [session.camera.requestPhoto()] resolves to. *)
Record PhotoData := {
  pd_requestId : string;
  pd_buffer : bytes;
  pd_timestamp : N;
  pd_mimeType : str;
  pd_filename : str;
  pd_size : N;
}.

Record StoredPhoto := {
  requestId : string;
  buffer : bytes;
  timestamp : N;
  userId : string;
  mimeType : str;
  filename : str;
  size : N;
}.

(** A photo-stream client; [pc_conn] identifies the connection. *)
Record SSEWriter := {
  pc_conn : nat;
  pc_userId : string;
}.

Record PhotoManager := {
  photos : gmap string StoredPhoto;
  sseClients : list SSEWriter;
  currentPhoto : option StoredPhoto;
  previousPhotos : list StoredPhoto;
}.

Definition empty_manager : PhotoManager :=
  {| photos := ∅; sseClients := []; currentPhoto := None;
     previousPhotos := [] |}.

(** The values that occur in the event object. *)
Inductive JValue :=
| JStr (s : str)
| JNum (n : N).

(** The serialised event, as its key/value pairs in order. *)
Definition Payload := list (string * JValue).

Definition photo_payload (photo : StoredPhoto) : Payload :=
  let base64Data := base64 (buffer photo) in
  let dataUrl := txt "data:" ++ mimeType photo ++ txt ";base64," ++ base64Data in
  [ ("requestId", JStr (txt (requestId photo)));
    ("timestamp", JNum (timestamp photo));
    ("mimeType", JStr (mimeType photo));
    ("filename", JStr (filename photo));
    ("size", JNum (size photo));
    ("userId", JStr (txt (userId photo)));
    ("base64", JStr base64Data);
    ("dataUrl", JStr dataUrl) ]%string.

Section Manager.
(** [PHOTO_SETTINGS.previousPhotosToKeep] of constants/config. *)
Variable previousPhotosToKeep : nat.
(** Whether [write] on a connection succeeds (it throws otherwise). *)
Variable writable : nat -> bool.

Definition rotatePhotos (newPhoto : StoredPhoto) (pm : PhotoManager)
  : PhotoManager :=
  let previous :=
    match currentPhoto pm with
    | Some cur =>
        let pushed := previousPhotos pm ++ [cur] in
        if bool_decide (previousPhotosToKeep < length pushed)
        then slice_last previousPhotosToKeep pushed
        else pushed
    | None => previousPhotos pm
    end in
  {| photos := photos pm; sseClients := sseClients pm;
     currentPhoto := Some newPhoto; previousPhotos := previous |}.

(** Returns the manager (clients whose write threw are dropped) and
    what was written to which connection. *)
Definition broadcastPhoto (photo : StoredPhoto) (pm : PhotoManager)
  : PhotoManager * list (nat * Payload) :=
  let payload := photo_payload photo in
  ({| photos := photos pm;
      sseClients := filter (fun c => writable (pc_conn c)) (sseClients pm);
      currentPhoto := currentPhoto pm;
      previousPhotos := previousPhotos pm |},
   map (fun c => (pc_conn c, payload))
       (filter (fun c => writable (pc_conn c)) (sseClients pm))).

(** [takePhoto]: [hasSession] says whether [user.appSession] is set,
    [shot] is what [requestPhoto] resolved to ([None]: it threw). The
    event is taken to be serialisable: were [broadcastPhoto] to throw
    while it builds the payload, the [catch] would return null with the
    photo rotated in and stored. *)
Definition takePhoto (userId : string) (hasSession : bool)
           (shot : option PhotoData) (pm : PhotoManager)
  : option StoredPhoto * PhotoManager * list (nat * Payload) :=
  if negb hasSession then (None, pm, [])
  else
    match shot with
    | Some photo =>
        let stored := {|
          requestId := pd_requestId photo;
          buffer := pd_buffer photo;
          timestamp := pd_timestamp photo;
          userId := userId;
          mimeType := pd_mimeType photo;
          filename := pd_filename photo;
          size := pd_size photo |} in
        let pm1 := rotatePhotos stored pm in
        let pm2 := {| photos := <[pd_requestId photo := stored]> (photos pm1);
                      sseClients := sseClients pm1;
                      currentPhoto := currentPhoto pm1;
                      previousPhotos := previousPhotos pm1 |} in
        let '(pm3, sent) := broadcastPhoto stored pm2 in
        (Some stored, pm3, sent)
    | None => (None, pm, [])
    end.

End Manager.

Definition getPhoto (requestId : string) (pm : PhotoManager)
  : option StoredPhoto := photos pm !! requestId.

Definition getPhotosForContext (pm : PhotoManager) : list bytes :=
  match currentPhoto pm with
  | Some cur => [buffer cur]
  | None => []
  end ++ map buffer (previousPhotos pm).

Definition destroy (pm : PhotoManager) : PhotoManager :=
  {| photos := ∅; sseClients := []; currentPhoto := currentPhoto pm;
     previousPhotos := previousPhotos pm |}.

End Photo.

(** ** session/User.ts and the managers it owns

    The sources of the user aggregate, the chat history and the location
    manager are missing; what the other modules use of them is modelled
    here. *)

Module Users.
Import Text.

Record Capabilities := {
  hasCamera : option bool;
  hasDisplay : option bool;
  hasSpeaker : option bool;
}.

(** The handle of a glasses session; [sessionRef] identifies it. *)
Record AppSession := {
  sessionRef : nat;
  capabilities : option Capabilities;
}.

(** A chat turn, with the fields that the chat stream reads. *)
Record Turn := {
  t_query : str;
  t_response : str;
  t_timestamp : N;
  t_hadPhoto : bool;
  t_photoDataUrl : option str;
}.

(** Modelled from the spec: the capacity C of the chat-history ring of
    ChatHistoryManager, whose source is missing (default 30). *)
Definition HISTORY_CAPACITY : nat := 30.

(** Modelled from the spec: [ChatHistoryManager.addTurn], whose source is
    missing. The turn is appended to the ring, which keeps the youngest
    [HISTORY_CAPACITY] turns. *)
Definition addTurn (now : N) (query response : str) (hadPhoto : bool)
           (history : list Turn) : list Turn :=
  slice_last HISTORY_CAPACITY
    (history ++ [{| t_query := query; t_response := response;
                    t_timestamp := now; t_hadPhoto := hadPhoto;
                    t_photoDataUrl := None |}]).

(** Modelled from the spec: [ChatHistoryManager.getRecentTurns], whose
    source is missing: the most recent [limit] turns, youngest last. *)
Definition getRecentTurns (limit : option nat) (history : list Turn)
  : list Turn :=
  match limit with
  | Some n => drop (length history - n) history
  | None => history
  end.

Record LocationContext := {
  lc_lat : Z;
  lc_lng : Z;
  lc_geocoded : option str;
  lc_timezone : option str;
}.

(** Modelled from the spec: the state of LocationManager, whose source is
    missing: the last coordinates and the cached context. *)
Record LocationManager := {
  coordinates : option (Z * Z);
  cachedContext : option LocationContext;
}.

(** A stored notification of NotificationManager: the raw data (kept as
    text) and its receipt time. *)
Record StoredNotification := {
  n_data : str;
  n_timestamp : N;
}.

Record User := {
  userId : string;
  appSession : option AppSession;
  photo : Photo.PhotoManager;
  location : LocationManager;
  notifications : list StoredNotification;
  chatHistory : list Turn;
}.

(** Modelled from the spec: [new User(userId)], whose source is missing:
    no glasses session and empty managers. *)
Definition new_user (userId : string) : User :=
  {| userId := userId; appSession := None; photo := Photo.empty_manager;
     location := {| coordinates := None; cachedContext := None |};
     notifications := []; chatHistory := [] |}.

Definition set_appSession (s : option AppSession) (u : User) : User :=
  {| userId := userId u; appSession := s; photo := photo u;
     location := location u; notifications := notifications u;
     chatHistory := chatHistory u |}.

Definition set_photo (pm : Photo.PhotoManager) (u : User) : User :=
  {| userId := userId u; appSession := appSession u; photo := pm;
     location := location u; notifications := notifications u;
     chatHistory := chatHistory u |}.

Definition set_location (l : LocationManager) (u : User) : User :=
  {| userId := userId u; appSession := appSession u; photo := photo u;
     location := l; notifications := notifications u;
     chatHistory := chatHistory u |}.

Definition set_chatHistory (h : list Turn) (u : User) : User :=
  {| userId := userId u; appSession := appSession u; photo := photo u;
     location := location u; notifications := notifications u;
     chatHistory := h |}.

(** Modelled from the spec: [User.clearAppSession], whose source is
    missing: the handle of the glasses session is dropped. The spec has
    it also unsubscribe the listeners of the session, clear the silence
    timer of the accumulator, mark the accumulator destroyed and drop the
    subscribers of the session; these belong to components whose sources
    are missing and have no counterpart in the state modelled here. *)
Definition clearAppSession (u : User) : User := set_appSession None u.

(** *** manager/NotificationManager.ts *)

Definition MAX_NOTIFICATIONS : nat := 20.
Definition MAX_NOTIFICATION_AGE_MS : N := 5 * 60 * 1000.

Definition addNotification (now : N) (data : str)
           (ns : list StoredNotification) : list StoredNotification :=
  let pushed := ns ++ [{| n_data := data; n_timestamp := now |}] in
  if bool_decide (MAX_NOTIFICATIONS < length pushed)
  then slice_last MAX_NOTIFICATIONS pushed else pushed.

(** [now - n.timestamp < MAX_NOTIFICATION_AGE_MS] on numbers. *)
Definition is_recent (now : N) (n : StoredNotification) : bool :=
  bool_decide (Z.of_N now - Z.of_N (n_timestamp n)
               < Z.of_N MAX_NOTIFICATION_AGE_MS)%Z.

Definition getRecentNotifications (now : N) (limit : nat)
           (ns : list StoredNotification) : list str :=
  map n_data (slice_last limit (filter (fun n => is_recent now n = true) ns)).

(** [stringify] stands for [JSON.stringify(recent, null, 2)], which may
    throw ([None]). *)
Definition formatForPrompt (stringify : list str -> option str)
           (now : N) (ns : list StoredNotification) : str :=
  let recent := getRecentNotifications now 5 ns in
  match recent with
  | [] => txt "No recent notifications."
  | _ =>
      match stringify recent with
      | Some json => txt "Recent notifications:" ++ ["010"%char] ++ json
      | None => txt "Unable to format notifications."
      end
  end.

End Users.

(** ** api/chat.ts *)

Module Chat.
Import Text Users.

Record HistoryMessage := {
  hm_id : N * nat;
  hm_senderId : string;
  hm_recipientId : string;
  hm_content : str;
  hm_timestamp : N;
  hm_image : option str;
}.

(** The events of the chat topic. *)
Inductive ChatEvent :=
| Connected
| History (messages : list HistoryMessage)
| Message (senderId recipientId : string) (content : str) (timestamp : N)
| Processing
| Idle
| SessionStarted (glassesType : string) (timestamp : N)
| SessionReconnecting (reason : str) (timestamp : N)
| SessionReconnected (glassesType : string) (timestamp : N)
| SessionEnded (reason : str) (timestamp : N)
| SessionHeartbeat (active : bool) (timestamp : N).

Definition is_history (e : ChatEvent) : bool :=
  match e with History _ => true | _ => false end.

(** A registered stream writer; [conn] identifies the stream object. *)
Record SSEWriter := {
  id : string;
  conn : nat;
}.

(** The two module-level maps. A queued event is kept as the event
    itself: [JSON.stringify] is one-to-one on these objects. *)
Record Bus := {
  chatClients : gmap string (list SSEWriter);
  pendingEvents : gmap string (list ChatEvent);
}.

Definition empty_bus : Bus := {| chatClients := ∅; pendingEvents := ∅ |}.

(** [Set.add]: a writer object is in the set at most once. *)
Definition set_add (w : SSEWriter) (ws : list SSEWriter) : list SSEWriter :=
  if bool_decide (conn w ∈ map conn ws) then ws else ws ++ [w].

Definition addChatClient (userId : string) (writer : SSEWriter) (b : Bus)
  : Bus :=
  {| chatClients :=
       <[userId := set_add writer (default [] (chatClients b !! userId))]>
         (chatClients b);
     pendingEvents := pendingEvents b |}.

(** Delete the first client whose id is [writerId]. *)
Fixpoint delete_first (writerId : string) (ws : list SSEWriter)
  : list SSEWriter :=
  match ws with
  | w :: ws' =>
      if bool_decide (id w = writerId) then ws'
      else w :: delete_first writerId ws'
  | [] => []
  end.

Definition removeChatClient (userId writerId : string) (b : Bus) : Bus :=
  match chatClients b !! userId with
  | Some clients =>
      let clients' := delete_first writerId clients in
      {| chatClients :=
           match clients' with
           | [] => delete userId (chatClients b)
           | _ => <[userId := clients']> (chatClients b)
           end;
         pendingEvents := pendingEvents b |}
  | None => b
  end.

Definition clearPendingEvents (userId : string) (b : Bus) : Bus :=
  {| chatClients := chatClients b;
     pendingEvents := delete userId (pendingEvents b) |}.

(** [broadcastChatEvent]: [writable] says on which connections a write
    succeeds; a writer whose write fails is deleted from the set, by the
    [catch] handler of that write, which runs when the call has returned.
    This is the call together with the settlement of its writes (the two
    are kept apart in [BusAsync]). The second component lists what was
    written, successfully, to which connection. *)
Definition broadcastChatEvent (writable : nat -> bool) (userId : string)
           (event : ChatEvent) (b : Bus) : Bus * list (nat * ChatEvent) :=
  match chatClients b !! userId with
  | None | Some [] =>
      ({| chatClients := chatClients b;
          pendingEvents :=
            <[userId := default [] (pendingEvents b !! userId) ++ [event]]>
              (pendingEvents b) |}, [])
  | Some clients =>
      let ok := filter (fun w => writable (conn w) = true) clients in
      ({| chatClients := <[userId := ok]> (chatClients b);
          pendingEvents := pendingEvents b |},
       map (fun w => (conn w, event)) ok)
  end.

(** [turn => [user message, agent message]] of the history replay. *)
Definition history_pair (now : N) (userId recipient : string)
           (index : nat) (turn : Turn) : list HistoryMessage :=
  [ {| hm_id := (now, index * 2); hm_senderId := userId;
       hm_recipientId := recipient; hm_content := t_query turn;
       hm_timestamp := t_timestamp turn;
       hm_image := t_photoDataUrl turn |};
    {| hm_id := (now, index * 2 + 1); hm_senderId := recipient;
       hm_recipientId := userId; hm_content := t_response turn;
       hm_timestamp := t_timestamp turn; hm_image := None |} ].

Definition history_messages (now : N) (userId recipient : string)
           (turns : list Turn) : list HistoryMessage :=
  concat (imap (history_pair now userId recipient) turns).

(** A query parameter is used when present and not empty. *)
Definition truthy (s : option string) : option string :=
  match s with
  | Some x => if bool_decide (x = ""%string) then None else Some x
  | None => None
  end.

Inductive StreamOpen :=
| BadRequest                                   (* status 400 *)
| Streaming (writerId : string) (lines : list ChatEvent) (b : Bus).

(** [`${userId}-${Date.now()}`]; the decimal rendering of the time. *)
Definition writer_id (userId : string) (now : N) : string :=
  (userId +:+ "-" +:+ pretty now)%string.

(** The history event that a new stream is sent, if any. *)
Definition history_replay (users : gmap string User) (now : N)
           (userId recipient : string) : list ChatEvent :=
  match users !! userId with
  | Some user =>
      match getRecentTurns (Some 30) (chatHistory user) with
      | [] => []
      | recentTurns =>
          [History (history_messages now userId recipient recentTurns)]
      end
  | None => []
  end.

Definition is_active (users : gmap string User) (userId : string) : bool :=
  match users !! userId with
  | Some user => bool_decide (is_Some (appSession user))
  | None => false
  end.

(** [chatStream] up to the first heartbeat: the lines written to the new
    stream, in order, and the bus afterwards. [users] is the registry
    that [sessions.get] reads. *)
Definition chatStream (users : gmap string User) (now : N)
           (userId recipientId : option string) (stream : nat) (b : Bus)
  : StreamOpen :=
  match truthy userId with
  | None => BadRequest
  | Some userId =>
      let writerId := writer_id userId now in
      let b1 := addChatClient userId {| id := writerId; conn := stream |} b in
      let recipient := default "mentra-ai"%string (truthy recipientId) in
      let connected := [Connected] in
      let history := history_replay users now userId recipient in
      let '(flushed, b2) :=
        match pendingEvents b1 !! userId with
        | Some (e :: queued) => (e :: queued, clearPendingEvents userId b1)
        | _ => ([], b1)
        end in
      let heartbeat := [SessionHeartbeat (is_active users userId) now] in
      Streaming writerId (connected ++ history ++ flushed ++ heartbeat) b2
  end.

(** The periodic heartbeat of an open stream. *)
Definition heartbeat_tick (users : gmap string User) (now : N)
           (userId : string) : ChatEvent :=
  SessionHeartbeat (is_active users userId) now.

(** [stream.onAbort]. *)
Definition on_abort (userId writerId : string) (b : Bus) : Bus :=
  removeChatClient userId writerId b.

End Chat.

(** ** Effects

    The server code is sequential between two [await]s; its calls into the
    SDK, the agent, the timers and the chat bus are recorded in order of
    occurrence. A computation threads a state and appends to this record. *)

Module Effects.
Import Text Users.

(** The [context] object handed to the agent. *)
Record AgentContext := {
  ctx_hasDisplay : bool;
  ctx_hasSpeakers : bool;
  ctx_hasCamera : bool;
  ctx_location : option LocationContext;
  ctx_localTime : str;
  ctx_timezone : option str;
  ctx_notifications : str;
  ctx_conversationHistory : list Turn;
}.

Record GenerateOptions := {
  go_query : str;
  go_photos : option (list Photo.bytes);
  go_context : AgentContext;
}.

Inductive Effect :=
(* chat bus *)
| ChatBroadcast (userId : string) (event : Chat.ChatEvent)
| ChatWrite (stream : nat) (event : Chat.ChatEvent)
| ClearPending (userId : string)
(* timers *)
| SetTimeout (timer : nat) (delayMs : N)
| ClearTimeout (timer : nat)
(* registry *)
| UserCleanup (userId : string)
| UserDelete (userId : string)
(* glasses *)
| PlayAudio (url : str)
| RequestPhoto
| PhotoWrite (stream : nat) (payload : Photo.Payload)
| GetLatestLocation
| FetchContext (query : str)
| ShowTextWall (text : str) (durationMs : N)
| Speak (text : str)
(* agent and history *)
| Generate (options : GenerateOptions)
| AddTurn (query response : str) (hadPhoto : bool).

(** State and effect-record passing. *)
Definition M (S A : Type) : Type := S -> A * S * list Effect.

Definition ret {S A} (a : A) : M S A := fun s => (a, s, []).

Definition bind {S A B} (m : M S A) (k : A -> M S B) : M S B :=
  fun s =>
    let '(a, s1, l1) := m s in
    let '(b, s2, l2) := k a s1 in
    (b, s2, l1 ++ l2).

Definition get {S} : M S S := fun s => (s, s, []).
Definition put {S} (s : S) : M S unit := fun _ => (tt, s, []).
Definition modify {S} (f : S -> S) : M S unit := fun s => (tt, f s, []).
Definition emit {S} (e : Effect) : M S unit := fun s => (tt, s, [e]).
Definition emits {S} (l : list Effect) : M S unit := fun s => (tt, s, l).

Definition when {S} (c : bool) (m : M S unit) : M S unit :=
  if c then m else ret tt.

Definition result {S A} (x : A * S * list Effect) : A := x.1.1.
Definition final {S A} (x : A * S * list Effect) : S := x.1.2.
Definition effects {S A} (x : A * S * list Effect) : list Effect := x.2.

End Effects.

Notation "'do' x <- m ; k" := (Effects.bind m (fun x => k))
  (at level 10, x name, m at level 100, k at level 200, only parsing).
Notation "'do' ' p <- m ; k" := (Effects.bind m (fun x => let 'p := x in k))
  (at level 10, p pattern, m at level 100, k at level 200, only parsing).
Notation "m ;; k" := (Effects.bind m (fun _ => k))
  (at level 100, k at level 200, right associativity, only parsing).

(** ** manager/SessionManager.ts *)

Module Sessions.
Import Text Users Chat Effects.

Record SessionManager := {
  users : gmap string User;
  pendingRemovals : gmap string nat;
}.

(** The timers of the runtime: the armed ones, each with the user id its
    callback closes over, and the next free handle. *)
Record Timers := {
  armed : gmap nat string;
  nextTimer : nat;
}.

(** The process-wide state: the [sessions] singleton, the timers and the
    maps of the chat module. *)
Record Server := {
  sessions : SessionManager;
  timers : Timers;
  bus : Bus;
}.

Definition set_users (f : gmap string User -> gmap string User)
           (sv : Server) : Server :=
  {| sessions := {| users := f (users (sessions sv));
                    pendingRemovals := pendingRemovals (sessions sv) |};
     timers := timers sv; bus := bus sv |}.

Definition set_pendingRemovals (f : gmap string nat -> gmap string nat)
           (sv : Server) : Server :=
  {| sessions := {| users := users (sessions sv);
                    pendingRemovals := f (pendingRemovals (sessions sv)) |};
     timers := timers sv; bus := bus sv |}.

Definition set_bus (b : Bus) (sv : Server) : Server :=
  {| sessions := sessions sv; timers := timers sv; bus := b |}.

Definition set_timers (t : Timers) (sv : Server) : Server :=
  {| sessions := sessions sv; timers := t; bus := bus sv |}.

Section Runtime.
(** Whether a write on a chat stream succeeds. *)
Variable writable : nat -> bool.
(** The clock, read when an event is stamped. *)
Variable now : N.

(** [broadcastChatEvent] as a step of the server. *)
Definition broadcast (userId : string) (event : ChatEvent)
  : M Server unit :=
  do sv <- get;
  let '(b, written) := broadcastChatEvent writable userId event (bus sv) in
  put (set_bus b sv) ;;
  emit (ChatBroadcast userId event) ;;
  emits (map (fun w => ChatWrite w.1 w.2) written).

Definition clearPending (userId : string) : M Server unit :=
  modify (fun sv => set_bus (clearPendingEvents userId (bus sv)) sv) ;;
  emit (ClearPending userId).

Definition clearTimeout (timer : nat) : M Server unit :=
  modify (fun sv =>
    set_timers {| armed := delete timer (armed (timers sv));
                  nextTimer := nextTimer (timers sv) |} sv) ;;
  emit (ClearTimeout timer).

(** [setTimeout] for the grace-period callback of [userId]. *)
Definition setTimeout (userId : string) (delayMs : N) : M Server nat :=
  do sv <- get;
  let timer := nextTimer (timers sv) in
  put (set_timers {| armed := <[timer := userId]> (armed (timers sv));
                     nextTimer := S timer |} sv) ;;
  emit (SetTimeout timer delayMs) ;;
  ret timer.

Definition getOrCreate (userId : string) : M Server User :=
  do sv <- get;
  match users (sessions sv) !! userId with
  | Some user => ret user
  | None =>
      let user := new_user userId in
      modify (set_users (fun us => <[userId := user]> us)) ;;
      ret user
  end.

Definition get_user (userId : string) (sv : Server) : option User :=
  users (sessions sv) !! userId.

Definition remove (userId : string) : M Server unit :=
  do sv <- get;
  match pendingRemovals (sessions sv) !! userId with
  | Some existingTimer =>
      clearTimeout existingTimer ;;
      modify (set_pendingRemovals (fun pr => delete userId pr))
  | None => ret tt
  end ;;
  do sv <- get;
  match users (sessions sv) !! userId with
  | Some user =>
      emit (UserCleanup userId) ;;
      modify (set_users (fun us => delete userId us)) ;;
      emit (UserDelete userId)
  | None => ret tt
  end.

(** The callback of the grace-period timer. *)
Definition grace_expired (userId : string) : M Server unit :=
  modify (set_pendingRemovals (fun pr => delete userId pr)) ;;
  broadcast userId (SessionEnded (txt "grace period expired") now) ;;
  clearPending userId ;;
  remove userId.

Definition softRemove (userId : string) (gracePeriodMs : N)
  : M Server unit :=
  do sv <- get;
  match users (sessions sv) !! userId with
  | None => ret tt
  | Some user =>
      modify (set_users (fun us => <[userId := clearAppSession user]> us)) ;;
      match pendingRemovals (sessions sv) !! userId with
      | Some existingTimer => clearTimeout existingTimer
      | None => ret tt
      end ;;
      do timer <- setTimeout userId gracePeriodMs;
      modify (set_pendingRemovals (fun pr => <[userId := timer]> pr))
  end.

Definition DEFAULT_GRACE_MS : N := 60000.

Definition cancelRemoval (userId : string) : M Server bool :=
  do sv <- get;
  match pendingRemovals (sessions sv) !! userId with
  | Some timer =>
      clearTimeout timer ;;
      modify (set_pendingRemovals (fun pr => delete userId pr)) ;;
      ret true
  | None => ret false
  end.

(** The runtime fires [timer]: an armed timer is disarmed and its
    callback runs; a cleared or unknown handle does nothing. *)
Definition fire (timer : nat) : M Server unit :=
  do sv <- get;
  match armed (timers sv) !! timer with
  | Some userId =>
      put (set_timers {| armed := delete timer (armed (timers sv));
                         nextTimer := nextTimer (timers sv) |} sv) ;;
      grace_expired userId
  | None => ret tt
  end.

End Runtime.

Definition empty_server : Server :=
  {| sessions := {| users := ∅; pendingRemovals := ∅ |};
     timers := {| armed := ∅; nextTimer := 1 |};
     bus := empty_bus |}.

End Sessions.

(** ** manager/QueryProcessor.ts *)

Module Pipeline.
Import Text Users Effects.

(** What the outside world answers during one run of the pipeline: every
    awaited call either resolves or throws. *)
Record World := {
  (** the environment variable, when set and not empty *)
  PROCESSING_SOUND_URL : option str;
  (** [PHOTO_SETTINGS.previousPhotosToKeep] *)
  previousPhotosToKeep : nat;
  (** [camera.requestPhoto()]; [None]: it throws *)
  requestPhoto : option Photo.PhotoData;
  (** whether a write on a photo stream succeeds *)
  photoWritable : nat -> bool;
  (** [location.getLatestLocation]; [None]: it throws, [Some None]: no
      location data *)
  getLatestLocation : option (option (Z * Z));
  (** [fetchContextIfNeeded(query)] of the location manager, whose source
      is missing: the manager afterwards; [None]: it throws *)
  fetchContextIfNeeded : str -> LocationManager -> option LocationManager;
  (** [toLocaleTimeString] with the given time zone; [None]: it throws *)
  toLocaleTimeString : option str -> option str;
  (** [toLocaleTimeString] without a time zone *)
  defaultTimeString : str;
  (** [JSON.stringify] of the recent notifications *)
  stringify : list str -> option str;
  (** the agent; [None]: it throws (failure or timeout) *)
  generateResponse : GenerateOptions -> option str;
  (** [formatForTTS] of utils/tts-formatter *)
  formatForTTS : str -> str;
  (** the clock *)
  now : N;
}.

Definition NOT_CONNECTED : str :=
  txt "I'm not connected to your glasses right now.".

Definition APOLOGY : str :=
  txt "I'm sorry, I had trouble processing that. Please try again.".

Section Run.
Variable w : World.

(** [session.capabilities?.field ?? dflt]. *)
Definition capability (field : Capabilities -> option bool) (dflt : bool)
           (session : AppSession) : bool :=
  match capabilities session with
  | Some caps => default dflt (field caps)
  | None => dflt
  end.

(** The sound is played when the URL is set and a session exists; a
    failure of [playAudio] is caught either way. *)
Definition playProcessingSound : M User unit :=
  do u <- get;
  match PROCESSING_SOUND_URL w, appSession u with
  | Some url, Some _ => emit (PlayAudio url)
  | _, _ => ret tt
  end.

(** [this.user.photo.takePhoto()] *)
Definition takePhoto : M User (option Photo.StoredPhoto) :=
  do u <- get;
  let hasSession := bool_decide (is_Some (appSession u)) in
  let '(stored, pm, written) :=
    Photo.takePhoto (previousPhotosToKeep w) (photoWritable w)
      (userId u) hasSession (requestPhoto w) (photo u) in
  when hasSession (emit RequestPhoto) ;;
  put (set_photo pm u) ;;
  emits (map (fun x => PhotoWrite x.1 x.2) written) ;;
  ret stored.

(** Modelled from the spec: [LocationManager.queryNeedsLocation], whose
    source is missing; it delegates to the classifier. *)
Definition queryNeedsLocation (query : str) : bool :=
  LocationQuery.isLocationQuery query.

(** Modelled from the spec: [LocationManager.updateCoordinates], whose
    source is missing; it stores the last known coordinates. *)
Definition updateCoordinates (lat lng : Z) (l : LocationManager)
  : LocationManager :=
  {| coordinates := Some (lat, lng); cachedContext := cachedContext l |}.

(** Step 2; every failure inside is caught and logged. *)
Definition fetchLocation (query : str) : M User unit :=
  if queryNeedsLocation query then
    emit GetLatestLocation ;;
    match getLatestLocation w with
    | Some (Some (lat, lng)) =>
        modify (fun u =>
          set_location (updateCoordinates lat lng (location u)) u) ;;
        emit (FetchContext query) ;;
        modify (fun u =>
          match fetchContextIfNeeded w query (location u) with
          | Some l => set_location l u
          | None => u
          end)
    | _ => ret tt
    end
  else ret tt.

Definition cached_timezone (u : User) : option str :=
  match cachedContext (location u) with
  | Some c => lc_timezone c
  | None => None
  end.

Definition getLocalTime (u : User) : str :=
  let timezone :=
    match cached_timezone u with
    | Some [] => None
    | tz => tz
    end in
  default (defaultTimeString w) (toLocaleTimeString w timezone).

Definition formatResponse (response : str) (hasSpeakers hasDisplay : bool)
  : str :=
  if hasSpeakers && negb hasDisplay then formatForTTS w response
  else response.

(** Both outputs catch their own failure. *)
Definition outputResponse (response : str) (hasSpeakers hasDisplay : bool)
  : M User unit :=
  do u <- get;
  match appSession u with
  | None => ret tt
  | Some _ =>
      when hasDisplay (emit (ShowTextWall response 10000)) ;;
      when hasSpeakers (emit (Speak response))
  end.

Definition processQuery (query : str) : M User str :=
  do u <- get;
  match appSession u with
  | None => ret NOT_CONNECTED
  | Some session =>
      (* Play processing sound *)
      playProcessingSound ;;
      (* Step 1: Capture photo (always, if camera available) *)
      let hasCamera := capability hasCamera false session in
      do photos <-
        (if hasCamera then
           do currentPhoto <- takePhoto;
           match currentPhoto with
           | Some _ =>
               do u <- get; ret (Photo.getPhotosForContext (photo u))
           | None => ret []
           end
         else ret []);
      (* Step 2: Fetch location if needed *)
      fetchLocation query ;;
      do u <- get;
      (* Step 3: Get local time *)
      let localTime := getLocalTime u in
      (* Step 4: Build agent context *)
      let context := {|
        ctx_hasDisplay := capability hasDisplay false session;
        ctx_hasSpeakers := capability hasSpeaker true session;
        ctx_hasCamera := hasCamera;
        ctx_location := cachedContext (location u);
        ctx_localTime := localTime;
        ctx_timezone := cached_timezone u;
        ctx_notifications :=
          formatForPrompt (stringify w) (now w) (notifications u);
        ctx_conversationHistory := getRecentTurns None (chatHistory u) |} in
      (* Step 5: Generate response *)
      let options := {|
        go_query := query;
        go_photos := match photos with [] => None | _ => Some photos end;
        go_context := context |} in
      emit (Generate options) ;;
      let response := default APOLOGY (generateResponse w options) in
      (* Step 6: Format response for output *)
      let formattedResponse :=
        formatResponse response (ctx_hasSpeakers context)
                       (ctx_hasDisplay context) in
      (* Step 7: Output response *)
      outputResponse formattedResponse (ctx_hasSpeakers context)
                     (ctx_hasDisplay context) ;;
      (* Step 8: Save to chat history *)
      let hadPhoto := bool_decide (0 < length photos) in
      emit (AddTurn query response hadPhoto) ;;
      modify (fun u =>
        set_chatHistory
          (addTurn (now w) query response hadPhoto (chatHistory u)) u) ;;
      ret response
  end.

End Run.

End Pipeline.

(** ** The vocabulary of the stated properties *)

Module Stated.
Import Text Regex WakeWord.

(** The longest suffix of [s] whose first character is outside [p]. *)
Fixpoint skip_while (p : ascii -> bool) (s : str) : str :=
  match s with
  | c :: s' => if p c then skip_while p s' else s
  | [] => []
  end.

(** [x] is the letter [c] in lower or upper case. *)
Definition same_letter (c x : ascii) : Prop := toLowerChar x = c.

(** [w] spells the word [cs] letter by letter, in any letter case, with
    optional whitespace between two letters. *)
Inductive spelled : str -> str -> Prop :=
| spelled_last c x :
    same_letter c x -> spelled [c] [x]
| spelled_more c cs x gap w :
    same_letter c x -> Forall (fun g => isWhitespace g = true) gap ->
    cs <> [] -> spelled cs w ->
    spelled (c :: cs) (x :: gap ++ w).

(** The whitespace variants of the wake phrase: both words spelled as
    above, with one or more whitespace characters between them. *)
Definition wake_variant (W : str) : Prop :=
  exists w1 gap w2,
    spelled (txt "hey") w1 /\ gap <> [] /\
    Forall (fun g => isWhitespace g = true) gap /\
    spelled (txt "mentra") w2 /\ W = w1 ++ gap ++ w2.

(** What [detectWakeWord] does to the text after the match. *)
Definition tidy (s : str) : str := trim (strip_lead (trim s)).

(** The proper suffixes of the last word of the wake phrase. *)
Definition mentra_fragments : list str :=
  map txt ["a"; "ra"; "tra"; "ntra"; "entra"]%string.

(** [t] begins with [f] in any letter case, and a character of
    [[,.!?;:]] follows. *)
Definition fragment_at (f t : str) : bool :=
  match drop (length f) t with
  | c :: _ => bool_decide (toLowerCase (take (length f) t) = f) && frag_punct c
  | [] => false
  end.

(** [t] begins with a wake-word fragment followed by punctuation. *)
Definition begins_with_fragment (t : str) : bool :=
  existsb (fun f => fragment_at f t) mentra_fragments.

(** The literal match of [f] under the [i] flag: what is left of [t]. *)
Fixpoint strip_lit (f t : str) : option str :=
  match f, t with
  | [], _ => Some t
  | c :: f', x :: t' =>
      if (canonicalize x =? canonicalize c)%N then strip_lit f' t' else None
  | _ :: _, [] => None
  end.

(** A run of whitespace characters. *)
Definition is_gap (gap : str) : Prop :=
  Forall (fun g => isWhitespace g = true) gap.

(** The final [n] characters of [W] (all of [W] when it is shorter). *)
Definition final_chars (n : nat) (W : str) : str :=
  drop (length W - n) W.

(** The letters of the fragments. *)
Definition fragment_letter (c : ascii) : Prop :=
  c ∈ ["a"; "e"; "n"; "r"; "t"]%char.

(** What follows a fragment in the pattern: [[,.!?;:]+\s*]. *)
Definition after_fragment (s : str) : option str :=
  run true (Cat (Plus frag_punct) (Star isWhitespace)) s Some.

(** Events of the chat topic: a broadcast and its writes. *)
Definition is_chat_effect (e : Effects.Effect) : bool :=
  match e with
  | Effects.ChatBroadcast _ _ | Effects.ChatWrite _ _ => true
  | _ => false
  end.

(** Calls into the glasses session and writes to photo streams. *)
Definition is_glasses_effect (e : Effects.Effect) : bool :=
  match e with
  | Effects.PlayAudio _ | Effects.RequestPhoto | Effects.PhotoWrite _ _
  | Effects.GetLatestLocation | Effects.FetchContext _
  | Effects.ShowTextWall _ _ | Effects.Speak _ => true
  | _ => false
  end.

(** A computation whose effects are all of the second kind. *)
Definition quiet {S A} (m : Effects.M S A) : Prop :=
  forall s, forallb is_glasses_effect (Effects.effects (m s)) = true.

(** The lines written to a newly opened chat stream. *)
Definition stream_lines (r : Chat.StreamOpen) : list Chat.ChatEvent :=
  match r with
  | Chat.Streaming _ lines _ => lines
  | Chat.BadRequest => []
  end.

Definition stream_bus (r : Chat.StreamOpen) (b : Chat.Bus) : Chat.Bus :=
  match r with
  | Chat.Streaming _ _ b' => b'
  | Chat.BadRequest => b
  end.

(** The events queued for a user. *)
Definition queued (userId : string) (b : Chat.Bus) : list Chat.ChatEvent :=
  default [] (Chat.pendingEvents b !! userId).

(** A run of successful captures, oldest first. *)
Definition capture_all (keep : nat) (writable : nat -> bool)
           (userId : string) (shots : list Photo.PhotoData)
           (pm : Photo.PhotoManager) : Photo.PhotoManager :=
  foldl (fun pm shot =>
           (Photo.takePhoto keep writable userId true (Some shot) pm).1.2)
        pm shots.

(** Reading base64 text back: the position of a character in the
    alphabet, and the bytes of a padded text. *)
Fixpoint index_of (c : ascii) (l : str) (i : N) : option N :=
  match l with
  | x :: l' => if bool_decide (x = c) then Some i else index_of c l' (N.succ i)
  | [] => None
  end.

Definition b64_value (c : ascii) : option N := index_of c Photo.b64_alphabet 0.

Fixpoint b64_decode (s : str) : option Photo.bytes :=
  match s with
  | [] => Some []
  | c1 :: c2 :: c3 :: c4 :: rest =>
      s1 ← b64_value c1;
      s2 ← b64_value c2;
      x ← Byte.of_N (s1 * 4 + s2 / 16)%N;
      if bool_decide (c3 = Photo.pad) then
        if bool_decide (c4 = Photo.pad /\ rest = []) then Some [x] else None
      else
        s3 ← b64_value c3;
        y ← Byte.of_N ((s2 mod 16) * 16 + s3 / 4)%N;
        if bool_decide (c4 = Photo.pad) then
          if bool_decide (rest = []) then Some [x; y] else None
        else
          s4 ← b64_value c4;
          z ← Byte.of_N ((s3 mod 4) * 64 + s4)%N;
          tail ← b64_decode rest;
          Some (x :: y :: z :: tail)
  | _ => None
  end.

(** The keys of a serialised photo event. *)
Definition payload_keys (p : Photo.Payload) : list string := map fst p.

Fixpoint payload_field (key : string) (p : Photo.Payload)
  : option Photo.JValue :=
  match p with
  | (k, v) :: p' =>
      if bool_decide (k = key) then Some v else payload_field key p'
  | [] => None
  end.

(** The metadata fields that the design document allows in the event. *)
Definition metadata_keys : list string :=
  ["requestId"; "mimeType"; "size"; "timestamp"; "userId"; "filename"]%string.

(** Every armed timer belongs to a registered user and is the one
    recorded as that user's pending removal; handles are handed out in
    increasing order. *)
Definition timers_consistent (sv : Sessions.Server) : Prop :=
  (forall timer userId,
     Sessions.armed (Sessions.timers sv) !! timer = Some userId ->
     Sessions.pendingRemovals (Sessions.sessions sv) !! userId = Some timer /\
     is_Some (Sessions.users (Sessions.sessions sv) !! userId)) /\
  (forall timer,
     is_Some (Sessions.armed (Sessions.timers sv) !! timer) ->
     timer < Sessions.nextTimer (Sessions.timers sv)).

(** What can happen to the server between two events: an operation of
    the session manager, a timer that fires, any change of the chat bus,
    and any change of the state of a registered user. *)
Inductive server_step : Sessions.Server -> Sessions.Server -> Prop :=
| step_getOrCreate userId sv :
    server_step sv (Effects.final (Sessions.getOrCreate userId sv))
| step_remove userId sv :
    server_step sv (Effects.final (Sessions.remove userId sv))
| step_softRemove userId grace sv :
    server_step sv (Effects.final (Sessions.softRemove userId grace sv))
| step_cancelRemoval userId sv :
    server_step sv (Effects.final (Sessions.cancelRemoval userId sv))
| step_fire writable now timer sv :
    server_step sv (Effects.final (Sessions.fire writable now timer sv))
| step_bus b sv :
    server_step sv (Sessions.set_bus b sv)
| step_user userId user sv :
    is_Some (Sessions.users (Sessions.sessions sv) !! userId) ->
    server_step sv (Sessions.set_users (fun us => <[userId := user]> us) sv).

(** The states that the server can be in. *)
Definition reachable (sv : Sessions.Server) : Prop :=
  rtc server_step Sessions.empty_server sv.

End Stated.

(** ** Scenarios: concrete states and inputs *)

Module Scenarios.
Import Text Users Chat Stated.

(** A user whose glasses connected at time 900 while no chat stream was
    open (the [session_started] event is queued) and who completed one
    turn at time 1000. *)
Definition late_user : User :=
  set_chatHistory
    (addTurn 1000 (txt "what time is it") (txt "It is noon.") false [])
    (set_appSession (Some {| sessionRef := 1; capabilities := None |})
                    (new_user "u1")).

Definition late_users : gmap string User := {[ "u1"%string := late_user ]}.

Definition late_bus : Bus :=
  (broadcastChatEvent (fun _ => true) "u1"
                      (SessionStarted "camera" 900) empty_bus).1.

(** A three-byte photo. *)
Definition man_shot : Photo.PhotoData :=
  {| Photo.pd_requestId := "req-1"; Photo.pd_buffer := [x4d; x61; x6e]%byte;
     Photo.pd_timestamp := 1234; Photo.pd_mimeType := txt "image/jpeg";
     Photo.pd_filename := txt "photo.jpg"; Photo.pd_size := 3 |}.

(** A photo manager with one connected photo stream. *)
Definition watched_manager : Photo.PhotoManager :=
  {| Photo.photos := ∅;
     Photo.sseClients := [{| Photo.pc_conn := 7; Photo.pc_userId := "u1" |}];
     Photo.currentPhoto := None; Photo.previousPhotos := [] |}.

(** Nine captures with the request ids "req-1" to "req-9". *)
Definition nine_ids : list string :=
  map (fun i : nat => ("req-" +:+ pretty i)%string) (seq 1 9).

Definition nine_shots : list Photo.PhotoData :=
  map (fun id =>
         {| Photo.pd_requestId := id; Photo.pd_buffer := [xff; xd8]%byte;
            Photo.pd_timestamp := 1234; Photo.pd_mimeType := txt "image/jpeg";
            Photo.pd_filename := txt "photo.jpg"; Photo.pd_size := 2 |})
      nine_ids.

(** A server on which [late_user] is registered and one chat stream
    (connection 5) is open for them. *)
Definition watched_server : Sessions.Server :=
  {| Sessions.sessions :=
       {| Sessions.users := late_users; Sessions.pendingRemovals := ∅ |};
     Sessions.timers := {| Sessions.armed := ∅; Sessions.nextTimer := 1 |};
     Sessions.bus :=
       addChatClient "u1" {| id := "u1-950"; conn := 5 |} empty_bus |}.

(** A world in which the agent answers and nothing else is asked. *)
Definition calm_world : Pipeline.World :=
  {| Pipeline.PROCESSING_SOUND_URL := None;
     Pipeline.previousPhotosToKeep := 2;
     Pipeline.requestPhoto := None;
     Pipeline.photoWritable := fun _ => true;
     Pipeline.getLatestLocation := None;
     Pipeline.fetchContextIfNeeded := fun _ l => Some l;
     Pipeline.toLocaleTimeString := fun _ => Some (txt "12:00 PM");
     Pipeline.defaultTimeString := txt "12:00 PM";
     Pipeline.stringify := fun _ => None;
     Pipeline.generateResponse := fun _ => Some (txt "It is noon.");
     Pipeline.formatForTTS := fun s => s;
     Pipeline.now := 1000 |}.

(** The same world with an agent that throws. *)
Definition failing_world : Pipeline.World :=
  {| Pipeline.PROCESSING_SOUND_URL := None;
     Pipeline.previousPhotosToKeep := 2;
     Pipeline.requestPhoto := None;
     Pipeline.photoWritable := fun _ => true;
     Pipeline.getLatestLocation := None;
     Pipeline.fetchContextIfNeeded := fun _ l => Some l;
     Pipeline.toLocaleTimeString := fun _ => Some (txt "12:00 PM");
     Pipeline.defaultTimeString := txt "12:00 PM";
     Pipeline.stringify := fun _ => None;
     Pipeline.generateResponse := fun _ => None;
     Pipeline.formatForTTS := fun s => s;
     Pipeline.now := 1000 |}.

(** A user with connected glasses and no history. *)
Definition connected_user : User :=
  set_appSession (Some {| sessionRef := 1; capabilities := None |})
                 (new_user "u1").

End Scenarios.

(** ** utils/text-wrapper.ts *)

Module TextWrap.
Import Text.

(** The argument [width] of [convertLineWidth]: a number or a string. *)
Inductive Width :=
| WNumber (n : Z)
| WString (s : str).

Definition convertLineWidth (width : Width) (isHanzi : bool) : Z :=
  match width with
  | WNumber n => n
  | WString s =>
      let w := toLowerCase s in
      if negb isHanzi then
        if bool_decide (w = txt "very narrow") then 21
        else if bool_decide (w = txt "narrow") then 30
        else if bool_decide (w = txt "medium") then 38
        else if bool_decide (w = txt "wide") then 44
        else if bool_decide (w = txt "very wide") then 52
        else 45
      else
        if bool_decide (w = txt "very narrow") then 7
        else if bool_decide (w = txt "narrow") then 10
        else if bool_decide (w = txt "medium") then 14
        else if bool_decide (w = txt "wide") then 18
        else if bool_decide (w = txt "very wide") then 21
        else 14
  end%Z.

Definition newline : ascii := "010"%char.
Definition blank : ascii := " "%char.

(** [s.split(sep)] for a one-character separator: the pieces between the
    separators, at least one piece. *)
Fixpoint split (sep : ascii) (s : str) : list str :=
  match s with
  | [] => [[]]
  | c :: s' =>
      if bool_decide (c = sep) then [] :: split sep s'
      else
        match split sep s' with
        | piece :: pieces => (c :: piece) :: pieces
        | [] => [[c]]
        end
  end.

(** [pieces.join(sep)]. *)
Fixpoint join (sep : ascii) (pieces : list str) : str :=
  match pieces with
  | [] => []
  | [piece] => piece
  | piece :: rest => piece ++ sep :: join sep rest
  end.

(** The loop [while (currentLine.length > maxLength)], which pushes a
    slice of [maxLength] characters per round. The rounds are counted
    down from [fuel]; [None] stands for a loop that is still running when
    the count is used up. *)
Fixpoint hard_cut (fuel maxLength : nat) (currentLine : str)
         (wrappedLines : list str) : option (str * list str) :=
  if bool_decide (length currentLine <= maxLength)
  then Some (currentLine, wrappedLines)
  else
    match fuel with
    | O => None
    | S fuel' =>
        hard_cut fuel' maxLength (drop maxLength currentLine)
                 (wrappedLines ++ [take maxLength currentLine])
    end.

(** The body of [words.forEach], on the pair of [currentLine] and
    [wrappedLines]. *)
Definition add_word (fuel maxLength : nat) (state : str * list str)
           (word : str) : option (str * list str) :=
  let '(currentLine, wrappedLines) := state in
  let sep := match currentLine with [] => [] | _ => [blank] end in
  if bool_decide (length currentLine + length sep + length word <= maxLength)
  then Some (currentLine ++ sep ++ word, wrappedLines)
  else
    hard_cut fuel maxLength word
             (match currentLine with
              | [] => wrappedLines
              | _ => wrappedLines ++ [currentLine]
              end).

Fixpoint add_words (fuel maxLength : nat) (state : str * list str)
         (words : list str) : option (str * list str) :=
  match words with
  | [] => Some state
  | word :: rest =>
      match add_word fuel maxLength state word with
      | Some state' => add_words fuel maxLength state' rest
      | None => None
      end
  end.

(** The wrapped lines of one input line. *)
Definition wrap_line (fuel maxLength : nat) (line : str) : option (list str) :=
  match add_words fuel maxLength ([], []) (split blank line) with
  | Some (currentLine, wrappedLines) =>
      Some (match currentLine with
            | [] => wrappedLines
            | _ => wrappedLines ++ [trim currentLine]
            end)
  | None => None
  end.

Fixpoint wrap_lines (fuel maxLength : nat) (lines : list str)
  : option (list str) :=
  match lines with
  | [] => Some []
  | line :: rest =>
      match wrap_line fuel maxLength line, wrap_lines fuel maxLength rest with
      | Some wrapped, Some more => Some (join newline wrapped :: more)
      | _, _ => None
      end
  end.

(** The argument [text: any]: a string or something else. *)
Inductive JsValue :=
| JString (s : str)
| JOther.

(** [wrapText] for a [maxLength] that is a natural number. *)
Definition wrapText (fuel : nat) (text : JsValue) (maxLength : nat)
  : option str :=
  match text with
  | JOther => Some []
  | JString [] => Some []
  | JString s =>
      match wrap_lines fuel maxLength (split newline s) with
      | Some wrapped => Some (join newline wrapped)
      | None => None
      end
  end.

Definition DEFAULT_MAX_LENGTH : nat := 25.

End TextWrap.

(** ** The vocabulary of the further properties *)

Module Further.
Import Text.

(** The characters of a text that are not whitespace, in order. *)
Definition solid (s : str) : str :=
  filter (fun c => isWhitespace c = false) s.

(** All lines of a wrapped text are at most [n] characters long. *)
Definition lines_within (n : nat) (out : str) : Prop :=
  Forall (fun line => length line <= n) (TextWrap.split TextWrap.newline out).

(** A text without its leading blanks. *)
Fixpoint drop_blanks (s : str) : str :=
  match s with
  | c :: s' => if bool_decide (c = TextWrap.blank) then drop_blanks s' else s
  | [] => []
  end.

(** The current line and the wrapped lines are at most [n] long. *)
Definition state_within (n : nat) (state : str * list str) : Prop :=
  length state.1 <= n /\ Forall (fun l => length l <= n) state.2.

End Further.

(** ** More of the vocabulary: text wrapping *)

Module Further2.
Import Text.

(** The non-whitespace characters held by the state of the word loop. *)
Definition state_solid (state : str * list str) : str :=
  concat (map Further.solid state.2) ++ Further.solid state.1.

(** What the word loop builds from words that all fit on the line. *)
Fixpoint glue (currentLine : str) (words : list str) : str :=
  match words with
  | [] => currentLine
  | word :: rest =>
      glue (currentLine
              ++ match currentLine with [] => [] | _ => [TextWrap.blank] end
              ++ word) rest
  end.

End Further2.

(** ** More of utils/wake-word.ts and utils/location-query.ts *)

Module Classifiers.
Import Text LocationQuery.

(** The vision keywords, in the order of the source. *)
Definition VISION_KEYWORDS : list str := map txt [
  "what am i looking at"; "what is this"; "what is that"; "identify this";
  "identify that"; "what do you see"; "describe what";
  "tell me about this"; "tell me about that"; "what's in front of me";
  "can you see"; "look at this"; "look at that"; "check this out";
  "what's this"; "what's that"; "whats this"; "whats that"; "what kind of";
  "what type of"; "what brand"; "what model"; "who is this"; "who is that";
  "who's this"; "who's that"; "read this"; "read that"; "read it";
  "what does this say"; "what does that say"; "what does it say";
  "what is written"; "can you read"; "read the text"; "read the sign";
  "read the label"; "what's written"; "whats written"; "translate this";
  "translate that"; "what color"; "what colour"; "how many"; "how much";
  "count the"; "count how many"; "how big"; "how small"; "how tall";
  "how long"; "how wide"; "what size"; "describe this"; "describe that";
  "describe what you see"; "tell me what you see"; "explain what you see";
  "what do you notice"; "what can you tell me about"; "solve this";
  "fix this"; "what's wrong"; "whats wrong"; "what is wrong";
  "how do i fix"; "how do i solve"; "how can i fix"; "help me fix";
  "help me solve"; "help me with this"; "what's the problem";
  "whats the problem"; "what is the problem"; "diagnose this";
  "troubleshoot this"; "debug this"; "why isn't this working";
  "why isnt this working"; "why is this broken"; "why doesn't this work";
  "why doesnt this work"; "this isn't working"; "this isnt working";
  "this doesn't work"; "not working"; "broken"; "stuck"; "jammed";
  "what should i do"; "what do i do"; "how do i repair";
  "how do i use this"; "how do i use that"; "how does this work";
  "how does that work"; "show me how"; "teach me how"; "how to use this";
  "how to use that"; "what does this do"; "what does that do";
  "how do i operate"; "how to operate"; "how do i turn this on";
  "how do i turn this off"; "how do i set this up"; "how to set up";
  "where do i"; "which button"; "what button"; "where is the";
  "how do i connect"; "guide me"; "walk me through"; "step by step";
  "where is this"; "where is that"; "what place is this"; "what building";
  "what store"; "what restaurant"; "what street"
]%string.

Definition isVisionQuery (query : str) : bool :=
  let q := toLowerCase query in
  some_included VISION_KEYWORDS q.

Inductive LocationQueryType := none | weather_only | full_location.

Definition getLocationQueryType (query : str) : LocationQueryType :=
  let q := toLowerCase query in
  if some_included LOCATION_KEYWORDS q then full_location
  else if some_included WEATHER_KEYWORDS q then weather_only
  else none.

(** [inner] occurs in [outer] when letter case is ignored. *)
Definition occurs_in (inner outer : str) : Prop :=
  exists before after,
    toLowerCase outer = before ++ toLowerCase inner ++ after.

End Classifiers.

(** ** More of the vocabulary: wake word *)

Module Further3.
Import Text.

(** The letters of the wake phrase. *)
Definition wake_letter (c : ascii) : Prop :=
  c ∈ ["h"; "e"; "y"; "m"; "n"; "t"; "r"; "a"]%char.

(** [t] contains a whitespace variant of the wake phrase. *)
Definition contains_variant (t : str) : Prop :=
  exists before W after, Stated.wake_variant W /\ t = before ++ W ++ after.

End Further3.

(** ** Runs of the chat bus *)

Module BusRuns.
Import Text Chat Stated.

(** The events [es] broadcast to [userId] one after the other: the bus
    afterwards and everything that was written, in order. *)
Fixpoint broadcast_each (writable : nat -> bool) (userId : string)
         (es : list ChatEvent) (b : Bus) : Bus * list (nat * ChatEvent) :=
  match es with
  | e :: es' =>
      let '(b1, w1) := broadcastChatEvent writable userId e b in
      let '(b2, w2) := broadcast_each writable userId es' b1 in
      (b2, w1 ++ w2)
  | [] => (b, [])
  end.

(** The writers registered for a user. *)
Definition clients_of (userId : string) (b : Bus) : list SSEWriter :=
  default [] (chatClients b !! userId).

End BusRuns.

(** ** The two halves of a broadcast

    [broadcastChatEvent] calls [write] on every client and returns; a
    write that fails rejects its promise, and the [catch] handler that
    deletes the writer runs later, when the call has returned. *)

Module BusAsync.
Import Text Chat Stated.

(** What happens during the call: without a client the event is queued;
    otherwise [write] is called on every client and the set of clients
    stays as it is. The second component lists the writers that were
    written to, in the order of the set. *)
Definition broadcast_call (userId : string) (event : ChatEvent) (b : Bus)
  : Bus * list SSEWriter :=
  match chatClients b !! userId with
  | None | Some [] =>
      ({| chatClients := chatClients b;
          pendingEvents :=
            <[userId := default [] (pendingEvents b !! userId) ++ [event]]>
              (pendingEvents b) |}, [])
  | Some clients => (b, clients)
  end.

(** The writers of a call whose write fails. *)
Definition failed (writable : nat -> bool) (attempted : list SSEWriter)
  : list SSEWriter :=
  filter (fun w => writable (conn w) = false) attempted.

(** The [catch] handlers of a call, run once its writes have settled:
    each deletes its writer from the set of clients that the call
    iterated. A writer is identified by its stream object. A set that
    [removeChatClient] has taken out of the map in the meantime is empty,
    so that the handlers do nothing then. *)
Definition settle (writable : nat -> bool) (userId : string)
           (attempted : list SSEWriter) (b : Bus) : Bus :=
  match chatClients b !! userId with
  | Some clients =>
      {| chatClients :=
           <[userId :=
               filter (fun w => conn w ∉ map conn (failed writable attempted))
                      clients]> (chatClients b);
         pendingEvents := pendingEvents b |}
  | None => b
  end.

End BusAsync.

(** ** api/debug.ts and the [onStop] handler of MentraAI.ts *)

Module Lifecycle.
Import Text Users Chat Effects Sessions.

(** The replies of [killSession]: status 400, status 404, and the
    success object with its [mode] field. *)
Inductive KillReply :=
| UserIdRequired
| NoSession
| Killed (mode : string).

Section Runtime.
Variable writable : nat -> bool.
Variable now : N.

(** [killSession]; [userId] and [mode] are the query parameters. *)
Definition killSession (userId mode : option string)
  : M Server KillReply :=
  let mode := default "soft"%string (truthy mode) in
  match truthy userId with
  | None => ret UserIdRequired
  | Some userId =>
      do sv <- get;
      match get_user userId sv with
      | None => ret NoSession
      | Some user =>
          if bool_decide (mode = "hard"%string) then
            broadcast writable userId
              (SessionEnded (txt "debug-hard-kill") now) ;;
            clearPending userId ;;
            remove userId ;;
            ret (Killed "hard")
          else
            broadcast writable userId
              (SessionReconnecting (txt "debug-soft-kill") now) ;;
            softRemove userId DEFAULT_GRACE_MS ;;
            ret (Killed "soft")
      end
  end.

(** [MentraAI.onStop]: [softRemove] does not throw. *)
Definition onStop (userId : string) (reason : str) : M Server unit :=
  broadcast writable userId (SessionReconnecting reason now) ;;
  softRemove userId DEFAULT_GRACE_MS.

End Runtime.

(** Every pending removal has its timer armed. *)
Definition removals_armed (sv : Server) : Prop :=
  forall userId timer,
    pendingRemovals (sessions sv) !! userId = Some timer ->
    armed (timers sv) !! timer = Some userId.

(** No timer is armed for the user. *)
Definition no_timer_for (userId : string) (sv : Server) : Prop :=
  forall timer, armed (timers sv) !! timer <> Some userId.

End Lifecycle.

(** ** The rest of manager/NotificationManager.ts and runs of captures *)

Module Notifications.
Import Text Users.

(** What [addNotification] stores for [data] received at [now]. *)
Definition stored (arrival : N * str) : StoredNotification :=
  {| n_data := arrival.2; n_timestamp := arrival.1 |}.

(** [addNotifications]: every call of [addNotification] reads the clock;
    [arrivals] pairs each notification with that reading. *)
Fixpoint addNotifications (arrivals : list (N * str))
         (ns : list StoredNotification) : list StoredNotification :=
  match arrivals with
  | (now, data) :: rest => addNotifications rest (addNotification now data ns)
  | [] => ns
  end.

Definition hasNotifications (now : N) (ns : list StoredNotification) : bool :=
  existsb (is_recent now) ns.

Definition cleanupOld (now : N) (ns : list StoredNotification)
  : list StoredNotification :=
  filter (fun n => is_recent now n = true) ns.

Definition clear (ns : list StoredNotification) : list StoredNotification :=
  [].

(** The notifications that are recent at [now], oldest first. *)
Definition recent (now : N) (ns : list StoredNotification)
  : list StoredNotification :=
  filter (fun n => is_recent now n = true) ns.

(** [a.slice(-limit)] for an integer [limit]: the last [limit] elements
    for a positive limit, the whole array for 0 (as [-0] is 0), and for a
    negative limit [a.slice(|limit|)], the array without its first
    [|limit|] elements. *)
Definition slice_back {A} (limit : Z) (l : list A) : list A :=
  if bool_decide (0 < limit)%Z
  then drop (length l - Z.to_nat limit) l
  else drop (Z.to_nat (- limit)) l.

(** [getRecentNotifications(limit)] for any integer [limit]. *)
Definition getRecentNotificationsInt (now : N) (limit : Z)
           (ns : list StoredNotification) : list str :=
  map n_data (slice_back limit (filter (fun n => is_recent now n = true) ns)).

(** [formatForPrompt(limit)] for any integer [limit]; [stringify] stands
    for [JSON.stringify(recent, null, 2)], which may throw ([None]). *)
Definition formatForPromptInt (stringify : list str -> option str)
           (now : N) (limit : Z) (ns : list StoredNotification) : str :=
  let recent := getRecentNotificationsInt now limit ns in
  match recent with
  | [] => txt "No recent notifications."
  | _ =>
      match stringify recent with
      | Some json => txt "Recent notifications:" ++ ["010"%char] ++ json
      | None => txt "Unable to format notifications."
      end
  end.

End Notifications.

Module Captures.
Import Text Photo.

(** What [takePhoto] stores for a photo of the camera. *)
Definition stored_of (userId : string) (photo : PhotoData) : StoredPhoto :=
  {| requestId := pd_requestId photo; buffer := pd_buffer photo;
     timestamp := pd_timestamp photo; userId := userId;
     mimeType := pd_mimeType photo; filename := pd_filename photo;
     size := pd_size photo |}.

End Captures.

(** ** Runs of the query pipeline *)

Module PipelineRuns.
Import Text Users Effects Pipeline.

(** The context object that step 4 of [processQuery] builds from the
    session and the state of the user at that point. *)
Definition agent_context (w : World) (session : AppSession) (u : User)
  : AgentContext :=
  {| ctx_hasDisplay := capability hasDisplay false session;
     ctx_hasSpeakers := capability hasSpeaker true session;
     ctx_hasCamera := capability hasCamera false session;
     ctx_location := cachedContext (location u);
     ctx_localTime := getLocalTime w u;
     ctx_timezone := cached_timezone u;
     ctx_notifications :=
       formatForPrompt (stringify w) (now w) (notifications u);
     ctx_conversationHistory := getRecentTurns None (chatHistory u) |}.

(** The argument of [generateResponse] in step 5. *)
Definition agent_options (w : World) (q : str) (session : AppSession)
           (photos : list Photo.bytes) (u : User) : GenerateOptions :=
  {| go_query := q;
     go_photos := match photos with [] => None | _ => Some photos end;
     go_context := agent_context w session u |}.

(** The calls of [outputResponse] with a session. *)
Definition output_effects (text : str) (hasSpeakers hasDisplay : bool)
  : list Effect :=
  (if hasDisplay then [ShowTextWall text 10000] else [])
    ++ (if hasSpeakers then [Speak text] else []).

(** The call of [takePhoto] in step 1, with a session. *)
Definition capture (w : World) (u : User)
  : option Photo.StoredPhoto * Photo.PhotoManager * list (nat * Photo.Payload) :=
  Photo.takePhoto (previousPhotosToKeep w) (photoWritable w) (userId u) true
    (requestPhoto w) (photo u).

(** The photos that step 1 collects for the agent. *)
Definition collected (w : World) (hasCamera : bool) (u : User)
  : list Photo.bytes :=
  if hasCamera then
    match (capture w u).1.1 with
    | Some _ => Photo.getPhotosForContext (capture w u).1.2
    | None => []
    end
  else [].

(** The call that plays the processing sound. *)
Definition is_sound_effect (e : Effect) : bool :=
  match e with PlayAudio _ => true | _ => false end.

(** The calls of step 1: the request to the camera and the writes to the
    photo streams. *)
Definition is_photo_effect (e : Effect) : bool :=
  match e with RequestPhoto | PhotoWrite _ _ => true | _ => false end.

(** The calls of step 2. *)
Definition is_location_effect (e : Effect) : bool :=
  match e with
  | GetLatestLocation | FetchContext _ => true
  | _ => false
  end.

(** The calls of step 7. *)
Definition is_output_effect (e : Effect) : bool :=
  match e with ShowTextWall _ _ | Speak _ => true | _ => false end.

End PipelineRuns.

(** ** A scenario in which every step of the pipeline has work to do *)

Module BusyScenario.
Import Text Users.

(** A world with a processing sound, a camera that delivers, a location
    and an agent that answers. *)
Definition busy_world : Pipeline.World :=
  {| Pipeline.PROCESSING_SOUND_URL := Some (txt "https://cdn.example/wait.mp3");
     Pipeline.previousPhotosToKeep := 2;
     Pipeline.requestPhoto := Some Scenarios.man_shot;
     Pipeline.photoWritable := fun _ => true;
     Pipeline.getLatestLocation := Some (Some (37, -122)%Z);
     Pipeline.fetchContextIfNeeded := fun _ l => Some l;
     Pipeline.toLocaleTimeString := fun _ => Some (txt "12:00 PM");
     Pipeline.defaultTimeString := txt "12:00 PM";
     Pipeline.stringify := fun _ => None;
     Pipeline.generateResponse := fun _ => Some (txt "You are at home.");
     Pipeline.formatForTTS := fun s => s;
     Pipeline.now := 1000 |}.

(** The session of glasses with camera, display and speakers. *)
Definition full_session : AppSession :=
  {| sessionRef := 1;
     capabilities := Some {| hasCamera := Some true; hasDisplay := Some true;
                             hasSpeaker := Some true |} |}.

(** A user with such glasses, no history, and one open photo stream. *)
Definition full_user : User :=
  set_photo Scenarios.watched_manager
    (set_appSession (Some full_session) (new_user "u1")).

End BusyScenario.

(* ===================================================================== *)
(** * Part II: properties                                                 *)
(* ===================================================================== *)

Import Text Regex WakeWord Stated.

(** ** Characters *)

Ltac each_char c := destruct c as [[] [] [] [] [] [] [] []].

Lemma isWhitespace_toLowerChar c :
  isWhitespace (toLowerChar c) = isWhitespace c.
Proof. each_char c; reflexivity. Qed.

Lemma same_letter_not_space c x :
  same_letter c x -> isWhitespace c = false -> isWhitespace x = false.
Proof.
  unfold same_letter. intros <- H. by rewrite isWhitespace_toLowerChar in H.
Qed.

Lemma lead_punct_whitespace c : isWhitespace c = true -> lead_punct c = true.
Proof. unfold lead_punct. intros ->. by rewrite orb_true_r. Qed.

Lemma toLowerCase_app s1 s2 :
  toLowerCase (s1 ++ s2) = toLowerCase s1 ++ toLowerCase s2.
Proof. apply map_app. Qed.

Lemma toLowerCase_length s : length (toLowerCase s) = length s.
Proof. apply length_map. Qed.

Lemma toLowerCase_gap gap :
  Forall (fun g => isWhitespace g = true) gap ->
  Forall (fun g => isWhitespace g = true) (toLowerCase gap).
Proof.
  induction 1 as [|g gap Hg _ IH]; constructor; [|done].
  by rewrite isWhitespace_toLowerChar.
Qed.

(** ** Trimming *)

Lemma trimStart_gap gap s :
  Forall (fun g => isWhitespace g = true) gap ->
  trimStart (gap ++ s) = trimStart s.
Proof. induction 1 as [|g gap Hg _ IH]; simpl; [done|]. by rewrite Hg. Qed.

Lemma trimStart_keep c s :
  isWhitespace c = false -> trimStart (c :: s) = c :: s.
Proof. simpl. by intros ->. Qed.

Lemma trimEnd_cons_keep c s :
  isWhitespace c = false -> trimEnd (c :: s) = c :: trimEnd s.
Proof. simpl. intros ->. by destruct (trimEnd s). Qed.

Lemma trimEnd_keep a c b :
  isWhitespace c = false -> trimEnd (a ++ c :: b) = a ++ c :: trimEnd b.
Proof.
  intros Hc. induction a as [|x a IH]; simpl app.
  - by apply trimEnd_cons_keep.
  - change (trimEnd (x :: a ++ c :: b))
      with (match trimEnd (a ++ c :: b) with
            | [] => if isWhitespace x then [] else [x]
            | r => x :: r
            end).
    rewrite IH. by destruct a.
Qed.

Lemma trimEnd_idemp s : trimEnd (trimEnd s) = trimEnd s.
Proof.
  induction s as [|c s IH]; [done|].
  simpl. destruct (trimEnd s) as [|y r] eqn:E.
  - destruct (isWhitespace c) eqn:Hc; [done|]. simpl. by rewrite Hc.
  - change (trimEnd (c :: y :: r))
      with (match trimEnd (y :: r) with
            | [] => if isWhitespace c then [] else [c]
            | r' => c :: r'
            end).
    by rewrite IH.
Qed.

Lemma trimEnd_head c s :
  isWhitespace c = false -> trimStart (trimEnd (c :: s)) = trimEnd (c :: s).
Proof.
  intros Hc. rewrite trimEnd_cons_keep by done. by apply trimStart_keep.
Qed.

Lemma skip_while_whitespace_free s :
  trimStart (skip_while lead_punct s) = skip_while lead_punct s.
Proof.
  induction s as [|c s IH]; [done|]. simpl.
  destruct (lead_punct c) eqn:Hc; [done|].
  apply trimStart_keep.
  destruct (isWhitespace c) eqn:Hw; [|done].
  apply lead_punct_whitespace in Hw. congruence.
Qed.

Lemma skip_while_trimEnd s :
  skip_while lead_punct (trimEnd s) = trimEnd (skip_while lead_punct s).
Proof.
  induction s as [|c s IH]; [done|].
  destruct (lead_punct c) eqn:Hc.
  - cbn [skip_while]. rewrite Hc, <- IH.
    simpl. destruct (trimEnd s) as [|y r].
    + destruct (isWhitespace c); simpl; [done|]. by rewrite Hc.
    + cbn [skip_while]. by rewrite Hc.
  - assert (isWhitespace c = false) as Hw.
    { destruct (isWhitespace c) eqn:Hw; [|done].
      apply lead_punct_whitespace in Hw. congruence. }
    cbn [skip_while]. rewrite Hc, trimEnd_cons_keep by done.
    cbn [skip_while]. by rewrite Hc.
Qed.

Lemma trim_skip_while s :
  trim (skip_while lead_punct s) = trimEnd (skip_while lead_punct s).
Proof. unfold trim. by rewrite skip_while_whitespace_free. Qed.

(** Trimmed text stays trimmed. *)
Lemma trim_trimEnd_skip s :
  trim (trimEnd (skip_while lead_punct s)) = trimEnd (skip_while lead_punct s).
Proof.
  rewrite <- skip_while_trimEnd. rewrite trim_skip_while.
  rewrite skip_while_trimEnd. apply trimEnd_idemp.
Qed.

(** ** The matcher *)

Lemma star_k_Some p s : star_k p s Some = Some (skip_while p s).
Proof.
  induction s as [|c s IH]; [done|]. simpl.
  destruct (p c); [|done]. by rewrite IH.
Qed.

Lemma strip_lead_skip s : strip_lead s = skip_while lead_punct s.
Proof.
  unfold strip_lead, replace_prefix, match_here. destruct s as [|c s]; [done|].
  simpl. destruct (lead_punct c); [|done]. by rewrite star_k_Some.
Qed.

(** A whitespace gap before a character outside the class is consumed
    whole by the greedy star whenever the rest of the pattern then
    succeeds. *)
Lemma star_k_gap p gap c s k x :
  Forall (fun g => p g = true) gap -> p c = false ->
  k (c :: s) = Some x ->
  star_k p (gap ++ c :: s) k = Some x.
Proof.
  intros Hgap Hc Hk. induction Hgap as [|g gap Hg _ IH]; simpl.
  - by rewrite Hc.
  - by rewrite Hg, IH.
Qed.

Lemma search_from_here ic r s i rest :
  match_here ic r s = Some rest ->
  search_from ic r s i = Some (i, length s - length rest).
Proof. intros H. destruct s; simpl; by rewrite H. Qed.

Lemma run_lit f t k :
  run true (lit f) t k =
  match strip_lit f t with Some rest => k rest | None => None end.
Proof.
  revert t. induction f as [|c f IH]; intros t; [done|].
  destruct t as [|x t]; [done|]. simpl.
  destruct (canonicalize x =? canonicalize c)%N; [apply IH|done].
Qed.

(** ** Wake-phrase variants *)

(** Every variant lower-cases to the letters of the phrase separated by
    whitespace gaps, and keeps its length. *)
Lemma wake_variant_shape W :
  wake_variant W ->
  exists g1 g2 g3 g4 g5 g6 g7 g8 : str,
    toLowerCase W =
      "h"%char :: g1 ++ "e"%char :: g2 ++ "y"%char :: g3 ++
      "m"%char :: g4 ++ "e"%char :: g5 ++ "n"%char :: g6 ++
      "t"%char :: g7 ++ "r"%char :: g8 ++ ["a"%char] /\
    g3 <> [] /\
    is_gap g1 /\ is_gap g2 /\ is_gap g3 /\ is_gap g4 /\ is_gap g5 /\
    is_gap g6 /\ is_gap g7 /\ is_gap g8.
Proof.
  intros (w1 & gap & w2 & H1 & Hne & Hgap & H2 & ->).
  repeat match goal with
  | H : spelled _ _ |- _ => inversion H; clear H; subst
  | H : [] <> [] |- _ => done
  | H : same_letter _ _ |- _ => unfold same_letter in H
  end.
  repeat match goal with
  | H : Forall _ ?l |- _ =>
      is_var l; apply toLowerCase_gap in H
  end.
  eexists _, _, _, _, _, _, _, _. split.
  - repeat (rewrite ?toLowerCase_app; cbn [toLowerCase map app]).
    repeat match goal with H : toLowerChar _ = _ |- _ => rewrite H; clear H end.
    repeat (rewrite <- ?app_assoc; cbn [app]).
    reflexivity.
  - split; [by destruct gap|]. unfold is_gap. repeat split; assumption.
Qed.

Lemma wake_variant_head W :
  wake_variant W -> exists x w, W = x :: w /\ isWhitespace x = false.
Proof.
  intros (w1 & gap & w2 & H1 & _ & _ & _ & ->).
  inversion H1; subst; eexists _, _; (split; [reflexivity|]);
    by eapply same_letter_not_space.
Qed.

Lemma wake_pattern_unfold :
  wake_pattern (txt "hey mentra") =
  Cat (Chr "h") (Cat (Star isWhitespace)
 (Cat (Chr "e") (Cat (Star isWhitespace)
 (Cat (Chr "y")
 (Cat (Plus isWhitespace)
 (Cat (Chr "m") (Cat (Star isWhitespace)
 (Cat (Chr "e") (Cat (Star isWhitespace)
 (Cat (Chr "n") (Cat (Star isWhitespace)
 (Cat (Chr "t") (Cat (Star isWhitespace)
 (Cat (Chr "r") (Cat (Star isWhitespace)
 (Cat (Chr "a") Eps)))))))))))))))).
Proof. reflexivity. Qed.

Ltac gap_step :=
  first
    [ apply star_k_gap; [assumption|reflexivity|cbn [run]]
    | progress cbn [run app Pos.eqb N.eqb canonicalize] ].

(** The pattern matches a variant at the start of any text, and the match
    is exactly the variant. *)
Lemma wake_pattern_matches W r :
  wake_variant W ->
  match_here true (wake_pattern (txt "hey mentra")) (toLowerCase W ++ r)
  = Some r.
Proof.
  intros HW.
  destruct (wake_variant_shape W HW)
    as (g1 & g2 & g3 & g4 & g5 & g6 & g7 & g8 & -> & N3 & G1 & G2 & G3 & G4
        & G5 & G6 & G7 & G8).
  rewrite wake_pattern_unfold. unfold match_here.
  repeat (rewrite <- ?app_assoc; cbn [app]).
  destruct g3 as [|g g3]; [done|]. inversion G3 as [|? ? Hg G3']; subst.
  repeat first
    [ apply star_k_gap; [assumption|reflexivity|]
    | progress cbn [run app]
    | rewrite Hg
    | match goal with
      | |- context [(canonicalize ?c =? canonicalize ?c)%N] =>
          change (canonicalize c =? canonicalize c)%N with true; cbn iota
      end ].
  reflexivity.
Qed.

Lemma wake_variant_ends W :
  wake_variant W -> exists body, toLowerCase W = "h"%char :: body ++ ["a"%char].
Proof.
  intros HW.
  destruct (wake_variant_shape W HW)
    as (g1 & g2 & g3 & g4 & g5 & g6 & g7 & g8 & -> & _).
  exists (g1 ++ "e"%char :: g2 ++ "y"%char :: g3 ++
          "m"%char :: g4 ++ "e"%char :: g5 ++ "n"%char :: g6 ++
          "t"%char :: g7 ++ "r"%char :: g8).
  repeat (rewrite <- ?app_assoc; cbn [app]). reflexivity.
Qed.

(** The text that the matcher sees: the variant in lower case, then the
    rest without its trailing whitespace. *)
Lemma lowerText_variant pre W rest :
  is_gap pre -> wake_variant W ->
  trim (toLowerCase (pre ++ W ++ rest))
  = toLowerCase W ++ trimEnd (toLowerCase rest).
Proof.
  intros Hpre HW. unfold trim.
  rewrite !toLowerCase_app, trimStart_gap by by apply toLowerCase_gap.
  destruct (wake_variant_ends W HW) as [body ->].
  cbn [app]. rewrite trimStart_keep by done.
  rewrite <- app_assoc. cbn [app].
  change ("h"%char :: body ++ "a"%char :: toLowerCase rest)
    with (("h"%char :: body) ++ "a"%char :: toLowerCase rest).
  rewrite trimEnd_keep by done.
  cbn [app]. by rewrite <- app_assoc.
Qed.

(** [detectWakeWord] on a variant preceded by whitespace: the match is
    found at index 0 of the trimmed text and has the length of the
    variant, and this many characters are cut off the original text. *)
Lemma detectWakeWord_variant pre W rest :
  is_gap pre -> wake_variant W ->
  detectWakeWord (pre ++ W ++ rest) =
  {| detected := true;
     query := tidy (drop (length W) (pre ++ W ++ rest));
     wakeWordUsed := Some (txt "hey mentra") |}.
Proof.
  intros Hpre HW. unfold detectWakeWord.
  rewrite lowerText_variant by done.
  change (zip WAKE_PATTERNS WAKE_WORDS)
    with [(wake_pattern (txt "hey mentra"), txt "hey mentra")].
  cbn [detect_loop]. unfold search.
  erewrite search_from_here by by apply wake_pattern_matches.
  rewrite length_app, toLowerCase_length.
  replace (length W + length (trimEnd (toLowerCase rest))
           - length (trimEnd (toLowerCase rest))) with (length W) by lia.
  reflexivity.
Qed.

Lemma tidy_gap gap s : is_gap gap -> tidy (gap ++ s) = tidy s.
Proof. intros H. unfold tidy, trim. by rewrite trimStart_gap. Qed.

(** After the separator [", "] the tail is the query without leading
    punctuation and without surrounding whitespace. *)
Lemma tidy_separator Q : tidy (txt ", " ++ Q) = trim (strip_lead Q).
Proof.
  unfold tidy. rewrite !strip_lead_skip.
  change (txt ", " ++ Q) with (","%char :: " "%char :: Q).
  unfold trim at 2. rewrite trimStart_keep by done.
  rewrite trimEnd_cons_keep by done.
  change (skip_while lead_punct ("," :: trimEnd (" " :: Q))%char)
    with (skip_while lead_punct (trimEnd (" "%char :: Q))).
  rewrite skip_while_trimEnd.
  change (skip_while lead_punct (" "%char :: Q))
    with (skip_while lead_punct Q).
  rewrite trim_trimEnd_skip. by rewrite trim_skip_while.
Qed.

(** ** Wake-word residue *)

Lemma fragment_suffixes_eq : fragment_suffixes = mentra_fragments.
Proof. reflexivity. Qed.

Lemma fragment_letter_ci c x :
  fragment_letter c ->
  (canonicalize x =? canonicalize c)%N = true -> toLowerChar x = c.
Proof.
  unfold fragment_letter. intros Hc H.
  repeat (apply elem_of_cons in Hc as [->|Hc]);
    [each_char x; first [discriminate H | reflexivity] ..|].
  by apply elem_of_nil in Hc.
Qed.

Lemma strip_lit_spec f t rest :
  Forall fragment_letter f -> strip_lit f t = Some rest ->
  toLowerCase (take (length f) t) = f /\ drop (length f) t = rest.
Proof.
  intros Hf. revert t. induction Hf as [|c f Hc _ IH]; intros t H.
  - destruct t; simpl in *; split; congruence.
  - destruct t as [|x t]; [done|]. simpl in H.
    destruct (canonicalize x =? canonicalize c)%N eqn:E; [|done].
    destruct (IH t H) as [H1 H2]. simpl. split; [|done].
    f_equal; [|done]. by apply fragment_letter_ci.
Qed.

Lemma mentra_fragments_letters f :
  f ∈ mentra_fragments -> Forall fragment_letter f.
Proof.
  unfold mentra_fragments. cbn [map txt list_ascii_of_string].
  intros Hf. repeat (apply elem_of_cons in Hf as [->|Hf]);
    [repeat constructor; unfold fragment_letter; set_solver ..|].
  by apply elem_of_nil in Hf.
Qed.

Lemma fragment_alternative_fails f t :
  f ∈ mentra_fragments -> fragment_at f t = false ->
  match strip_lit f t with Some rest => after_fragment rest | None => None end
  = None.
Proof.
  intros Hf Hat. destruct (strip_lit f t) as [rest|] eqn:E; [|done].
  apply strip_lit_spec in E as [H1 H2]; [|by apply mentra_fragments_letters].
  unfold fragment_at in Hat. rewrite H2 in Hat.
  destruct rest as [|c rest]; [done|].
  rewrite bool_decide_eq_true_2 in Hat by done. simpl in Hat.
  unfold after_fragment. cbn [run]. by rewrite Hat.
Qed.

Lemma no_fragment_no_match t :
  begins_with_fragment t = false ->
  match_here true WAKE_WORD_TRAILING_FRAGMENTS t = None.
Proof.
  intros H. unfold WAKE_WORD_TRAILING_FRAGMENTS, match_here.
  rewrite fragment_suffixes_eq.
  assert (forall f, f ∈ mentra_fragments -> fragment_at f t = false) as Hall.
  { intros f Hf. destruct (fragment_at f t) eqn:E; [|done].
    unfold begins_with_fragment in H.
    assert (existsb (fun f => fragment_at f t) mentra_fragments = true)
      as Hex; [|congruence].
    apply existsb_exists. exists f. split; [|done].
    by apply list_elem_of_In. }
  unfold mentra_fragments in *. cbn [map alts run].
  change (fun s' => run true (Cat (Plus frag_punct) (Star isWhitespace)) s' Some)
    with after_fragment.
  rewrite !run_lit.
  rewrite !fragment_alternative_fails; try done; try apply Hall;
    unfold mentra_fragments; cbn [map];
    repeat first [apply list_elem_of_here | apply list_elem_of_further].
Qed.

(** ** Wake-word detection: the stated properties *)

Lemma canonical_wake_variant : wake_variant (txt "hey mentra").
Proof.
  exists (txt "hey"), (txt " "), (txt "mentra").
  repeat split; try done; [| by repeat constructor |];
    repeat first [ by apply spelled_last
                 | apply (spelled_more _ _ _ []); [done|constructor|done|] ].
Qed.

Lemma split_wake_variant : wake_variant (txt "Hey  Mentr a").
Proof.
  exists (txt "Hey"), (txt "  "), (txt "Mentr a").
  repeat split; try done; [| by repeat constructor |].
  - repeat first [ by apply spelled_last
                 | apply (spelled_more _ _ _ []); [done|constructor|done|] ].
  - do 4 (apply (spelled_more _ _ _ []); [done|constructor|done|]).
    apply (spelled_more _ _ _ [" "%char]); [done|by repeat constructor|done|].
    by apply spelled_last.
Qed.

(** C5, as amended: for every query text [Q] and every whitespace variant
    [W] of the wake phrase "hey mentra" (any letter case, optional
    whitespace between the letters of a word, one or more whitespace
    characters between the words, so also "hey mentr a"), [detectWakeWord]
    applied to [W], then ", ", then [Q] reports a detection, and the
    returned query is [Q] without its leading [[,.\s]+] punctuation and
    without surrounding whitespace. *)
Theorem detectWakeWord_variant_query W Q :
  wake_variant W ->
  detectWakeWord (W ++ txt ", " ++ Q) =
  {| detected := true;
     query := trim (strip_lead Q);
     wakeWordUsed := Some (txt "hey mentra") |}.
Proof.
  intros HW.
  pose proof (detectWakeWord_variant [] W (txt ", " ++ Q)) as H.
  cbn [app] in H. rewrite H by (done || constructor).
  by rewrite drop_app_length, tidy_separator.
Qed.

Lemma detectWakeWord_variant_query_witness :
  detectWakeWord (txt "Hey  Mentr a" ++ txt ", " ++ txt "what time is it? ") =
  {| detected := true;
     query := trim (strip_lead (txt "what time is it? "));
     wakeWordUsed := Some (txt "hey mentra") |}.
Proof.
  apply (detectWakeWord_variant_query (txt "Hey  Mentr a")
           (txt "what time is it? ")).
  exact split_wake_variant.
Defined.

(** C5, as stated, fails: a query text that ends in whitespace does not
    come back as it is after the leading-punctuation strip, because the
    detector also trims it. *)
Lemma detectWakeWord_trims_the_query :
  wake_variant (txt "hey mentra") /\
  strip_lead (txt "hi ") = txt "hi " /\
  query (detectWakeWord (txt "hey mentra" ++ txt ", " ++ txt "hi ")) = txt "hi" /\
  query (detectWakeWord (txt "hey mentra" ++ txt ", " ++ txt "hi "))
  <> strip_lead (txt "hi ").
Proof.
  split; [exact canonical_wake_variant|]. by vm_compute.
Qed.

(** C9, as amended: on every text that does not begin with a 1-to-5
    character suffix of "mentra" (in any letter case) followed by a
    character of [[,.!?;:]], [stripWakeWordResidue] only trims: the result
    is the text without its surrounding whitespace, so the stripper is the
    identity on such a text when it has no surrounding whitespace. *)
Theorem stripWakeWordResidue_without_fragment t :
  begins_with_fragment t = false ->
  stripWakeWordResidue t = trim t /\
  (trim t = t -> stripWakeWordResidue t = t).
Proof.
  intros H. assert (stripWakeWordResidue t = trim t) as E.
  { unfold stripWakeWordResidue, replace_prefix.
    by rewrite no_fragment_no_match. }
  split; [done|]. intros Ht. by rewrite E.
Qed.

Lemma stripWakeWordResidue_without_fragment_witness :
  stripWakeWordResidue (txt "are you there ") = trim (txt "are you there ") /\
  (trim (txt "are you there ") = txt "are you there " ->
   stripWakeWordResidue (txt "are you there ") = txt "are you there ").
Proof.
  apply (stripWakeWordResidue_without_fragment (txt "are you there ")).
  reflexivity.
Defined.

(** C9, as stated, fails: a text with leading whitespace and no fragment
    is changed. *)
Lemma stripWakeWordResidue_not_identity :
  begins_with_fragment (txt " hi") = false /\
  stripWakeWordResidue (txt " hi") = txt "hi" /\
  stripWakeWordResidue (txt " hi") <> txt " hi".
Proof. by vm_compute. Qed.

(** The pattern ignores letter case: an upper-case fragment is residue. *)
Example stripWakeWordResidue_upper_case :
  stripWakeWordResidue (txt "A, how much is the ticket")
  = txt "how much is the ticket".
Proof. reflexivity. Qed.

(** A successful search decides the result. *)
Lemma detectWakeWord_found text i len :
  search true (wake_pattern (txt "hey mentra")) (trim (toLowerCase text))
  = Some (i, len) ->
  detectWakeWord text =
  {| detected := true;
     query := tidy (drop (i + len) text);
     wakeWordUsed := Some (txt "hey mentra") |}.
Proof.
  intros H. unfold detectWakeWord.
  change (zip WAKE_PATTERNS WAKE_WORDS)
    with [(wake_pattern (txt "hey mentra"), txt "hey mentra")].
  cbn [detect_loop]. by rewrite H.
Qed.

Lemma search_from_bound ic r s i0 i len :
  search_from ic r s i0 = Some (i, len) -> i - i0 + len <= length s.
Proof.
  revert i0. induction s as [|c s IH]; intros i0; simpl.
  - destruct (match_here ic r []); [|done]. intros [= <- <-]. simpl. lia.
  - destruct (match_here ic r (c :: s)) as [rest|].
    + intros [= <- <-]. simpl. lia.
    + intros H. specialize (IH _ H).
      assert (S i0 <= i); [|lia].
      clear IH. revert H. generalize (S i0) as j. clear.
      induction s as [|c s IH]; intros j; simpl.
      * destruct (match_here ic r []); [|done]. intros [= <- _]. lia.
      * destruct (match_here ic r (c :: s)).
        -- intros [= <- _]. lia.
        -- intros H. apply IH in H. lia.
Qed.

Lemma trimStart_length s : length (trimStart s) <= length s.
Proof.
  induction s as [|c s IH]; simpl; [lia|].
  destruct (isWhitespace c); simpl; lia.
Qed.

Lemma trimEnd_length s : length (trimEnd s) <= length s.
Proof.
  induction s as [|c s IH]; simpl; [lia|].
  destruct (trimEnd s); [destruct (isWhitespace c)|]; simpl in *; lia.
Qed.

Lemma search_trim_bound body i len :
  search true (wake_pattern (txt "hey mentra")) (trim (toLowerCase body))
  = Some (i, len) ->
  i + len <= length body.
Proof.
  intros H. apply search_from_bound in H.
  pose proof (trimEnd_length (trimStart (toLowerCase body))).
  pose proof (trimStart_length (toLowerCase body)).
  rewrite toLowerCase_length in *. unfold trim in H. lia.
Qed.

(** Cutting [k] characters off a text that has [n] whitespace characters
    in front leaves, up to the clean-up of the tail, the last [n] of the
    first [k] characters and what follows them. *)
Lemma tidy_drop_shifted ws body k :
  is_gap ws -> k <= length body ->
  tidy (drop k (ws ++ body))
  = tidy (final_chars (length ws) (take k body) ++ drop k body).
Proof.
  intros Hws Hk. unfold final_chars.
  destruct (decide (length ws <= k)) as [Hle|Hgt].
  - rewrite drop_app_ge by done.
    rewrite length_take. replace (k `min` length body) with k by lia.
    by rewrite drop_take_drop by lia.
  - rewrite drop_app_le by lia.
    replace (length (take k body) - length ws) with 0
      by (rewrite length_take; lia).
    rewrite tidy_gap by by apply Forall_drop.
    by rewrite drop_0, take_drop.
Qed.

(** The last [n <= len] of the first [i + len] characters are the last
    [n] characters of the region [i .. i + len). *)
Lemma final_chars_region body i len n :
  n <= len -> i + len <= length body ->
  final_chars n (take (i + len) body) = final_chars n (take len (drop i body)).
Proof.
  intros Hn Hb. unfold final_chars.
  rewrite !length_take, length_drop.
  replace ((i + len) `min` length body) with (i + len) by lia.
  replace (len `min` (length body - i)) with len by lia.
  rewrite take_drop_commute, drop_drop. f_equal. lia.
Qed.

Lemma tidy_kept c s :
  lead_punct c = false -> tidy (c :: s) = trimEnd (c :: s).
Proof.
  intros Hc.
  assert (isWhitespace c = false) as Hw.
  { unfold lead_punct in Hc. by apply orb_false_elim in Hc as [_ ?]. }
  unfold tidy, trim. rewrite trimStart_keep, trimEnd_cons_keep by done.
  rewrite strip_lead_skip. simpl. rewrite Hc.
  rewrite trimStart_keep, trimEnd_cons_keep by done.
  by rewrite trimEnd_idemp.
Qed.

(** C10, as amended: [detectWakeWord] is not invariant under leading
    whitespace. The match is located in the trimmed lower-case text and
    the tail is cut from the untrimmed original. So for every input made
    of [n >= 1] whitespace characters [ws] and a text [body] (not starting
    with whitespace) in which the wake phrase is matched, at index [i]
    with length [len], the query is what the tidying of the tail (trim,
    removal of leading commas, periods and whitespace, trim) leaves of the
    final [n] characters of the text up to the end of the match, which for
    [n <= len] are the final [n] characters of the matched region,
    followed by what comes after the match. These characters are retained
    as they are only when the first of them is no comma, period or
    whitespace; otherwise the leading ones are removed. The trimmed input
    gives the query computed from what comes after the match alone; and
    there is a text whose query differs from the query of its trimmed
    form. Texts are sequences of characters below U+0100, for which
    lower-casing keeps the length. *)
Theorem detectWakeWord_leading_whitespace :
  (forall ws body i len,
     ws <> [] -> is_gap ws -> trimStart body = body ->
     search true (wake_pattern (txt "hey mentra")) (trim (toLowerCase body))
       = Some (i, len) ->
     detectWakeWord (ws ++ body) =
       {| detected := true;
          query := tidy (final_chars (length ws) (take (i + len) body)
                           ++ drop (i + len) body);
          wakeWordUsed := Some (txt "hey mentra") |} /\
     (length ws <= len ->
      final_chars (length ws) (take (i + len) body)
      = final_chars (length ws) (take len (drop i body))) /\
     (forall c s,
        final_chars (length ws) (take (i + len) body) ++ drop (i + len) body
        = c :: s ->
        lead_punct c = false ->
        query (detectWakeWord (ws ++ body)) = trimEnd (c :: s)) /\
     detectWakeWord body =
       {| detected := true;
          query := tidy (drop (i + len) body);
          wakeWordUsed := Some (txt "hey mentra") |}) /\
  (exists t,
     query (detectWakeWord t) <> query (detectWakeWord (trim t))).
Proof.
  split.
  - intros ws body i len _ Hws _ Hfound.
    assert (detectWakeWord (ws ++ body) =
            {| detected := true;
               query := tidy (final_chars (length ws) (take (i + len) body)
                                ++ drop (i + len) body);
               wakeWordUsed := Some (txt "hey mentra") |}) as Hq.
    { rewrite (detectWakeWord_found (ws ++ body) i len).
      * rewrite tidy_drop_shifted; [done|done|].
        by apply search_trim_bound.
      * unfold trim in *. rewrite toLowerCase_app.
        rewrite trimStart_gap by by apply toLowerCase_gap. done. }
    split; [exact Hq|]. split; [|split].
    + intros Hn. apply final_chars_region; [done|].
      by apply search_trim_bound.
    + intros c s Hcs Hc. rewrite Hq. cbn [query]. rewrite Hcs.
      by apply tidy_kept.
    + by apply detectWakeWord_found.
  - exists (txt "  hey mentra what time is it"). by vm_compute.
Qed.

Lemma detectWakeWord_leading_whitespace_witness :
  detectWakeWord (txt "  " ++ txt "say Hey Mentra what time is it") =
    {| detected := true;
       query := tidy (final_chars 2
                        (take (4 + 10) (txt "say Hey Mentra what time is it"))
                        ++ drop (4 + 10) (txt "say Hey Mentra what time is it"));
       wakeWordUsed := Some (txt "hey mentra") |} /\
  query (detectWakeWord (txt "  " ++ txt "say Hey Mentra what time is it"))
  = trimEnd (txt "ra what time is it").
Proof.
  destruct (proj1 detectWakeWord_leading_whitespace
              (txt "  ") (txt "say Hey Mentra what time is it") 4 10)
    as (H1 & _ & H3 & _).
  - discriminate.
  - by repeat constructor.
  - reflexivity.
  - reflexivity.
  - split; [exact H1|]. apply (H3 "r"%char (txt "a what time is it")).
    + reflexivity.
    + reflexivity.
Defined.

(** C10, as stated, fails: the query does not always retain the final [n]
    characters of the matched region. With two leading spaces before
    "hey mentr a go" the region is "hey mentr a", its final two characters
    are " a", and the query is "a go"; with seven leading spaces before
    "hey mentra what" the final seven characters are " mentra" and the
    query is "mentra what". *)
Lemma detectWakeWord_retained_characters_stripped :
  search true (wake_pattern (txt "hey mentra"))
    (trim (toLowerCase (txt "hey mentr a go"))) = Some (0, 11) /\
  final_chars 2 (take 11 (txt "hey mentr a go")) = txt " a" /\
  query (detectWakeWord (txt "  " ++ txt "hey mentr a go")) = txt "a go" /\
  startsWith (txt " a")
    (query (detectWakeWord (txt "  " ++ txt "hey mentr a go"))) = false /\
  search true (wake_pattern (txt "hey mentra"))
    (trim (toLowerCase (txt "hey mentra what"))) = Some (0, 10) /\
  final_chars 7 (take 10 (txt "hey mentra what")) = txt " mentra" /\
  query (detectWakeWord (txt "       " ++ txt "hey mentra what"))
  = txt "mentra what" /\
  startsWith (txt " mentra")
    (query (detectWakeWord (txt "       " ++ txt "hey mentra what"))) = false.
Proof. by vm_compute. Qed.

Lemma tidy_leading_whitespace ws W rest :
  is_gap ws ->
  tidy (drop (length W) (ws ++ W ++ rest))
  = tidy (final_chars (length ws) W ++ rest).
Proof.
  intros Hws. unfold final_chars.
  destruct (decide (length ws <= length W)) as [Hle|Hgt].
  - rewrite drop_app_ge by done. by rewrite drop_app_le by lia.
  - rewrite drop_app_le by lia.
    replace (length W - length ws) with 0 by lia.
    rewrite tidy_gap; [done|]. by apply Forall_drop.
Qed.

(** When the variant comes right after the whitespace, the query is
    computed from its final characters and the rest, however long the
    whitespace is. *)
Lemma detectWakeWord_whitespace_variant ws W rest :
  is_gap ws -> wake_variant W ->
  detectWakeWord (ws ++ W ++ rest) =
  {| detected := true;
     query := tidy (final_chars (length ws) W ++ rest);
     wakeWordUsed := Some (txt "hey mentra") |}.
Proof.
  intros Hws HW. rewrite detectWakeWord_variant by done.
  by rewrite tidy_leading_whitespace.
Qed.

(** The retained characters show in the query. *)
Example detectWakeWord_leading_whitespace_example :
  query (detectWakeWord (txt "  hey mentra what time is it"))
  = txt "ra what time is it" /\
  query (detectWakeWord (trim (txt "  hey mentra what time is it")))
  = txt "what time is it".
Proof. by vm_compute. Qed.

(** ** Location classifier *)

Import LocationQuery.

(** C4, as amended: with [q] compared in lower case, a query that contains
    a weather keyword and neither " in " nor " at " is a location query
    that needs no geocoding; and a query that contains a location keyword
    needs geocoding unless it is such a preposition-free weather query. *)
Theorem needsGeocoding_classes :
  (forall q,
     some_included WEATHER_KEYWORDS (toLowerCase q) = true ->
     includes (toLowerCase q) (txt " in ") = false ->
     includes (toLowerCase q) (txt " at ") = false ->
     isLocationQuery q = true /\ needsGeocoding q = false) /\
  (forall q,
     some_included LOCATION_KEYWORDS (toLowerCase q) = true ->
     some_included WEATHER_KEYWORDS (toLowerCase q) = false \/
     includes (toLowerCase q) (txt " in ") = true \/
     includes (toLowerCase q) (txt " at ") = true ->
     needsGeocoding q = true).
Proof.
  split.
  - intros q Hw Hin Hat. unfold isLocationQuery, needsGeocoding.
    rewrite Hw, Hin, Hat. split; [|done].
    by destruct (some_included LOCATION_KEYWORDS (toLowerCase q)).
  - intros q Hl Hcase. unfold needsGeocoding. rewrite Hl.
    destruct Hcase as [->|[->| ->]]; [done|..];
      by rewrite ?andb_false_r.
Qed.

Lemma needsGeocoding_classes_witness :
  (isLocationQuery (txt "What's the Weather like") = true /\
   needsGeocoding (txt "What's the Weather like") = false) /\
  needsGeocoding (txt "weather at my location") = true.
Proof.
  split.
  - apply (proj1 needsGeocoding_classes (txt "What's the Weather like"));
      reflexivity.
  - apply (proj2 needsGeocoding_classes (txt "weather at my location"));
      [reflexivity|]. right; right; reflexivity.
Defined.

(** C4, as stated, fails in its second half: a preposition-free weather
    query that contains a location keyword needs no geocoding. *)
Lemma needsGeocoding_weather_near_me :
  some_included LOCATION_KEYWORDS (txt "weather near me") = true /\
  includes (txt "weather near me") (txt "near me") = true /\
  needsGeocoding (txt "weather near me") = false.
Proof. by vm_compute. Qed.

(** ** Chat stream *)

Import Users Chat.

Lemma getRecentTurns_nil n h :
  0 < n -> getRecentTurns (Some n) h = [] <-> h = [].
Proof.
  intros Hn. unfold getRecentTurns. split; [|by intros ->].
  intros H. apply (f_equal length) in H. rewrite length_drop in H.
  destruct h; [done|]. simpl in H. lia.
Qed.

Lemma history_replay_nil users now uid rcp :
  history_replay users now uid rcp = [] <->
  (forall u, users !! uid = Some u ->
             getRecentTurns (Some 30) (chatHistory u) = []).
Proof.
  unfold history_replay. destruct (users !! uid) as [u|]; [|done].
  destruct (getRecentTurns (Some 30) (chatHistory u)) as [|t ts] eqn:E.
  - split; [|done]. intros _ u' [= <-]. exact E.
  - split; [done|]. intros H. specialize (H u eq_refl).
    rewrite E in H. done.
Qed.

(** C1, as amended: a chat stream that opens for a user is sent, in this
    order, [connected], then one history event whenever the user exists
    and has a recent turn, whatever the pending queue holds, then the
    queued events in their order, then a heartbeat; the queue is empty
    afterwards. No history event is replayed exactly when the user is
    unknown or has no recent turn. *)
Theorem chatStream_subscribe users now uid rcp stream b :
  uid <> ""%string ->
  let r := chatStream users now (Some uid) rcp stream b in
  let recipient := default "mentra-ai"%string (truthy rcp) in
  stream_lines r =
    [Connected] ++ history_replay users now uid recipient
      ++ queued uid b ++ [SessionHeartbeat (is_active users uid) now]
  /\ queued uid (stream_bus r b) = []
  /\ (history_replay users now uid recipient = [] <->
      forall u, users !! uid = Some u ->
                getRecentTurns (Some 30) (chatHistory u) = [])
  /\ (forall u t ts,
        users !! uid = Some u ->
        getRecentTurns (Some 30) (chatHistory u) = t :: ts ->
        history_replay users now uid recipient =
          [History (history_messages now uid recipient (t :: ts))]).
Proof.
  intros Hne r recipient. split; [|split; [|split]].
  - subst r. unfold chatStream, queued. simpl.
    rewrite bool_decide_eq_false_2 by done. simpl.
    by destruct (pendingEvents b !! uid) as [[|e q]|].
  - subst r. unfold chatStream, queued. simpl.
    rewrite bool_decide_eq_false_2 by done. simpl.
    destruct (pendingEvents b !! uid) as [[|e q]|] eqn:E; simpl.
    + by rewrite E.
    + by rewrite lookup_delete_eq.
    + by rewrite E.
  - apply history_replay_nil.
  - intros u t ts Hu Ht. unfold history_replay. by rewrite Hu, Ht.
Qed.

Lemma chatStream_subscribe_witness :
  let r := chatStream Scenarios.late_users 2000 (Some "u1"%string) None 5
                      Scenarios.late_bus in
  let recipient := default "mentra-ai"%string (truthy None) in
  stream_lines r =
    [Connected] ++ history_replay Scenarios.late_users 2000 "u1" recipient
      ++ queued "u1" Scenarios.late_bus
      ++ [SessionHeartbeat (is_active Scenarios.late_users "u1") 2000]
  /\ queued "u1" (stream_bus r Scenarios.late_bus) = []
  /\ (history_replay Scenarios.late_users 2000 "u1" recipient = [] <->
      forall u, Scenarios.late_users !! "u1"%string = Some u ->
                getRecentTurns (Some 30) (chatHistory u) = [])
  /\ (forall u t ts,
        Scenarios.late_users !! "u1"%string = Some u ->
        getRecentTurns (Some 30) (chatHistory u) = t :: ts ->
        history_replay Scenarios.late_users 2000 "u1" recipient =
          [History (history_messages 2000 "u1" recipient (t :: ts))]).
Proof.
  apply (chatStream_subscribe Scenarios.late_users 2000 "u1" None 5
                              Scenarios.late_bus).
  discriminate.
Defined.

(** C1, as stated, fails: with a queued event and a stored turn, the new
    stream is sent the history and the queued event. *)
Lemma chatStream_history_and_flush :
  queued "u1" Scenarios.late_bus = [SessionStarted "camera" 900] /\
  stream_lines (chatStream Scenarios.late_users 2000 (Some "u1"%string) None 5
                           Scenarios.late_bus) =
    [ Connected;
      History
        [ {| hm_id := (2000%N, 0); hm_senderId := "u1";
             hm_recipientId := "mentra-ai";
             hm_content := txt "what time is it";
             hm_timestamp := 1000; hm_image := None |};
          {| hm_id := (2000%N, 1); hm_senderId := "mentra-ai";
             hm_recipientId := "u1";
             hm_content := txt "It is noon.";
             hm_timestamp := 1000; hm_image := None |} ];
      SessionStarted "camera" 900;
      SessionHeartbeat true 2000 ] /\
  existsb is_history
    (stream_lines (chatStream Scenarios.late_users 2000 (Some "u1"%string)
                              None 5 Scenarios.late_bus)) = true.
Proof. by vm_compute. Qed.

(** ** Photo manager *)

Import Photo.

(** *** The base64 text holds the bytes *)

Lemma b64_char_value_nat n :
  n < 64 ->
  b64_value (nth n b64_alphabet pad) = Some (N.of_nat n) /\
  nth n b64_alphabet pad <> pad.
Proof.
  intros Hn.
  assert (forallb (fun n =>
            bool_decide (b64_value (nth n b64_alphabet pad) = Some (N.of_nat n))
            && negb (bool_decide (nth n b64_alphabet pad = pad)))
          (seq 0 64) = true) as Hall.
  { by vm_compute. }
  rewrite forallb_forall in Hall.
  specialize (Hall n). rewrite in_seq in Hall.
  assert (0 <= n < 0 + 64) as Hin by lia.
  apply Hall in Hin. apply andb_prop in Hin as [H1 H2].
  apply bool_decide_eq_true in H1. apply negb_true_iff in H2.
  apply bool_decide_eq_false in H2. done.
Qed.

Lemma b64_char_value s :
  (s < 64)%N -> b64_value (b64_char s) = Some s /\ b64_char s <> pad.
Proof.
  intros Hs. unfold b64_char.
  destruct (b64_char_value_nat (N.to_nat s)) as [H1 H2]; [lia|].
  by rewrite N2Nat.id in H1.
Qed.

Ltac Zify.zify_post_hook ::= Z.to_euclidean_division_equations.

Lemma div_join_16 a b : (b < 16 -> (a * 16 + b) / 16 = a)%N.
Proof. lia. Qed.
Lemma mod_join_16 a b : (b < 16 -> (a * 16 + b) mod 16 = b)%N.
Proof. lia. Qed.
Lemma div_join_4 a b : (b < 4 -> (a * 4 + b) / 4 = a)%N.
Proof. lia. Qed.
Lemma mod_join_4 a b : (b < 4 -> (a * 4 + b) mod 4 = b)%N.
Proof. lia. Qed.
Lemma split_4 x : (x / 4 * 4 + x mod 4 = x /\ x mod 4 < 4)%N.
Proof. lia. Qed.
Lemma split_16 x : (x / 16 * 16 + x mod 16 = x /\ x mod 16 < 16)%N.
Proof. lia. Qed.
Lemma split_64 x : (x / 64 * 64 + x mod 64 = x /\ x mod 64 < 64)%N.
Proof. lia. Qed.
Lemma byte_parts x : (x <= 255 -> x / 4 < 64 /\ x / 16 < 16 /\ x / 64 < 4)%N.
Proof. lia. Qed.

Ltac Zify.zify_post_hook ::= idtac.

Lemma sextets_bounds x y z :
  (x <= 255 -> y <= 255 -> z <= 255 ->
   x / 4 < 64 /\ (x mod 4) * 16 + y / 16 < 64 /\
   (y mod 16) * 4 + z / 64 < 64 /\ z mod 64 < 64 /\
   (x mod 4) * 16 < 64 /\ (y mod 16) * 4 < 64)%N.
Proof.
  intros Hx Hy Hz.
  destruct (byte_parts x Hx) as (? & _ & _).
  destruct (byte_parts y Hy) as (_ & ? & _).
  destruct (byte_parts z Hz) as (_ & _ & ?).
  destruct (split_4 x) as [_ ?]. destruct (split_16 y) as [_ ?].
  destruct (split_64 z) as [_ ?].
  repeat split; lia.
Qed.

Lemma sextets_join x y z :
  (x <= 255 -> y <= 255 -> z <= 255 ->
   x / 4 * 4 + ((x mod 4) * 16 + y / 16) / 16 = x /\
   (((x mod 4) * 16 + y / 16) mod 16) * 16 + ((y mod 16) * 4 + z / 64) / 4 = y /\
   (((y mod 16) * 4 + z / 64) mod 4) * 64 + z mod 64 = z)%N.
Proof.
  intros Hx Hy Hz.
  destruct (byte_parts y Hy) as (_ & Hy16 & _).
  destruct (byte_parts z Hz) as (_ & _ & Hz64).
  rewrite div_join_16, mod_join_16, div_join_4, mod_join_4 by done.
  destruct (split_4 x) as [? _]. destruct (split_16 y) as [? _].
  destruct (split_64 z) as [? _]. done.
Qed.

Ltac b64_read s :=
  let H1 := fresh in let H2 := fresh in
  destruct (b64_char_value s) as [H1 H2]; [assumption|];
  rewrite ?H1; rewrite ?(bool_decide_eq_false_2 _ H2); clear H1 H2.

Lemma base64_roundtrip_upto n b :
  length b <= n -> b64_decode (base64 b) = Some b.
Proof.
  revert b. induction n as [|n IH]; intros b Hlen.
  { destruct b; [done|simpl in Hlen; lia]. }
  destruct b as [|bx [|by_ [|bz rest]]]; [done|..].
  - pose proof (to_N_bounded bx) as Hx.
    destruct (sextets_bounds (to_N bx) 0 0) as (B1 & B2 & _); [lia..|].
    destruct (sextets_join (to_N bx) 0 0) as (J1 & _); [lia..|].
    change (0 / 16)%N with 0%N in *. rewrite N.add_0_r in *.
    cbn [base64 b64_decode]. b64_read (to_N bx / 4)%N.
    b64_read ((to_N bx mod 4) * 16)%N. cbn [mbind option_bind].
    rewrite J1, of_to_N. cbn [mbind option_bind].
    by rewrite !bool_decide_eq_true_2.
  - pose proof (to_N_bounded bx) as Hx. pose proof (to_N_bounded by_) as Hy.
    destruct (sextets_bounds (to_N bx) (to_N by_) 0) as (B1 & B2 & B3 & _);
      [lia..|].
    destruct (sextets_join (to_N bx) (to_N by_) 0) as (J1 & J2 & _); [lia..|].
    change (0 / 64)%N with 0%N in *. rewrite N.add_0_r in *.
    cbn [base64 b64_decode]. b64_read (to_N bx / 4)%N.
    b64_read ((to_N bx mod 4) * 16 + to_N by_ / 16)%N.
    cbn [mbind option_bind]. rewrite J1, of_to_N. cbn [mbind option_bind].
    b64_read ((to_N by_ mod 16) * 4)%N.
    cbn [mbind option_bind]. rewrite J2, of_to_N. cbn [mbind option_bind].
    by rewrite !bool_decide_eq_true_2.
  - pose proof (to_N_bounded bx) as Hx. pose proof (to_N_bounded by_) as Hy.
    pose proof (to_N_bounded bz) as Hz.
    destruct (sextets_bounds (to_N bx) (to_N by_) (to_N bz))
      as (B1 & B2 & B3 & B4 & _); [lia..|].
    destruct (sextets_join (to_N bx) (to_N by_) (to_N bz)) as (J1 & J2 & J3);
      [lia..|].
    cbn [base64 b64_decode]. b64_read (to_N bx / 4)%N.
    b64_read ((to_N bx mod 4) * 16 + to_N by_ / 16)%N.
    cbn [mbind option_bind]. rewrite J1, of_to_N. cbn [mbind option_bind].
    b64_read ((to_N by_ mod 16) * 4 + to_N bz / 64)%N.
    cbn [mbind option_bind]. rewrite J2, of_to_N. cbn [mbind option_bind].
    b64_read (to_N bz mod 64)%N.
    cbn [mbind option_bind]. rewrite J3, of_to_N. cbn [mbind option_bind].
    rewrite IH by (simpl in Hlen; lia). reflexivity.
Qed.

(** The base64 text of a buffer reads back as the buffer. *)
Lemma base64_roundtrip b : b64_decode (base64 b) = Some b.
Proof. by apply (base64_roundtrip_upto (length b)). Qed.

Lemma takePhoto_success keep writable uid pd pm :
  let stored := {|
    requestId := pd_requestId pd; buffer := pd_buffer pd;
    timestamp := pd_timestamp pd; userId := uid;
    mimeType := pd_mimeType pd; filename := pd_filename pd;
    size := pd_size pd |} in
  takePhoto keep writable uid true (Some pd) pm =
  (Some stored,
   {| photos := <[pd_requestId pd := stored]> (photos pm);
      sseClients := filter (fun c => writable (pc_conn c)) (sseClients pm);
      currentPhoto := Some stored;
      previousPhotos := previousPhotos (rotatePhotos keep stored pm) |},
   map (fun c => (pc_conn c, photo_payload stored))
       (filter (fun c => writable (pc_conn c)) (sseClients pm))).
Proof. reflexivity. Qed.

(** C3, as amended: for every successfully captured photo, the event that
    the photo manager writes to each writable photo stream has the fields
    requestId, timestamp, mimeType, filename, size and userId, and two
    more, [base64] and [dataUrl], which both hold the base64 encoding of
    the photo's bytes, from which the bytes can be read back. *)
Theorem broadcastPhoto_carries_bytes keep writable uid pd pm :
  exists stored pm',
    takePhoto keep writable uid true (Some pd) pm =
      (Some stored, pm',
       map (fun c => (pc_conn c, photo_payload stored))
           (filter (fun c => writable (pc_conn c)) (sseClients pm))) /\
    buffer stored = pd_buffer pd /\
    payload_keys (photo_payload stored) =
      ["requestId"; "timestamp"; "mimeType"; "filename"; "size"; "userId";
       "base64"; "dataUrl"]%string /\
    payload_field "base64" (photo_payload stored)
      = Some (JStr (base64 (pd_buffer pd))) /\
    payload_field "dataUrl" (photo_payload stored)
      = Some (JStr (txt "data:" ++ pd_mimeType pd ++ txt ";base64,"
                      ++ base64 (pd_buffer pd))) /\
    b64_decode (base64 (pd_buffer pd)) = Some (pd_buffer pd).
Proof.
  eexists _, _. split; [apply takePhoto_success|].
  repeat split. apply base64_roundtrip.
Qed.

(** C3, as stated, fails: the event written for a three-byte photo has a
    field outside the metadata fields, with the bytes in base64. *)
Lemma broadcastPhoto_sends_base64 :
  let r := takePhoto 2 (fun _ => true) "u1" true (Some Scenarios.man_shot)
                     Scenarios.watched_manager in
  exists stored,
    r.1.1 = Some stored /\
    r.2 = [(7, photo_payload stored)] /\
    payload_field "base64" (photo_payload stored) = Some (JStr (txt "TWFu")) /\
    payload_field "dataUrl" (photo_payload stored)
      = Some (JStr (txt "data:image/jpeg;base64,TWFu")) /\
    ~ payload_keys (photo_payload stored) ⊆ metadata_keys.
Proof.
  eexists. split; [reflexivity|]. split; [reflexivity|].
  split; [reflexivity|]. split; [reflexivity|].
  intros H. specialize (H "base64"%string).
  assert ("base64"%string ∈ metadata_keys) as Hin.
  { apply H. vm_compute. repeat first [apply list_elem_of_here | apply list_elem_of_further]. }
  unfold metadata_keys in Hin.
  repeat (apply elem_of_cons in Hin as [Hin|Hin]; [discriminate Hin|]).
  by apply elem_of_nil in Hin.
Qed.

Lemma capture_all_snoc keep writable uid shots pd pm :
  capture_all keep writable uid (shots ++ [pd]) pm =
  (takePhoto keep writable uid true (Some pd)
             (capture_all keep writable uid shots pm)).1.2.
Proof. unfold capture_all. by rewrite foldl_app. Qed.

Lemma capture_all_photos keep writable uid shots pm :
  photos (capture_all keep writable uid shots pm) =
  foldl (fun m pd =>
           <[pd_requestId pd :=
               {| requestId := pd_requestId pd; buffer := pd_buffer pd;
                  timestamp := pd_timestamp pd; userId := uid;
                  mimeType := pd_mimeType pd; filename := pd_filename pd;
                  size := pd_size pd |}]> m)
        (photos pm) shots.
Proof.
  revert pm. induction shots as [|pd shots IH]; intros pm; [done|].
  unfold capture_all in *. cbn [foldl]. rewrite IH.
  by rewrite takePhoto_success.
Qed.

Lemma capture_all_dom keep writable uid shots pm :
  dom (photos (capture_all keep writable uid shots pm)) =
  dom (photos pm) ∪ list_to_set (map pd_requestId shots).
Proof.
  rewrite capture_all_photos. generalize (photos pm) as m.
  induction shots as [|pd shots IH]; intros m; cbn [foldl map list_to_set].
  - by rewrite union_empty_r_L.
  - rewrite IH, dom_insert_L. apply set_eq. intros x.
    rewrite !elem_of_union. tauto.
Qed.

Lemma capture_all_size keep writable uid shots pm :
  NoDup (map pd_requestId shots) ->
  (forall pd, pd ∈ shots -> photos pm !! pd_requestId pd = None) ->
  base.size (photos (capture_all keep writable uid shots pm)) =
  base.size (photos pm) + length shots.
Proof.
  rewrite capture_all_photos. generalize (photos pm) as m.
  induction shots as [|pd shots IH]; intros m Hnd Hfresh;
    cbn [foldl map length] in *; [lia|].
  apply NoDup_cons in Hnd as [Hpd Hnd].
  rewrite IH; [| done |].
  - rewrite map_size_insert_None; [lia|]. apply Hfresh. left.
  - intros pd' Hin. rewrite lookup_insert_ne.
    + apply Hfresh. by right.
    + intros Heq. apply Hpd. rewrite Heq. by apply list_elem_of_fmap_2.
Qed.

(** C6, as amended: the per-user request-id lookup map has no cap. After
    any sequence of successful captures every captured request id is
    retrievable through the lookup operation, the retrievable ids are the
    earlier ones and the captured ones, and captures with pairwise
    distinct, new request ids add one retrievable photo each. *)
Theorem photos_map_grows keep writable uid shots pm :
  let pm' := capture_all keep writable uid shots pm in
  (forall pd, pd ∈ shots -> is_Some (getPhoto (pd_requestId pd) pm')) /\
  dom (photos pm') = dom (photos pm) ∪ list_to_set (map pd_requestId shots) /\
  (NoDup (map pd_requestId shots) ->
   (forall pd, pd ∈ shots -> photos pm !! pd_requestId pd = None) ->
   base.size (photos pm') = base.size (photos pm) + length shots).
Proof.
  intros pm'. split; [|split].
  - intros pd Hin. unfold getPhoto. apply elem_of_dom.
    subst pm'. rewrite capture_all_dom. apply elem_of_union_r.
    apply elem_of_list_to_set. by apply list_elem_of_fmap_2.
  - apply capture_all_dom.
  - apply capture_all_size.
Qed.

Lemma nine_ids_NoDup : NoDup (map pd_requestId Scenarios.nine_shots).
Proof. apply (bool_decide_unpack _). by vm_compute. Qed.

Lemma photos_map_grows_witness :
  base.size (photos (capture_all 2 (fun _ => true) "u1" Scenarios.nine_shots
                            empty_manager))
  = base.size (photos empty_manager) + length Scenarios.nine_shots.
Proof.
  apply (proj2 (proj2 (photos_map_grows 2 (fun _ => true) "u1"
                         Scenarios.nine_shots empty_manager))).
  - exact nine_ids_NoDup.
  - intros pd _. apply lookup_empty.
Defined.

(** C6, as stated, fails: after nine captures with distinct request ids,
    nine photos are retrievable by request id. *)
Lemma photos_map_holds_nine :
  let pm := capture_all 2 (fun _ => true) "u1" Scenarios.nine_shots
                        empty_manager in
  length Scenarios.nine_ids = 9 /\
  NoDup Scenarios.nine_ids /\
  forallb (fun id => bool_decide (is_Some (getPhoto id pm)))
          Scenarios.nine_ids = true /\
  base.size (photos pm) = 9.
Proof.
  split; [reflexivity|]. split; [apply (bool_decide_unpack _); by vm_compute|].
  split; by vm_compute.
Qed.

(** ** Session manager *)

Import Effects Sessions.

(** The state that [softRemove] leaves for a known user. *)
Lemma softRemove_known uid grace sv u :
  users (sessions sv) !! uid = Some u ->
  final (softRemove uid grace sv) =
  {| sessions :=
       {| users := <[uid := clearAppSession u]> (users (sessions sv));
          pendingRemovals :=
            <[uid := nextTimer (timers sv)]> (pendingRemovals (sessions sv)) |};
     timers :=
       {| armed :=
            <[nextTimer (timers sv) := uid]>
              (match pendingRemovals (sessions sv) !! uid with
               | Some existing => delete existing (armed (timers sv))
               | None => armed (timers sv)
               end);
          nextTimer := S (nextTimer (timers sv)) |};
     bus := bus sv |}.
Proof.
  intros Hu. unfold softRemove, bind, get, final. simpl. rewrite Hu.
  by destruct (pendingRemovals (sessions sv) !! uid).
Qed.

(** The grace-period callback for a user who is still registered and has
    no entry left in [pendingRemovals]. *)
Lemma grace_expired_known writable now uid sv u :
  users (sessions sv) !! uid = Some u ->
  let ended := SessionEnded (txt "grace period expired") now in
  let sent := broadcastChatEvent writable uid ended (bus sv) in
  grace_expired writable now uid sv =
  (tt,
   {| sessions :=
        {| users := delete uid (users (sessions sv));
           pendingRemovals := delete uid (pendingRemovals (sessions sv)) |};
      timers := timers sv;
      bus := clearPendingEvents uid sent.1 |},
   [ChatBroadcast uid ended]
     ++ map (fun w => ChatWrite w.1 w.2) sent.2
     ++ [ClearPending uid; UserCleanup uid; UserDelete uid]).
Proof.
  intros Hu ended sent.
  unfold grace_expired, remove, broadcast, clearPending, bind, get, put,
    modify, emit, emits, ret.
  fold ended. cbn [bus set_pendingRemovals]. fold sent.
  destruct sent as [b written]. cbn.
  rewrite lookup_delete_eq. cbn. rewrite Hu. reflexivity.
Qed.

(** The states that the operations of the registry leave. *)

Lemma remove_final uid sv :
  final (remove uid sv) =
  {| sessions :=
       {| users := delete uid (users (sessions sv));
          pendingRemovals := delete uid (pendingRemovals (sessions sv)) |};
     timers :=
       {| armed :=
            match pendingRemovals (sessions sv) !! uid with
            | Some existing => delete existing (armed (timers sv))
            | None => armed (timers sv)
            end;
          nextTimer := nextTimer (timers sv) |};
     bus := bus sv |}.
Proof.
  unfold remove, clearTimeout, bind, get, modify, emit, ret, final.
  destruct sv as [[us pr] [ar nx] b]. cbn.
  destruct (pr !! uid) as [t|] eqn:Ht; cbn;
    destruct (us !! uid) as [u|] eqn:Hu; cbn;
    rewrite ?(delete_id us), ?(delete_id pr) by done; reflexivity.
Qed.

Lemma cancelRemoval_final uid sv :
  final (cancelRemoval uid sv) =
  {| sessions :=
       {| users := users (sessions sv);
          pendingRemovals := delete uid (pendingRemovals (sessions sv)) |};
     timers :=
       {| armed :=
            match pendingRemovals (sessions sv) !! uid with
            | Some existing => delete existing (armed (timers sv))
            | None => armed (timers sv)
            end;
          nextTimer := nextTimer (timers sv) |};
     bus := bus sv |}.
Proof.
  unfold cancelRemoval, clearTimeout, bind, get, modify, emit, ret, final.
  destruct sv as [[us pr] [ar nx] b]. cbn.
  destruct (pr !! uid) as [t|] eqn:Ht; cbn;
    rewrite ?(delete_id pr) by done; reflexivity.
Qed.

Lemma getOrCreate_final uid sv :
  final (getOrCreate uid sv) =
  set_users (fun us => match us !! uid with
                       | Some _ => us
                       | None => <[uid := new_user uid]> us
                       end) sv.
Proof.
  unfold getOrCreate, bind, get, modify, ret, final, set_users.
  destruct sv as [[us pr] [ar nx] b]. cbn.
  by destruct (us !! uid).
Qed.

Lemma softRemove_unknown uid grace sv :
  users (sessions sv) !! uid = None -> final (softRemove uid grace sv) = sv.
Proof.
  intros Hu. unfold softRemove, bind, get, ret, final. cbn. by rewrite Hu.
Qed.

Lemma fire_unarmed writable now timer sv :
  armed (timers sv) !! timer = None ->
  fire writable now timer sv = (tt, sv, []).
Proof. intros H. unfold fire, bind, get, ret. cbn. by rewrite H. Qed.

Lemma fire_armed writable now timer uid sv :
  armed (timers sv) !! timer = Some uid ->
  fire writable now timer sv =
  grace_expired writable now uid
    (set_timers {| armed := delete timer (armed (timers sv));
                   nextTimer := nextTimer (timers sv) |} sv).
Proof.
  intros H. unfold fire, bind, get, put. rewrite H.
  destruct (grace_expired writable now uid _) as [[[] s] l] eqn:E.
  reflexivity.
Qed.

(** *** The timers stay consistent with the registry *)

Lemma consistent_forget uid us' b' sv :
  timers_consistent sv ->
  (forall uid', uid' <> uid -> is_Some (users (sessions sv) !! uid') ->
                is_Some (us' !! uid')) ->
  timers_consistent
    {| sessions :=
         {| users := us';
            pendingRemovals := delete uid (pendingRemovals (sessions sv)) |};
       timers :=
         {| armed :=
              match pendingRemovals (sessions sv) !! uid with
              | Some existing => delete existing (armed (timers sv))
              | None => armed (timers sv)
              end;
            nextTimer := nextTimer (timers sv) |};
       bus := b' |}.
Proof.
  intros [Hc Hn] Hus. split; cbn.
  - intros t' uid' Harm.
    assert (armed (timers sv) !! t' = Some uid') as Hold.
    { destruct (pendingRemovals (sessions sv) !! uid); [|done].
      by apply lookup_delete_Some in Harm as [_ ?]. }
    destruct (Hc _ _ Hold) as [Hpr Hu].
    assert (uid' <> uid) as Hne.
    { intros ->. rewrite Hpr in Harm. by rewrite lookup_delete_eq in Harm. }
    split; [by rewrite lookup_delete_ne|by apply Hus].
  - intros t' [uid' Harm]. apply Hn.
    destruct (pendingRemovals (sessions sv) !! uid); [|by eexists].
    apply lookup_delete_Some in Harm as [_ ?]. by eexists.
Qed.

Lemma consistent_arm uid sv :
  timers_consistent sv ->
  pendingRemovals (sessions sv) !! uid = None ->
  is_Some (users (sessions sv) !! uid) ->
  timers_consistent
    {| sessions :=
         {| users := users (sessions sv);
            pendingRemovals :=
              <[uid := nextTimer (timers sv)]> (pendingRemovals (sessions sv)) |};
       timers :=
         {| armed := <[nextTimer (timers sv) := uid]> (armed (timers sv));
            nextTimer := S (nextTimer (timers sv)) |};
       bus := bus sv |}.
Proof.
  intros [Hc Hn] Hnone Hu. split; cbn.
  - intros t' uid' Harm.
    apply lookup_insert_Some in Harm as [[<- <-]|[Hne Hold]].
    + by rewrite lookup_insert_eq.
    + destruct (Hc _ _ Hold) as [Hpr Hu'].
      assert (uid' <> uid) by (intros ->; congruence).
      by rewrite lookup_insert_ne.
  - intros t' [uid' Harm].
    apply lookup_insert_Some in Harm as [[<- <-]|[Hne Hold]]; [lia|].
    assert (t' < nextTimer (timers sv)); [|lia]. apply Hn. by eexists.
Qed.

Lemma softRemove_consistent uid grace sv :
  timers_consistent sv -> timers_consistent (final (softRemove uid grace sv)).
Proof.
  intros Hsv. destruct (users (sessions sv) !! uid) as [u|] eqn:Hu.
  - rewrite (softRemove_known uid grace sv u Hu).
    pose proof (consistent_forget uid
                  (<[uid := clearAppSession u]> (users (sessions sv)))
                  (bus sv) sv Hsv) as Hforget.
    apply (consistent_arm uid) in Hforget; cbn in *.
    + by rewrite insert_delete_eq in Hforget.
    + intros uid' Hne Hsome. by rewrite lookup_insert_ne.
    + apply lookup_delete_eq.
    + rewrite lookup_insert_eq. by eexists.
  - by rewrite softRemove_unknown.
Qed.

Lemma fire_consistent writable now timer sv :
  timers_consistent sv ->
  timers_consistent (final (fire writable now timer sv)).
Proof.
  intros Hsv. destruct (armed (timers sv) !! timer) as [uid|] eqn:Harm.
  - destruct (proj1 Hsv _ _ Harm) as [Hpr [u Hu]].
    rewrite (fire_armed writable now timer uid sv Harm).
    rewrite (grace_expired_known writable now uid _ u) by exact Hu.
    unfold final. cbn.
    pose proof (consistent_forget uid (delete uid (users (sessions sv)))
                  (clearPendingEvents uid
                     (broadcastChatEvent writable uid
                        (SessionEnded (txt "grace period expired") now)
                        (bus sv)).1)
                  sv Hsv) as Hforget.
    rewrite Hpr in Hforget. apply Hforget.
    intros uid' Hne Hsome. by rewrite lookup_delete_ne.
  - by rewrite fire_unarmed.
Qed.

Lemma server_step_consistent sv sv' :
  server_step sv sv' -> timers_consistent sv -> timers_consistent sv'.
Proof.
  intros Hstep Hsv. destruct Hstep as [uid sv|uid sv|uid grace sv|uid sv
                                      |writable now timer sv|b sv|uid u sv Hu].
  - rewrite getOrCreate_final. destruct Hsv as [Hc Hn]. split; [|done].
    intros t' uid' Harm. destruct (Hc _ _ Harm) as [Hpr Hu]. split; [done|].
    cbn. destruct (users (sessions sv) !! uid) eqn:E; [done|].
    destruct (decide (uid = uid')) as [->|Hne].
    + rewrite lookup_insert_eq. by eexists.
    + by rewrite lookup_insert_ne.
  - rewrite remove_final. apply consistent_forget; [done|].
    intros uid' Hne Hsome. by rewrite lookup_delete_ne.
  - by apply softRemove_consistent.
  - rewrite cancelRemoval_final. by apply consistent_forget.
  - by apply fire_consistent.
  - done.
  - destruct Hsv as [Hc Hn]. split; [|done].
    intros t' uid' Harm. destruct (Hc _ _ Harm) as [Hpr Hu']. split; [done|].
    cbn. destruct (decide (uid = uid')) as [->|Hne].
    + rewrite lookup_insert_eq. by eexists.
    + by rewrite lookup_insert_ne.
Qed.

Lemma reachable_consistent sv : reachable sv -> timers_consistent sv.
Proof.
  unfold reachable. intros H.
  eapply (rtc_ind_r (fun sv => timers_consistent sv)); [| |exact H].
  - split; cbn; [intros t uid Ht|intros t [uid Ht]];
      by rewrite lookup_empty in Ht.
  - intros sv1 sv2 _ Hstep IH. by eapply server_step_consistent.
Qed.

Lemma watched_server_reachable : reachable Scenarios.watched_server.
Proof.
  unfold reachable.
  eapply rtc_l; [apply (step_getOrCreate "u1")|].
  eapply rtc_l;
    [apply (step_user "u1" Scenarios.late_user); eexists; by vm_compute|].
  eapply rtc_l; [apply (step_bus (bus Scenarios.watched_server))|].
  apply rtc_refl.
Qed.

(** C7: [softRemove] for a registered user arms a grace-period timer, and
    when that timer fires, in whatever state the server is by then, the
    registry performs, in this order: the broadcast of a [session_ended]
    event on the chat topic (written to the open streams of the user, or
    queued), the clearing of the user's pending event queue, then the
    removal of the user (teardown, then deletion of the entry of the
    registry map). Afterwards the user has no queue, no registry entry and
    no pending removal. *)
Theorem grace_timer_order writable now uid grace sv u later :
  reachable sv ->
  users (sessions sv) !! uid = Some u ->
  let armed_server := final (softRemove uid grace sv) in
  let timer := nextTimer (timers sv) in
  let ended := SessionEnded (txt "grace period expired") now in
  let fired := fire writable now timer later in
  (pendingRemovals (sessions armed_server) !! uid = Some timer /\
   armed (timers armed_server) !! timer = Some uid) /\
  (rtc server_step armed_server later ->
   armed (timers later) !! timer = Some uid ->
   effects fired =
     [ChatBroadcast uid ended]
       ++ map (fun w => ChatWrite w.1 w.2)
              (broadcastChatEvent writable uid ended (bus later)).2
       ++ [ClearPending uid; UserCleanup uid; UserDelete uid] /\
   queued uid (bus (final fired)) = [] /\
   users (sessions (final fired)) !! uid = None /\
   pendingRemovals (sessions (final fired)) !! uid = None).
Proof.
  intros Hreach Hu armed_server timer ended fired. split.
  { subst armed_server. rewrite (softRemove_known uid grace sv u Hu). cbn.
    by rewrite !lookup_insert_eq. }
  intros Hlater Harmed.
  assert (timers_consistent later) as Hcons.
  { apply reachable_consistent. unfold reachable.
    etrans; [exact Hreach|]. eapply rtc_l; [|exact Hlater].
    apply step_softRemove. }
  destruct (proj1 Hcons _ _ Harmed) as [_ [u' Hu']].
  subst fired. rewrite (fire_armed writable now timer uid later Harmed).
  rewrite (grace_expired_known writable now uid _ u') by exact Hu'.
  unfold effects, final, queued. cbn.
  split; [done|]. by rewrite !lookup_delete_eq.
Qed.

Lemma grace_timer_order_witness :
  let armed_server := final (softRemove "u1" 60000 Scenarios.watched_server) in
  let ended := SessionEnded (txt "grace period expired") 70000 in
  let fired := fire (fun _ => true) 70000 1 armed_server in
  (pendingRemovals (sessions armed_server) !! "u1"%string = Some 1 /\
   armed (timers armed_server) !! 1 = Some "u1"%string) /\
  (rtc server_step armed_server armed_server ->
   armed (timers armed_server) !! 1 = Some "u1"%string ->
   effects fired =
     [ChatBroadcast "u1" ended]
       ++ map (fun w => ChatWrite w.1 w.2)
              (broadcastChatEvent (fun _ => true) "u1" ended
                                  (bus armed_server)).2
       ++ [ClearPending "u1"; UserCleanup "u1"; UserDelete "u1"] /\
   queued "u1" (bus (final fired)) = [] /\
   users (sessions (final fired)) !! "u1"%string = None /\
   pendingRemovals (sessions (final fired)) !! "u1"%string = None).
Proof.
  apply (grace_timer_order (fun _ => true) 70000 "u1" 60000
           Scenarios.watched_server Scenarios.late_user
           (final (softRemove "u1" 60000 Scenarios.watched_server))).
  - exact watched_server_reachable.
  - reflexivity.
Defined.

(** The run of the witness: the open stream is written the event. *)
Example grace_timer_order_example :
  effects (fire (fun _ => true) 70000 1
             (final (softRemove "u1" 60000 Scenarios.watched_server))) =
  [ ChatBroadcast "u1" (SessionEnded (txt "grace period expired") 70000);
    ChatWrite 5 (SessionEnded (txt "grace period expired") 70000);
    ClearPending "u1"; UserCleanup "u1"; UserDelete "u1" ].
Proof. by vm_compute. Qed.

(** ** Query pipeline *)

Import Pipeline.

Lemma quiet_ret {S A} (a : A) : quiet (ret (S := S) a).
Proof. by intros s. Qed.

Lemma quiet_get {S} : quiet (get (S := S)).
Proof. by intros s. Qed.

Lemma quiet_put {S} (s : S) : quiet (put s).
Proof. by intros s'. Qed.

Lemma quiet_modify {S} (f : S -> S) : quiet (modify f).
Proof. by intros s. Qed.

Lemma quiet_emit {S} e : is_glasses_effect e = true -> quiet (emit (S := S) e).
Proof. intros H s. unfold emit, effects. simpl. by rewrite H. Qed.

Lemma quiet_emits {S} l :
  forallb is_glasses_effect l = true -> quiet (emits (S := S) l).
Proof. by intros H s. Qed.

Lemma quiet_bind {S A B} (m : M S A) (k : A -> M S B) :
  quiet m -> (forall a, quiet (k a)) -> quiet (bind m k).
Proof.
  intros Hm Hk s. unfold bind, effects.
  specialize (Hm s). unfold effects in Hm.
  destruct (m s) as [[a s1] l1]. specialize (Hk a s1). unfold effects in Hk.
  destruct (k a s1) as [[b s2] l2]. simpl in *.
  by rewrite forallb_app, Hm, Hk.
Qed.

Lemma quiet_when {S} c (m : M S unit) : quiet m -> quiet (when c m).
Proof. intros H. destruct c; [done|apply quiet_ret]. Qed.

Ltac quiet_step :=
  first
    [ apply quiet_ret | apply quiet_get | apply quiet_put | apply quiet_modify
    | apply quiet_emit; reflexivity | apply quiet_when
    | apply quiet_bind; [|intros ?] ].

Lemma playProcessingSound_quiet w : quiet (playProcessingSound w).
Proof.
  unfold playProcessingSound. apply quiet_bind; [apply quiet_get|intros u].
  destruct (PROCESSING_SOUND_URL w), (appSession u); repeat quiet_step.
Qed.

Lemma takePhoto_quiet w : quiet (Pipeline.takePhoto w).
Proof.
  unfold Pipeline.takePhoto. apply quiet_bind; [apply quiet_get|intros u].
  destruct (Photo.takePhoto _ _ _ _ _ _) as [[stored pm] written].
  repeat quiet_step. apply quiet_emits.
  induction written as [|x written IH]; [done|]. simpl. by rewrite IH.
Qed.

Lemma fetchLocation_quiet w q : quiet (fetchLocation w q).
Proof.
  unfold fetchLocation. destruct (queryNeedsLocation q); [|apply quiet_ret].
  apply quiet_bind; [by apply quiet_emit|intros _].
  destruct (getLatestLocation w) as [[[lat lng]|]|]; repeat quiet_step.
Qed.

Lemma outputResponse_quiet text sp dp : quiet (outputResponse text sp dp).
Proof.
  unfold outputResponse. apply quiet_bind; [apply quiet_get|intros u].
  destruct (appSession u); repeat quiet_step.
Qed.

Lemma bind_run {S A B} (m : M S A) (k : A -> M S B) s :
  bind m k s =
  let '(a, s1, l1) := m s in
  let '(b, s2, l2) := k a s1 in (b, s2, l1 ++ l2).
Proof. reflexivity. Qed.

Lemma quiet_run {S A} (m : M S A) s a s' l :
  quiet m -> m s = (a, s', l) -> forallb is_glasses_effect l = true.
Proof. intros H E. specialize (H s). by rewrite E in H. Qed.

(** The shape of a run with a connected session: calls into the glasses,
    the call of the agent, the output, and the saving of the turn as the
    last step. *)
Lemma processQuery_connected w q u session :
  appSession u = Some session ->
  exists before options after hadPhoto u',
    let response := default APOLOGY (generateResponse w options) in
    processQuery w q u =
      (response,
       set_chatHistory
         (addTurn (now w) q response hadPhoto (chatHistory u')) u',
       before ++ [Generate options] ++ after
         ++ [AddTurn q response hadPhoto]) /\
    go_query options = q /\
    forallb is_glasses_effect before = true /\
    forallb is_glasses_effect after = true.
Proof.
  intros Hs. unfold processQuery.
  rewrite bind_run. unfold get at 1. cbv beta iota. rewrite Hs.
  rewrite bind_run.
  destruct (playProcessingSound w u) as [[[] u1] l1] eqn:E1.
  apply quiet_run in E1; [|apply playProcessingSound_quiet].
  rewrite bind_run.
  match goal with
  | |- context [(if capability hasCamera false session then ?a else ?b) u1] =>
      set (photoStep := if capability hasCamera false session then a else b)
  end.
  assert (quiet photoStep) as Qphoto.
  { subst photoStep. destruct (capability hasCamera false session);
      [|apply quiet_ret].
    apply quiet_bind; [apply takePhoto_quiet|intros [sp|]];
      repeat quiet_step. }
  destruct (photoStep u1) as [[photos u2] l2] eqn:E2.
  apply quiet_run in E2; [|done].
  rewrite bind_run.
  destruct (fetchLocation w q u2) as [[[] u3] l3] eqn:E3.
  apply quiet_run in E3; [|apply fetchLocation_quiet].
  rewrite bind_run. unfold get at 1. cbv beta iota.
  rewrite bind_run. unfold emit at 1. cbv beta iota.
  rewrite bind_run.
  match goal with
  | |- context [outputResponse ?t ?sp ?dp u3] =>
      destruct (outputResponse t sp dp u3) as [[[] u4] l4] eqn:E4;
      apply quiet_run in E4; [|apply outputResponse_quiet]
  end.
  rewrite bind_run. unfold emit at 1. cbv beta iota.
  rewrite bind_run. unfold modify at 1, ret. cbv beta iota.
  eexists (l1 ++ l2 ++ l3), _, l4, _, u4. cbv zeta.
  split.
  { rewrite ?app_nil_l, ?app_nil_r, <- ?app_assoc. reflexivity. }
  split; [reflexivity|]. split; [|done].
  by rewrite !forallb_app, E1, E2, E3.
Qed.

Lemma glasses_not_chat l :
  forallb is_glasses_effect l = true -> existsb is_chat_effect l = false.
Proof.
  induction l as [|e l IH]; [done|]. simpl. intros [He Hl]%andb_prop.
  rewrite IH by done. by destruct e.
Qed.

Lemma last_addTurn now q r hadPhoto history :
  last (addTurn now q r hadPhoto history) =
  Some {| t_query := q; t_response := r; t_timestamp := now;
          t_hadPhoto := hadPhoto; t_photoDataUrl := None |}.
Proof.
  unfold addTurn, slice_last, HISTORY_CAPACITY.
  rewrite length_app. cbn [length].
  rewrite drop_app_le by lia. apply last_snoc.
Qed.

(** C2, as stated, fails: a run with a connected session calls the agent
    and saves the turn without any event of the chat topic. *)
Lemma processQuery_broadcasts_nothing :
  exists options,
    effects (processQuery Scenarios.calm_world (txt "what time is it")
                          Scenarios.connected_user) =
      [ Generate options;
        Speak (txt "It is noon.");
        AddTurn (txt "what time is it") (txt "It is noon.") false ] /\
    go_query options = txt "what time is it" /\
    existsb is_chat_effect
      (effects (processQuery Scenarios.calm_world (txt "what time is it")
                             Scenarios.connected_user)) = false.
Proof. eexists. by vm_compute. Qed.

(** C8: if the agent call throws (failure or timeout) during
    [processQuery] with a connected session, the pipeline returns the
    fixed apology as the response, and [chatHistory.addTurn] is still
    invoked, as the last step, with the query and the apology; the apology
    is the response of the newest stored turn. *)
Theorem processQuery_agent_failure w q u session :
  appSession u = Some session ->
  (forall options, generateResponse w options = None) ->
  let r := processQuery w q u in
  result r = APOLOGY /\
  exists hadPhoto,
    last (effects r) = Some (AddTurn q APOLOGY hadPhoto) /\
    last (chatHistory (final r)) =
      Some {| t_query := q; t_response := APOLOGY; t_timestamp := now w;
              t_hadPhoto := hadPhoto; t_photoDataUrl := None |}.
Proof.
  intros Hs Hfail r. subst r.
  destruct (processQuery_connected w q u session Hs)
    as (before & options & after & hadPhoto & u' & -> & _ & _ & _).
  rewrite Hfail. unfold result, final, effects. cbn [fst snd default].
  split; [done|]. exists hadPhoto. split.
  - by rewrite !app_assoc, last_snoc.
  - apply last_addTurn.
Qed.

Lemma processQuery_agent_failure_witness :
  let r := processQuery Scenarios.failing_world (txt "what time is it")
                        Scenarios.connected_user in
  result r = APOLOGY /\
  exists hadPhoto,
    last (effects r) = Some (AddTurn (txt "what time is it") APOLOGY hadPhoto) /\
    last (chatHistory (final r)) =
      Some {| t_query := txt "what time is it"; t_response := APOLOGY;
              t_timestamp := now Scenarios.failing_world;
              t_hadPhoto := hadPhoto; t_photoDataUrl := None |}.
Proof.
  apply (processQuery_agent_failure Scenarios.failing_world
           (txt "what time is it") Scenarios.connected_user
           {| sessionRef := 1; capabilities := None |}).
  - reflexivity.
  - intros options. reflexivity.
Defined.

(** The run of the witness. *)
Example processQuery_agent_failure_example :
  let r := processQuery Scenarios.failing_world (txt "what time is it")
                        Scenarios.connected_user in
  result r = APOLOGY /\
  chatHistory (final r) =
    [ {| t_query := txt "what time is it"; t_response := APOLOGY;
         t_timestamp := 1000; t_hadPhoto := false;
         t_photoDataUrl := None |} ].
Proof. by vm_compute. Qed.
(* ===================================================================== *)
(** * Part III: further properties of the modelled code                   *)
(* ===================================================================== *)

(** ** Text wrapping *)

Import TextWrap Further.

Lemma split_not_nil sep s : split sep s <> [].
Proof.
  destruct s as [|c s]; simpl; [done|].
  destruct (bool_decide (c = sep)); [done|]. by destruct (split sep s).
Qed.

Lemma split_app_sep sep a b :
  split sep (a ++ sep :: b) = split sep a ++ split sep b.
Proof.
  induction a as [|c a IH]; simpl.
  - by rewrite bool_decide_eq_true_2.
  - destruct (bool_decide (c = sep)); rewrite IH; [done|].
    pose proof (split_not_nil sep a). by destruct (split sep a).
Qed.

Lemma split_piece_length sep s piece :
  piece ∈ split sep s -> length piece <= length s.
Proof.
  revert piece. induction s as [|c s IH]; intros piece; simpl.
  - intros ->%list_elem_of_singleton. done.
  - destruct (bool_decide (c = sep)).
    + intros [->|H]%elem_of_cons; simpl; [lia|]. apply IH in H. lia.
    + pose proof (split_not_nil sep s) as Hne.
      destruct (split sep s) as [|p ps] eqn:E; [done|].
      intros [->|Hin]%elem_of_cons; simpl.
      * assert (length p <= length s); [|lia]. apply IH. left.
      * assert (length piece <= length s); [|lia]. apply IH. by right.
Qed.

(** The pieces of a joined list are pieces of its members. *)
Lemma split_join_Forall sep (Q : str -> Prop) pieces :
  Q [] ->
  Forall (fun x => Forall Q (split sep x)) pieces ->
  Forall Q (split sep (join sep pieces)).
Proof.
  intros Hnil H. induction H as [|x [|y rest] Hx Hrest IH].
  - by constructor.
  - done.
  - change (join sep (x :: y :: rest)) with (x ++ sep :: join sep (y :: rest)).
    rewrite split_app_sep. by apply Forall_app.
Qed.

Lemma short_pieces sep n s :
  length s <= n -> Forall (fun piece => length piece <= n) (split sep s).
Proof.
  intros Hs. apply Forall_forall. intros piece Hin.
  apply split_piece_length in Hin. lia.
Qed.

Lemma trim_length s : length (trim s) <= length s.
Proof.
  unfold trim. pose proof (trimEnd_length (trimStart s)).
  pose proof (trimStart_length s). lia.
Qed.

(** *** The loops end when the width is positive *)

Lemma hard_cut_ends fuel n cur lines :
  1 <= n -> length cur <= fuel ->
  Forall (fun l => length l <= n) lines ->
  exists cur' lines',
    hard_cut fuel n cur lines = Some (cur', lines') /\
    length cur' <= n /\ Forall (fun l => length l <= n) lines'.
Proof.
  intros Hn. revert cur lines.
  induction fuel as [|fuel IH]; intros cur lines Hfuel Hlines; simpl.
  - rewrite bool_decide_eq_true_2 by lia. eexists _, _. split; [done|].
    split; [lia|done].
  - destruct (decide (length cur <= n)) as [Hle|Hgt].
    + rewrite bool_decide_eq_true_2 by done. by eexists _, _.
    + rewrite bool_decide_eq_false_2 by done. apply IH.
      * rewrite length_drop. lia.
      * apply Forall_app. split; [done|]. constructor; [|done].
        rewrite length_take. lia.
Qed.

Lemma hard_cut_more_fuel fuel fuel' n cur lines r :
  hard_cut fuel n cur lines = Some r -> fuel <= fuel' ->
  hard_cut fuel' n cur lines = Some r.
Proof.
  revert fuel' cur lines. induction fuel as [|fuel IH];
    intros fuel' cur lines; simpl.
  - destruct (decide (length cur <= n)) as [Hle|Hgt].
    + rewrite bool_decide_eq_true_2 by done. intros <- _.
      destruct fuel'; simpl; by rewrite bool_decide_eq_true_2.
    + by rewrite bool_decide_eq_false_2.
  - destruct (decide (length cur <= n)) as [Hle|Hgt].
    + rewrite bool_decide_eq_true_2 by done. intros <- _.
      destruct fuel'; simpl; by rewrite bool_decide_eq_true_2.
    + rewrite bool_decide_eq_false_2 by done. intros H Hf.
      destruct fuel' as [|fuel']; [lia|]. simpl.
      rewrite bool_decide_eq_false_2 by done. apply IH; [done|lia].
Qed.

Lemma add_word_ends fuel n state word :
  1 <= n -> length word <= fuel -> state_within n state ->
  exists state',
    add_word fuel n state word = Some state' /\ state_within n state'.
Proof.
  intros Hn Hfuel. destruct state as [cur lines]. intros [Hcur Hlines].
  simpl in Hcur, Hlines. unfold add_word. case_bool_decide as Hfit.
  - eexists. split; [done|]. split; [|done]. simpl.
    rewrite !length_app. lia.
  - set (pushed := match cur with [] => lines | _ => lines ++ [cur] end).
    assert (Forall (fun l => length l <= n) pushed) as Hpushed.
    { subst pushed. destruct cur; [done|].
      apply Forall_app. split; [done|]. by constructor. }
    destruct (hard_cut_ends fuel n word pushed Hn Hfuel Hpushed)
      as (cur' & lines' & -> & Hc & Hl).
    by eexists.
Qed.

Lemma add_words_ends fuel n state words :
  1 <= n -> Forall (fun w => length w <= fuel) words -> state_within n state ->
  exists state',
    add_words fuel n state words = Some state' /\ state_within n state'.
Proof.
  intros Hn Hwords. revert state.
  induction Hwords as [|w ws Hw _ IH]; intros state Hst; simpl.
  - by eexists.
  - destruct (add_word_ends fuel n state w) as (st' & -> & Hst'); [done..|].
    by apply IH.
Qed.

Lemma wrap_line_ends fuel n line :
  1 <= n -> length line <= fuel ->
  exists wrapped,
    wrap_line fuel n line = Some wrapped /\
    Forall (fun l => length l <= n) wrapped.
Proof.
  intros Hn Hfuel. unfold wrap_line.
  destruct (add_words_ends fuel n ([], []) (split blank line))
    as ([cur lines] & -> & Hcur & Hlines).
  - done.
  - apply Forall_forall. intros w Hw. apply split_piece_length in Hw. lia.
  - split; simpl; [lia|done].
  - eexists. split; [done|]. destruct cur as [|c cur]; [done|].
    apply Forall_app. split; [done|]. constructor; [|done].
    simpl in *. pose proof (trim_length (c :: cur)). simpl in *. lia.
Qed.

Lemma wrap_lines_ends fuel n lines :
  1 <= n -> Forall (fun l => length l <= fuel) lines ->
  exists wrapped,
    wrap_lines fuel n lines = Some wrapped /\
    Forall (fun x => Forall (fun l => length l <= n) (split newline x)) wrapped.
Proof.
  intros Hn Hlines. induction Hlines as [|l ls Hl _ (more & IH & Hmore)]; simpl.
  - by eexists.
  - destruct (wrap_line_ends fuel n l) as (w & -> & Hw); [done..|].
    rewrite IH. eexists. split; [done|]. constructor; [|done].
    apply split_join_Forall; [simpl; lia|].
    eapply Forall_impl; [exact Hw|]. intros x Hx. by apply short_pieces.
Qed.

Lemma add_words_more_fuel fuel fuel' n state words r :
  add_words fuel n state words = Some r -> fuel <= fuel' ->
  add_words fuel' n state words = Some r.
Proof.
  intros H Hf. revert state H. induction words as [|w ws IH];
    intros state H; simpl in *; [done|].
  destruct (add_word fuel n state w) as [st'|] eqn:E; [|done].
  assert (add_word fuel' n state w = Some st') as ->; [|by apply IH].
  destruct state as [cur lines]. unfold add_word in *.
  case_bool_decide; [done|]. by eapply hard_cut_more_fuel.
Qed.

Lemma wrap_lines_more_fuel fuel fuel' n lines r :
  wrap_lines fuel n lines = Some r -> fuel <= fuel' ->
  wrap_lines fuel' n lines = Some r.
Proof.
  intros H Hf. revert r H. induction lines as [|l ls IH]; intros r H;
    simpl in *; [done|].
  destruct (wrap_line fuel n l) as [w|] eqn:E; [|done].
  destruct (wrap_lines fuel n ls) as [more|] eqn:E'; [|done].
  rewrite (IH more eq_refl).
  assert (wrap_line fuel' n l = Some w) as ->; [|done].
  unfold wrap_line in *.
  destruct (add_words fuel n ([], []) (split blank l)) as [[cur lines]|] eqn:Ea;
    [|done].
  by rewrite (add_words_more_fuel fuel fuel' n _ _ _ Ea Hf).
Qed.

(** X1: for a positive [maxLength], [wrapText] returns, and no line of the
    text it returns is longer than [maxLength]; the loops need no more
    rounds than the text has characters. *)
Theorem wrapText_lines_within text n :
  1 <= n ->
  exists out,
    lines_within n out /\
    forall fuel, length text <= fuel ->
                 wrapText fuel (JString text) n = Some out.
Proof.
  intros Hn. destruct text as [|c text].
  { exists []. split; [|done]. unfold lines_within. simpl.
    constructor; [simpl; lia|constructor]. }
  destruct (wrap_lines_ends (length (c :: text)) n (split newline (c :: text)))
    as (wrapped & Hw & Hall); [done| |].
  { apply Forall_forall. intros l Hl. by apply split_piece_length in Hl. }
  exists (join newline wrapped). split.
  - apply split_join_Forall; [simpl; lia|done].
  - intros fuel Hfuel. unfold wrapText.
    by rewrite (wrap_lines_more_fuel _ fuel _ _ _ Hw Hfuel).
Qed.

Lemma wrapText_lines_within_witness :
  exists out,
    lines_within 10 out /\
    forall fuel, length (txt "the quick brown fox") <= fuel ->
                 wrapText fuel (JString (txt "the quick brown fox")) 10
                 = Some out.
Proof.
  apply (wrapText_lines_within (txt "the quick brown fox") 10). lia.
Defined.

Import Further2.

(** *** A width of zero *)

Lemma hard_cut_zero fuel cur lines :
  cur <> [] -> hard_cut fuel 0 cur lines = None.
Proof.
  intros Hcur. revert lines. induction fuel as [|fuel IH]; intros lines; simpl.
  - rewrite bool_decide_eq_false_2; [done|]. destruct cur; simpl; [done|lia].
  - rewrite bool_decide_eq_false_2; [|destruct cur; simpl; [done|lia]].
    rewrite drop_0. apply IH.
Qed.

Lemma add_words_zero fuel state words word :
  word ∈ words -> word <> [] -> add_words fuel 0 state words = None.
Proof.
  intros Hin Hword. revert state.
  induction words as [|w ws IH]; intros state; [by apply elem_of_nil in Hin|].
  simpl. apply elem_of_cons in Hin as [<-|Hin].
  - destruct state as [cur lines]. unfold add_word.
    rewrite bool_decide_eq_false_2.
    + by rewrite hard_cut_zero.
    + destruct word; simpl; [done|lia].
  - destruct (add_word fuel 0 state w); [by apply IH|done].
Qed.

Lemma split_holds sep s c :
  c ∈ s -> c <> sep -> exists piece, piece ∈ split sep s /\ c ∈ piece.
Proof.
  intros Hin Hc. induction s as [|x s IH]; [by apply elem_of_nil in Hin|].
  simpl. pose proof (split_not_nil sep s) as Hne.
  apply elem_of_cons in Hin as [->|Hin].
  - rewrite bool_decide_eq_false_2 by done.
    destruct (split sep s) as [|p ps]; [done|].
    exists (x :: p). split; left.
  - destruct (IH Hin) as (piece & Hp & Hcp).
    case_bool_decide.
    + exists piece. split; [by right|done].
    + destruct (split sep s) as [|p ps]; [done|].
      apply elem_of_cons in Hp as [->|Hp].
      * exists (x :: p). split; [left|by right].
      * exists piece. split; [by right|done].
Qed.

Lemma wrap_lines_loops fuel n lines line :
  line ∈ lines -> wrap_line fuel n line = None ->
  wrap_lines fuel n lines = None.
Proof.
  intros Hin Hnone. induction lines as [|l ls IH];
    [by apply elem_of_nil in Hin|].
  simpl. apply elem_of_cons in Hin as [<-|Hin].
  - by rewrite Hnone.
  - rewrite (IH Hin). by destruct (wrap_line fuel n l).
Qed.

(** X2: with [maxLength] 0, [wrapText] does not return on a text that has
    a character other than a blank and a line feed: the hard-cut loop
    pushes an empty slice in every round and never shortens the word. *)
Theorem wrapText_zero_width_loops text c :
  c ∈ text -> c <> blank -> c <> newline ->
  forall fuel, wrapText fuel (JString text) 0 = None.
Proof.
  intros Hin Hb Hn fuel.
  destruct (split_holds newline text c Hin Hn) as (line & Hline & Hcl).
  destruct (split_holds blank line c Hcl Hb) as (word & Hword & Hcw).
  assert (wrap_line fuel 0 line = None) as Hloop.
  { unfold wrap_line. rewrite (add_words_zero fuel _ _ word); [done|done|].
    intros ->. by apply elem_of_nil in Hcw. }
  unfold wrapText. destruct text as [|x text]; [by apply elem_of_nil in Hin|].
  by rewrite (wrap_lines_loops fuel 0 _ line).
Qed.

Lemma wrapText_zero_width_loops_witness :
  wrapText 1000 (JString (txt "hi")) 0 = None.
Proof.
  apply (wrapText_zero_width_loops (txt "hi") "h"%char).
  - left.
  - discriminate.
  - discriminate.
Defined.

(** *** Wrapping keeps the characters *)

Lemma solid_app a b : solid (a ++ b) = solid a ++ solid b.
Proof. apply filter_app. Qed.

Lemma solid_skip c s : isWhitespace c = true -> solid (c :: s) = solid s.
Proof.
  intros H. unfold solid. cbn.
  destruct (decide_rel eq (isWhitespace c) false); [congruence|done].
Qed.

Lemma solid_keep c s : isWhitespace c = false -> solid (c :: s) = c :: solid s.
Proof.
  intros H. unfold solid. cbn.
  destruct (decide_rel eq (isWhitespace c) false); [done|congruence].
Qed.

Lemma solid_trimStart s : solid (trimStart s) = solid s.
Proof.
  induction s as [|c s IH]; [done|]. simpl.
  destruct (isWhitespace c) eqn:E; [|done]. by rewrite solid_skip.
Qed.

Lemma solid_trimEnd s : solid (trimEnd s) = solid s.
Proof.
  induction s as [|c s IH]; [done|]. simpl.
  destruct (isWhitespace c) eqn:E.
  - rewrite (solid_skip c s E), <- IH.
    destruct (trimEnd s); [done|]. by rewrite solid_skip.
  - rewrite (solid_keep c s E), <- IH.
    destruct (trimEnd s); by rewrite solid_keep.
Qed.

Lemma solid_trim s : solid (trim s) = solid s.
Proof. unfold trim. by rewrite solid_trimEnd, solid_trimStart. Qed.

Lemma solid_join sep pieces :
  isWhitespace sep = true ->
  solid (join sep pieces) = concat (map solid pieces).
Proof.
  intros Hsep. induction pieces as [|p [|q rest] IH].
  - done.
  - simpl. by rewrite app_nil_r.
  - change (join sep (p :: q :: rest)) with (p ++ sep :: join sep (q :: rest)).
    rewrite solid_app, solid_skip, IH by done. done.
Qed.

Lemma solid_split sep s :
  isWhitespace sep = true -> concat (map solid (split sep s)) = solid s.
Proof.
  intros Hsep. induction s as [|c s IH]; [done|]. simpl.
  pose proof (split_not_nil sep s) as Hne. case_bool_decide as Hc.
  - subst c. simpl. by rewrite IH, solid_skip.
  - destruct (split sep s) as [|p ps]; [done|]. simpl in *.
    destruct (isWhitespace c) eqn:E.
    + rewrite !(solid_skip c) by done. done.
    + rewrite !(solid_keep c) by done. simpl. by rewrite IH.
Qed.

Lemma hard_cut_solid fuel n cur lines r :
  hard_cut fuel n cur lines = Some r ->
  state_solid r = state_solid (cur, lines).
Proof.
  revert cur lines. induction fuel as [|fuel IH]; intros cur lines; simpl.
  - case_bool_decide; [|done]. by intros [= <-].
  - case_bool_decide; [by intros [= <-]|]. intros Hcut. rewrite (IH _ _ Hcut).
    unfold state_solid. simpl. rewrite map_app, concat_app. simpl.
    rewrite app_nil_r, <- app_assoc, <- solid_app. by rewrite take_drop.
Qed.

Lemma add_word_solid fuel n state word r :
  add_word fuel n state word = Some r ->
  state_solid r = state_solid state ++ solid word.
Proof.
  destruct state as [cur lines]. unfold add_word. case_bool_decide.
  - intros [= <-]. unfold state_solid. simpl.
    rewrite !solid_app, <- !app_assoc. do 2 f_equal.
    destruct cur; [done|]. by rewrite solid_skip.
  - intros Hcut. rewrite (hard_cut_solid _ _ _ _ _ Hcut).
    unfold state_solid.
    destruct cur; simpl; rewrite ?map_app, ?concat_app; simpl;
      by rewrite ?app_nil_r.
Qed.

Lemma add_words_solid fuel n state words r :
  add_words fuel n state words = Some r ->
  state_solid r = state_solid state ++ concat (map solid words).
Proof.
  revert state. induction words as [|w ws IH]; intros state; simpl.
  - intros [= <-]. by rewrite app_nil_r.
  - destruct (add_word fuel n state w) as [st'|] eqn:E; [|done].
    intros H. rewrite (IH _ H), (add_word_solid _ _ _ _ _ E).
    by rewrite <- app_assoc.
Qed.

Lemma wrap_line_solid fuel n line wrapped :
  wrap_line fuel n line = Some wrapped ->
  concat (map solid wrapped) = solid line.
Proof.
  unfold wrap_line.
  destruct (add_words fuel n ([], []) (split blank line)) as [[cur lines]|] eqn:E;
    [|done].
  intros [= <-]. apply add_words_solid in E.
  rewrite solid_split in E by done. unfold state_solid in E. simpl in E.
  rewrite <- E.
  destruct cur as [|c cur]; [by rewrite app_nil_r|].
  rewrite map_app, concat_app. simpl. by rewrite app_nil_r, solid_trim.
Qed.

Lemma wrap_lines_solid fuel n lines wrapped :
  wrap_lines fuel n lines = Some wrapped ->
  concat (map solid wrapped) = concat (map solid lines).
Proof.
  revert wrapped. induction lines as [|l ls IH]; intros wrapped; simpl.
  - by intros [= <-].
  - destruct (wrap_line fuel n l) as [w|] eqn:E; [|done].
    destruct (wrap_lines fuel n ls) as [more|] eqn:E'; [|done].
    intros [= <-]. simpl. rewrite (IH more eq_refl).
    by rewrite solid_join, (wrap_line_solid _ _ _ _ E).
Qed.

(** X3: whatever the width, the text that [wrapText] returns has the same
    non-whitespace characters as the input, in the same order: wrapping
    only moves, adds and removes blanks and line breaks. *)
Theorem wrapText_keeps_characters fuel text n out :
  wrapText fuel (JString text) n = Some out ->
  solid out = solid text.
Proof.
  unfold wrapText. destruct text as [|c text]; [by intros [= <-]|].
  destruct (wrap_lines fuel n (split newline (c :: text))) as [wrapped|] eqn:E;
    [|done].
  intros [= <-]. rewrite solid_join by done.
  by rewrite (wrap_lines_solid _ _ _ _ E), solid_split.
Qed.

Lemma wrapText_keeps_characters_witness :
  solid (txt "ab cdefgh ij") = solid (txt "ab  cdefgh ij").
Proof.
  apply (wrapText_keeps_characters 5 (txt "ab  cdefgh ij") 4
           (join newline [txt "ab "; txt "cdef"; txt "gh"; txt "ij"])).
  reflexivity.
Defined.

(** *** A text that fits *)

Lemma split_without sep s : sep ∉ s -> split sep s = [s].
Proof.
  induction s as [|c s IH]; [done|]. intros Hnot.
  apply not_elem_of_cons in Hnot as [Hc Hs]. simpl.
  rewrite bool_decide_eq_false_2 by done. by rewrite IH.
Qed.

Lemma glue_grows cur words : length cur <= length (glue cur words).
Proof.
  revert cur. induction words as [|w ws IH]; intros cur; simpl; [lia|].
  etrans; [|apply IH]. rewrite !length_app. lia.
Qed.

Lemma add_words_fit fuel n cur lines words :
  length (glue cur words) <= n ->
  add_words fuel n (cur, lines) words = Some (glue cur words, lines).
Proof.
  revert cur. induction words as [|w ws IH]; intros cur Hfit; simpl; [done|].
  simpl in Hfit. pose proof (glue_grows
    (cur ++ match cur with [] => [] | _ => [blank] end ++ w) ws) as Hgrow.
  rewrite !length_app in Hgrow.
  rewrite bool_decide_eq_true_2 by lia. by apply IH.
Qed.

Lemma glue_started cur words :
  cur <> [] -> glue cur words = cur ++ concat (map (cons blank) words).
Proof.
  revert cur. induction words as [|w ws IH]; intros cur Hcur; simpl.
  - by rewrite app_nil_r.
  - rewrite IH by (by destruct cur). destruct cur; [done|].
    by rewrite <- !app_assoc.
Qed.

Lemma split_glued sep s :
  match split sep s with
  | piece :: pieces => piece ++ concat (map (cons sep) pieces) = s
  | [] => False
  end.
Proof.
  induction s as [|c s IH]; simpl; [done|]. case_bool_decide as Hc.
  - subst c. simpl. destruct (split sep s); [done|]. simpl. by rewrite IH.
  - destruct (split sep s); [done|]. simpl. by rewrite IH.
Qed.

Lemma glue_split s : glue [] (split blank s) = drop_blanks s.
Proof.
  induction s as [|c s IH]; [done|]. simpl. case_bool_decide as Hc.
  - done.
  - pose proof (split_glued blank s) as Hs.
    destruct (split blank s) as [|p ps]; [done|]. simpl.
    rewrite glue_started by done. simpl. by rewrite Hs.
Qed.

Lemma drop_blanks_length s : length (drop_blanks s) <= length s.
Proof.
  induction s as [|c s IH]; simpl; [lia|]. case_bool_decide; simpl; lia.
Qed.

Lemma trimStart_drop_blanks s : trimStart (drop_blanks s) = trimStart s.
Proof.
  induction s as [|c s IH]; [done|]. simpl. case_bool_decide as Hc; [|done].
  subst c. by rewrite IH.
Qed.

(** X4: a text without line feed that is no longer than [maxLength] comes
    back trimmed and otherwise unchanged (whatever the width and the
    number of rounds allowed to the hard-cut loop, which never runs). *)
Theorem wrapText_fitting_text fuel text n :
  newline ∉ text -> length text <= n ->
  wrapText fuel (JString text) n = Some (trim text).
Proof.
  intros Hnl Hlen. destruct text as [|c text]; [done|].
  unfold wrapText. rewrite split_without by done. cbn [wrap_lines].
  unfold wrap_line. rewrite add_words_fit.
  - rewrite glue_split.
    assert (trim (drop_blanks (c :: text)) = trim (c :: text)) as Htrim.
    { unfold trim. by rewrite trimStart_drop_blanks. }
    destruct (drop_blanks (c :: text)) as [|d rest] eqn:E.
    + rewrite <- Htrim. reflexivity.
    + rewrite <- Htrim. reflexivity.
  - rewrite glue_split. pose proof (drop_blanks_length (c :: text)). lia.
Qed.

Lemma wrapText_fitting_text_witness :
  wrapText 0 (JString (txt "  what time  is it ")) 25
  = Some (trim (txt "  what time  is it ")).
Proof.
  apply (wrapText_fitting_text 0 (txt "  what time  is it ") 25).
  - apply (bool_decide_unpack _). by vm_compute.
  - simpl. lia.
Defined.

(** ** The keyword classifiers *)

Import Classifiers.

Lemma toLowerChar_idemp c : toLowerChar (toLowerChar c) = toLowerChar c.
Proof. each_char c; reflexivity. Qed.

Lemma toLowerCase_idemp s : toLowerCase (toLowerCase s) = toLowerCase s.
Proof.
  unfold toLowerCase. rewrite map_map. apply map_ext. intros c.
  apply toLowerChar_idemp.
Qed.

Lemma startsWith_spec p s :
  startsWith p s = true <-> exists rest, s = p ++ rest.
Proof.
  revert s. induction p as [|a p IH]; intros s; simpl.
  - split; [by eexists|done].
  - destruct s as [|b s]; [split; [done|by intros [? [=]]]|].
    rewrite andb_true_iff, bool_decide_eq_true, IH. split.
    + intros [-> [rest ->]]. by eexists.
    + intros [rest [= -> ->]]. split; [done|by eexists].
Qed.

(** [includes] finds exactly the contiguous occurrences. *)
Lemma includes_spec s kw :
  includes s kw = true <-> exists before after, s = before ++ kw ++ after.
Proof.
  induction s as [|c s IH]; simpl.
  - rewrite orb_false_r, startsWith_spec. split.
    + intros [rest ->]. by exists [], rest.
    + intros (before & after & H). destruct before; [by eexists|done].
  - rewrite orb_true_iff, startsWith_spec, IH. split.
    + intros [[rest ->]|(before & after & ->)].
      * by exists [], rest.
      * by exists (c :: before), after.
    + intros (before & after & H). destruct before as [|b before].
      * left. by exists after.
      * right. injection H as -> ->. by eexists _, _.
Qed.

Lemma includes_inside a s b kw :
  includes s kw = true -> includes (a ++ s ++ b) kw = true.
Proof.
  rewrite !includes_spec. intros (before & after & ->).
  exists (a ++ before), (after ++ b). by rewrite <- !app_assoc.
Qed.

Lemma some_included_inside kws a s b :
  some_included kws s = true -> some_included kws (a ++ s ++ b) = true.
Proof.
  unfold some_included. rewrite !existsb_exists.
  intros (kw & Hin & Hkw). exists kw. split; [done|].
  by apply includes_inside.
Qed.

(** X5: the classifiers [isLocationQuery], [isWeatherQuery] and
    [isVisionQuery] look for keywords anywhere in the text and ignore
    letter case, so a text in which a positive query occurs, in any letter
    case, is classified positive too. *)
Theorem classifiers_monotone inner outer :
  occurs_in inner outer ->
  (isLocationQuery inner = true -> isLocationQuery outer = true) /\
  (isWeatherQuery inner = true -> isWeatherQuery outer = true) /\
  (isVisionQuery inner = true -> isVisionQuery outer = true).
Proof.
  intros (before & after & Hocc).
  unfold isLocationQuery, isWeatherQuery, isVisionQuery. cbv zeta.
  rewrite Hocc. split; [|split].
  - destruct (some_included LOCATION_KEYWORDS (toLowerCase inner)) eqn:E1.
    + intros _. by rewrite some_included_inside.
    + destruct (some_included WEATHER_KEYWORDS (toLowerCase inner)) eqn:E2;
        [|done].
      intros _. rewrite (some_included_inside WEATHER_KEYWORDS) by done.
      by destruct (some_included LOCATION_KEYWORDS
                     (before ++ toLowerCase inner ++ after)).
  - apply some_included_inside.
  - apply some_included_inside.
Qed.

Lemma classifiers_monotone_witness :
  (isLocationQuery (txt "near me") = true ->
   isLocationQuery (txt "Any coffee NEAR ME?") = true) /\
  (isWeatherQuery (txt "near me") = true ->
   isWeatherQuery (txt "Any coffee NEAR ME?") = true) /\
  (isVisionQuery (txt "near me") = true ->
   isVisionQuery (txt "Any coffee NEAR ME?") = true).
Proof.
  apply (classifiers_monotone (txt "near me") (txt "Any coffee NEAR ME?")).
  by exists (txt "any coffee "), (txt "?").
Defined.

(** [needsGeocoding] is not monotone in this sense. *)
Example needsGeocoding_not_monotone :
  needsGeocoding (txt "where am i") = true /\
  needsGeocoding (txt "weather where am i") = false.
Proof. by vm_compute. Qed.

(** X6: the location classifiers agree with each other. A query that
    needs geocoding is a location query of type [full_location]; the type
    is [none] exactly for the queries that are not location queries; a
    query of type [weather_only] is a weather query that needs no
    geocoding; and every weather query is a location query. *)
Theorem location_classifiers_agree q :
  (needsGeocoding q = true ->
   isLocationQuery q = true /\ getLocationQueryType q = full_location) /\
  (getLocationQueryType q = none <-> isLocationQuery q = false) /\
  (getLocationQueryType q = weather_only ->
   isWeatherQuery q = true /\ needsGeocoding q = false) /\
  (isWeatherQuery q = true -> isLocationQuery q = true).
Proof.
  unfold needsGeocoding, isLocationQuery, getLocationQueryType, isWeatherQuery.
  destruct (some_included LOCATION_KEYWORDS (toLowerCase q)),
    (some_included WEATHER_KEYWORDS (toLowerCase q)),
    (includes (toLowerCase q) (txt " in ")),
    (includes (toLowerCase q) (txt " at ")); simpl;
    intuition (try discriminate; try congruence).
Qed.

(** ** Wake-word detection, both ways *)

Import Further3.

Lemma wake_letter_ci c x :
  wake_letter c ->
  (canonicalize x =? canonicalize c)%N = true -> toLowerChar x = c.
Proof.
  unfold wake_letter. intros Hc H.
  repeat (apply elem_of_cons in Hc as [->|Hc]);
    [each_char x; first [discriminate H | reflexivity] ..|].
  by apply elem_of_nil in Hc.
Qed.

Lemma star_k_inv p s k x :
  star_k p s k = Some x ->
  exists gap s', s = gap ++ s' /\ Forall (fun g => p g = true) gap /\
                 k s' = Some x.
Proof.
  revert x. induction s as [|c s IH]; intros x; simpl.
  - intros H. by exists [], [].
  - destruct (p c) eqn:Hc.
    + destruct (star_k p s k) as [y|] eqn:E.
      * intros [= <-]. destruct (IH y eq_refl) as (gap & s' & -> & Hgap & Hk).
        exists (c :: gap), s'. split; [done|]. split; [by constructor|done].
      * intros H. by exists [], (c :: s).
    + intros H. by exists [], (c :: s).
Qed.

Lemma run_letter_inv c r s k x :
  wake_letter c ->
  run true (Cat (Chr c) r) s k = Some x ->
  exists x0 s', s = x0 :: s' /\ same_letter c x0 /\ run true r s' k = Some x.
Proof.
  intros Hc. simpl. destruct s as [|x0 s']; [done|].
  destruct (canonicalize x0 =? canonicalize c)%N eqn:E; [|done].
  intros H. exists x0, s'. split; [done|]. split; [|done].
  by apply wake_letter_ci.
Qed.

Lemma run_gap_inv r s k x :
  run true (Cat (Star isWhitespace) r) s k = Some x ->
  exists gap s', s = gap ++ s' /\ is_gap gap /\ run true r s' k = Some x.
Proof. simpl. apply star_k_inv. Qed.

Lemma run_space_inv r s k x :
  run true (Cat (Plus isWhitespace) r) s k = Some x ->
  exists gap s', s = gap ++ s' /\ is_gap gap /\ gap <> [] /\
                 run true r s' k = Some x.
Proof.
  simpl. destruct s as [|c s]; [done|].
  destruct (isWhitespace c) eqn:Hc; [|done]. intros H.
  apply star_k_inv in H as (gap & s' & -> & Hgap & Hk).
  exists (c :: gap), s'. split; [done|]. split; [by constructor|done].
Qed.

Ltac wake_letter_solve :=
  unfold wake_letter;
  repeat first [apply list_elem_of_here | apply list_elem_of_further].

(** What the pattern matches at the start of a text is a variant. *)
Lemma wake_pattern_match_inv s rest :
  match_here true (wake_pattern (txt "hey mentra")) s = Some rest ->
  exists W, wake_variant W /\ s = W ++ rest.
Proof.
  rewrite wake_pattern_unfold. unfold match_here. intros H.
  apply run_letter_inv in H as (x1 & ? & -> & L1 & H); [|wake_letter_solve].
  apply run_gap_inv in H as (g1 & ? & -> & G1 & H).
  apply run_letter_inv in H as (x2 & ? & -> & L2 & H); [|wake_letter_solve].
  apply run_gap_inv in H as (g2 & ? & -> & G2 & H).
  apply run_letter_inv in H as (x3 & ? & -> & L3 & H); [|wake_letter_solve].
  apply run_space_inv in H as (g3 & ? & -> & G3 & N3 & H).
  apply run_letter_inv in H as (x4 & ? & -> & L4 & H); [|wake_letter_solve].
  apply run_gap_inv in H as (g4 & ? & -> & G4 & H).
  apply run_letter_inv in H as (x5 & ? & -> & L5 & H); [|wake_letter_solve].
  apply run_gap_inv in H as (g5 & ? & -> & G5 & H).
  apply run_letter_inv in H as (x6 & ? & -> & L6 & H); [|wake_letter_solve].
  apply run_gap_inv in H as (g6 & ? & -> & G6 & H).
  apply run_letter_inv in H as (x7 & ? & -> & L7 & H); [|wake_letter_solve].
  apply run_gap_inv in H as (g7 & ? & -> & G7 & H).
  apply run_letter_inv in H as (x8 & ? & -> & L8 & H); [|wake_letter_solve].
  apply run_gap_inv in H as (g8 & ? & -> & G8 & H).
  apply run_letter_inv in H as (x9 & ? & -> & L9 & H); [|wake_letter_solve].
  simpl in H. injection H as ->.
  exists ((x1 :: g1 ++ x2 :: g2 ++ [x3]) ++ g3
          ++ (x4 :: g4 ++ x5 :: g5 ++ x6 :: g6 ++ x7 :: g7 ++ x8 :: g8 ++ [x9])).
  split.
  - eexists _, g3, _. split; [|split; [done|split; [done|split; [|done]]]].
    + apply spelled_more; [done|done|done|].
      apply spelled_more; [done|done|done|]. by apply spelled_last.
    + repeat (apply spelled_more; [done|done|done|]). by apply spelled_last.
  - repeat (rewrite <- ?app_assoc; cbn [app]). reflexivity.
Qed.

(** The search succeeds exactly when the pattern matches at some place. *)
Lemma search_from_found ic r s i0 :
  is_Some (search_from ic r s i0) <->
  exists a b, s = a ++ b /\ is_Some (match_here ic r b).
Proof.
  revert i0. induction s as [|c s IH]; intros i0; simpl.
  - destruct (match_here ic r []) eqn:E.
    + split; [|by eexists]. intros _. exists [], []. by rewrite E.
    + split; [by intros [? [=]]|]. intros (a & b & Hab & Hm).
      destruct a, b; try done. rewrite E in Hm. by destruct Hm.
  - destruct (match_here ic r (c :: s)) eqn:E.
    + split; [|by eexists]. intros _. exists [], (c :: s). by rewrite E.
    + rewrite IH. split.
      * intros (a & b & -> & Hm). by exists (c :: a), b.
      * intros (a & b & Hab & Hm). destruct a as [|x a].
        -- simpl in Hab. subst b. rewrite E in Hm. by destruct Hm.
        -- injection Hab as -> ->. by exists a, b.
Qed.

Lemma trimStart_suffix s : exists w, s = w ++ trimStart s.
Proof.
  induction s as [|c s [w IH]]; [by exists []|]. simpl.
  destruct (isWhitespace c); [|by exists []].
  exists (c :: w). simpl. by rewrite <- IH.
Qed.

Lemma trimEnd_prefix s : exists w, s = trimEnd s ++ w.
Proof.
  induction s as [|c s [w IH]]; [by exists []|]. simpl.
  destruct (trimEnd s) as [|y r] eqn:E.
  - destruct (isWhitespace c).
    + exists (c :: s). done.
    + exists w. simpl. by rewrite IH at 1.
  - exists w. simpl. by rewrite IH at 1.
Qed.

Lemma trimStart_keeps_inside a c r :
  isWhitespace c = false -> exists a', trimStart (a ++ c :: r) = a' ++ c :: r.
Proof.
  intros Hc. induction a as [|x a [a' IH]]; simpl.
  - rewrite Hc. by exists [].
  - destruct (isWhitespace x); [by exists a'|]. by exists (x :: a).
Qed.

Lemma spelled_lower cs w : spelled cs (toLowerCase w) -> spelled cs w.
Proof.
  remember (toLowerCase w) as lw eqn:E. intros H. revert w E.
  induction H as [c x Hx|c cs x gap w' Hx Hgap Hcs Hsp IH]; intros w E.
  - destruct w as [|x0 [|? ?]]; try done. injection E as ->.
    apply spelled_last. unfold same_letter in *.
    by rewrite toLowerChar_idemp in Hx.
  - destruct w as [|x0 w0]; [done|]. injection E as -> E.
    symmetry in E. apply fmap_app_inv in E as (gap0 & w1 & -> & -> & ->).
    apply spelled_more; [| |done|by apply IH].
    + unfold same_letter in *. by rewrite toLowerChar_idemp in Hx.
    + clear -Hgap. induction gap0 as [|g gap0 IH]; [constructor|].
      inversion Hgap; subst. constructor; [|by apply IH].
      by rewrite <- isWhitespace_toLowerChar.
Qed.

Lemma wake_variant_lower W : wake_variant (toLowerCase W) -> wake_variant W.
Proof.
  intros (w1 & gap & w2 & H1 & Hne & Hgap & H2 & E).
  apply fmap_app_inv in E as (v1 & rest & -> & E & ->).
  symmetry in E. apply fmap_app_inv in E as (gap0 & v2 & -> & -> & ->).
  exists v1, gap0, v2. split; [by apply spelled_lower|].
  split; [by destruct gap0|]. split; [|split; [by apply spelled_lower|done]].
  clear -Hgap. induction gap0 as [|g gap0 IH]; [constructor|].
  inversion Hgap; subst. constructor; [|by apply IH].
  by rewrite <- isWhitespace_toLowerChar.
Qed.

Lemma wake_variant_upper W : wake_variant W -> wake_variant (toLowerCase W).
Proof.
  intros (w1 & gap & w2 & H1 & Hne & Hgap & H2 & ->).
  assert (forall cs w, spelled cs w -> spelled cs (toLowerCase w)) as Hsp.
  { intros cs w H. induction H as [c x Hx|c cs x g w' Hx Hg Hcs _ IH].
    - apply spelled_last. unfold same_letter in *.
      by rewrite toLowerChar_idemp.
    - cbn. rewrite toLowerCase_app. apply spelled_more; [| |done|done].
      + unfold same_letter in *. by rewrite toLowerChar_idemp.
      + by apply toLowerCase_gap. }
  exists (toLowerCase w1), (toLowerCase gap), (toLowerCase w2).
  split; [by apply Hsp|]. split; [by destruct gap|].
  split; [by apply toLowerCase_gap|]. split; [by apply Hsp|].
  by rewrite !toLowerCase_app.
Qed.

Lemma found_iff_contains t :
  is_Some (search true (wake_pattern (txt "hey mentra"))
                  (trim (toLowerCase t))) <->
  contains_variant t.
Proof.
  unfold search. rewrite search_from_found. split.
  - intros (a & b & Hab & [rest Hm]).
    apply wake_pattern_match_inv in Hm as (W & HW & ->).
    destruct (trimStart_suffix (toLowerCase t)) as [w1 H1].
    destruct (trimEnd_prefix (trimStart (toLowerCase t))) as [w2 H2].
    unfold trim in Hab. rewrite Hab in H2. rewrite H2 in H1.
    assert (toLowerCase t = (w1 ++ a) ++ W ++ (rest ++ w2)) as E.
    { rewrite H1. by rewrite <- !app_assoc. }
    apply fmap_app_inv in E as (before & more & Eb & E & ->).
    symmetry in E. apply fmap_app_inv in E as (W0 & after & -> & Ea & ->).
    exists before, W0, after. split; [|done]. by apply wake_variant_lower.
  - intros (before & W & after & HW & ->).
    destruct (wake_variant_ends W HW) as [body HWl].
    rewrite !toLowerCase_app, HWl. unfold trim.
    destruct (trimStart_keeps_inside (toLowerCase before) "h"%char
                (body ++ ["a"%char] ++ toLowerCase after)) as [a' Ha]; [done|].
    cbn [app]. rewrite <- !app_assoc. cbn [app] in *. rewrite Ha.
    change (a' ++ "h"%char :: body ++ "a"%char :: toLowerCase after)
      with (a' ++ ("h"%char :: body) ++ "a"%char :: toLowerCase after).
    rewrite app_assoc, trimEnd_keep by done.
    exists a', (toLowerCase W ++ trimEnd (toLowerCase after)).
    split.
    + rewrite HWl. cbn [app]. by rewrite <- !app_assoc.
    + rewrite wake_pattern_matches by done. by eexists.
Qed.

(** X7: [detectWakeWord] reports a detection exactly for the texts that
    contain the letters of "hey mentra" in any letter case, with optional
    whitespace between the letters of a word and at least one whitespace
    character between the two words. For every other text the result is
    the trimmed text with no wake word, which is also what
    [removeWakeWord] returns. *)
Theorem detectWakeWord_detects t :
  (detected (detectWakeWord t) = true <-> contains_variant t) /\
  (~ contains_variant t ->
   detectWakeWord t =
     {| detected := false; query := trim t; wakeWordUsed := None |} /\
   removeWakeWord t = trim t).
Proof.
  assert (detected (detectWakeWord t) = true <-> contains_variant t) as Hiff.
  { rewrite <- found_iff_contains. unfold detectWakeWord.
    change (zip WAKE_PATTERNS WAKE_WORDS)
      with [(wake_pattern (txt "hey mentra"), txt "hey mentra")].
    cbn [detect_loop].
    destruct (search true _ _) as [[i len]|]; simpl.
    - split; [by eexists|done].
    - split; [done|by intros [? [=]]]. }
  split; [done|]. intros Hnot.
  assert (detectWakeWord t =
          {| detected := false; query := trim t; wakeWordUsed := None |}) as E.
  { rewrite <- found_iff_contains in Hnot. unfold detectWakeWord.
    change (zip WAKE_PATTERNS WAKE_WORDS)
      with [(wake_pattern (txt "hey mentra"), txt "hey mentra")].
    cbn [detect_loop].
    destruct (search true _ _) as [[i len]|]; [|done].
    exfalso. apply Hnot. by eexists. }
  split; [done|]. unfold removeWakeWord. by rewrite E.
Qed.

(** The two words need whitespace between them, and whitespace inside a
    word does not matter. *)
Example detectWakeWord_gaps :
  detected (detectWakeWord (txt "heymentra what time is it")) = false /\
  detectWakeWord (txt "h e y   Mentr a, what time is it") =
  {| detected := true; query := txt "what time is it";
     wakeWordUsed := Some (txt "hey mentra") |}.
Proof. split; reflexivity. Qed.

(** A near miss of the wake phrase is not detected. *)
Example detectWakeWord_near_miss :
  detectWakeWord (txt " hey mentor, what time is it ") =
  {| detected := false; query := txt "hey mentor, what time is it";
     wakeWordUsed := None |}.
Proof. reflexivity. Qed.

Lemma detectWakeWord_detects_witness :
  detectWakeWord (txt "hey mentor") =
    {| detected := false; query := trim (txt "hey mentor");
       wakeWordUsed := None |} /\
  removeWakeWord (txt "hey mentor") = trim (txt "hey mentor").
Proof.
  apply (proj2 (detectWakeWord_detects (txt "hey mentor"))).
  intros H. apply (proj1 (detectWakeWord_detects (txt "hey mentor"))) in H.
  discriminate H.
Defined.

(** ** The query after the wake word is clean *)

Lemma trim_idemp s : trim (trim s) = trim s.
Proof.
  unfold trim. destruct (trimStart_suffix s) as [w Hw].
  destruct (trimStart s) as [|c r] eqn:E; [done|].
  assert (isWhitespace c = false) as Hc.
  { clear Hw. revert E. induction s as [|x s IH]; [done|]. simpl.
    destruct (isWhitespace x) eqn:Hx; [done|]. by intros [= <- <-]. }
  by rewrite trimEnd_head, trimEnd_idemp.
Qed.

Lemma skip_while_idemp p s : skip_while p (skip_while p s) = skip_while p s.
Proof.
  induction s as [|c s IH]; [done|]. simpl.
  destruct (p c) eqn:E; [done|]. simpl. by rewrite E.
Qed.

(** X8: the query that [detectWakeWord] returns never has leading or
    trailing whitespace, and after a detection it does not begin with a
    comma or a period either. *)
Theorem detectWakeWord_query_clean t :
  trim (query (detectWakeWord t)) = query (detectWakeWord t) /\
  (detected (detectWakeWord t) = true ->
   strip_lead (query (detectWakeWord t)) = query (detectWakeWord t)).
Proof.
  unfold detectWakeWord.
  change (zip WAKE_PATTERNS WAKE_WORDS)
    with [(wake_pattern (txt "hey mentra"), txt "hey mentra")].
  cbn [detect_loop].
  destruct (search true _ _) as [[i len]|]; cbn [query detected].
  - split; [apply trim_idemp|]. intros _.
    rewrite !strip_lead_skip, trim_skip_while, <- skip_while_trimEnd.
    apply skip_while_idemp.
  - split; [apply trim_idemp|done].
Qed.

Lemma detectWakeWord_query_clean_witness :
  strip_lead (query (detectWakeWord (txt "Hey Mentra.., .  what's up. ")))
  = query (detectWakeWord (txt "Hey Mentra.., .  what's up. ")).
Proof.
  apply (proj2 (detectWakeWord_query_clean
                  (txt "Hey Mentra.., .  what's up. "))).
  reflexivity.
Defined.

(** ** Residue that is stripped *)

Lemma star_k_total p s k :
  (forall s', is_Some (k s')) -> star_k p s k = k (skip_while p s).
Proof.
  intros Hk. induction s as [|c s IH]; [done|]. simpl.
  destruct (p c); [|done]. rewrite IH.
  by destruct (Hk (skip_while p s)) as [x ->].
Qed.

Lemma canonicalize_lower x :
  in_range 97 122 (toLowerChar x) = true ->
  canonicalize x = canonicalize (toLowerChar x).
Proof. each_char x; first [reflexivity | discriminate]. Qed.

Lemma trim_skip_whitespace s : trim (skip_while isWhitespace s) = trim s.
Proof.
  unfold trim. f_equal. induction s as [|c s IH]; [done|]. simpl.
  destruct (isWhitespace c) eqn:E; [done|]. simpl. by rewrite E.
Qed.

Ltac canon_step :=
  match goal with
  | H : toLowerChar ?x = ?c |- context [canonicalize ?x] =>
      rewrite (canonicalize_lower x) by (rewrite H; reflexivity); rewrite H
  end.

Ltac canon_eval :=
  match goal with
  | |- context [(canonicalize ?a =? canonicalize ?b)%N] =>
      let v := eval vm_compute in (canonicalize a =? canonicalize b)%N in
      match v with true => idtac | false => idtac end;
      change (canonicalize a =? canonicalize b)%N with v; cbv iota
  end.

(** X9: a text that begins with a 1-to-5 character suffix of "mentra", in
    any letter case, followed by a character of [[,.!?;:]], loses the
    suffix, the whole run of such punctuation after it, and the
    whitespace around what is left. *)
Theorem stripWakeWordResidue_strips f c rest :
  toLowerCase f ∈ mentra_fragments -> frag_punct c = true ->
  stripWakeWordResidue (f ++ c :: rest) = trim (skip_while frag_punct rest).
Proof.
  intros Hf Hc. unfold stripWakeWordResidue, replace_prefix.
  assert (match_here true WAKE_WORD_TRAILING_FRAGMENTS (f ++ c :: rest)
          = Some (skip_while isWhitespace (skip_while frag_punct rest))) as ->;
    [|apply trim_skip_whitespace].
  unfold WAKE_WORD_TRAILING_FRAGMENTS, match_here.
  rewrite fragment_suffixes_eq. unfold mentra_fragments in *.
  cbn [map alts run].
  change (fun s' => run true (Cat (Plus frag_punct) (Star isWhitespace)) s' Some)
    with after_fragment.
  rewrite !run_lit.
  repeat (apply elem_of_cons in Hf as [Hf|Hf]);
    [..|by apply elem_of_nil in Hf];
    repeat (destruct f as [|? f]; try discriminate Hf);
    cbn in Hf; simplify_eq; cbn [app strip_lit txt list_ascii_of_string];
    repeat canon_step; repeat canon_eval;
    (rewrite Hc, star_k_total;
     [by rewrite star_k_Some | intros s'; rewrite star_k_Some; by eexists]).
Qed.

Lemma stripWakeWordResidue_strips_witness :
  stripWakeWordResidue (txt "TRA" ++ ","%char :: txt ".. how much is it ")
  = trim (skip_while frag_punct (txt ".. how much is it ")).
Proof.
  apply (stripWakeWordResidue_strips (txt "TRA") ","%char
           (txt ".. how much is it ")).
  - unfold mentra_fragments. cbn.
    repeat first [apply list_elem_of_here | apply list_elem_of_further].
  - reflexivity.
Defined.


(** ** Line widths *)

Import TextWrap.

(** X10: a width given as a string yields a width between 21 and 52 for
    Latin text and between 7 and 21 for Hanzi text; the Hanzi width is
    less than half the Latin one, and the letter case of the setting is
    irrelevant. *)
Theorem convertLineWidth_string s isHanzi :
  let n := convertLineWidth (WString s) isHanzi in
  (if isHanzi then 7 <= n <= 21 else 21 <= n <= 52)%Z /\
  (2 * convertLineWidth (WString s) true
   < convertLineWidth (WString s) false)%Z /\
  convertLineWidth (WString (toLowerCase s)) isHanzi = n.
Proof.
  cbv zeta. repeat split.
  - unfold convertLineWidth. destruct isHanzi; cbv zeta; cbn [negb];
      repeat case_bool_decide; lia.
  - unfold convertLineWidth. cbv zeta. cbn [negb].
    repeat case_bool_decide; simplify_eq; lia.
  - unfold convertLineWidth. cbv zeta. by rewrite toLowerCase_idemp.
Qed.

(** ** The chat bus *)

Import BusRuns.

Lemma broadcast_queues writable uid e b :
  clients_of uid b = [] ->
  broadcastChatEvent writable uid e b =
  ({| chatClients := chatClients b;
      pendingEvents := <[uid := queued uid b ++ [e]]> (pendingEvents b) |}, []).
Proof.
  unfold clients_of, broadcastChatEvent, queued. intros H.
  destruct (chatClients b !! uid) as [[|w ws]|]; done.
Qed.

(** X11: while no stream is registered for a user, the events broadcast to
    them are written nowhere and queued in the order of the broadcasts,
    after what was queued before; nothing else of the bus changes, and
    the first stream that opens is sent the whole queue in that order. *)
Theorem broadcast_each_queues writable uid es b :
  clients_of uid b = [] ->
  let r := broadcast_each writable uid es b in
  r.2 = [] /\
  queued uid r.1 = queued uid b ++ es /\
  chatClients r.1 = chatClients b /\
  (forall other, other <> uid -> queued other r.1 = queued other b) /\
  (uid <> ""%string ->
   forall users now rcp stream,
     stream_lines (chatStream users now (Some uid) rcp stream r.1) =
       [Connected]
         ++ history_replay users now uid (default "mentra-ai"%string (truthy rcp))
         ++ (queued uid b ++ es)
         ++ [SessionHeartbeat (is_active users uid) now]).
Proof.
  intros Hc. cbv zeta.
  assert (let r := broadcast_each writable uid es b in
          r.2 = [] /\ queued uid r.1 = queued uid b ++ es /\
          chatClients r.1 = chatClients b /\
          (forall other, other <> uid -> queued other r.1 = queued other b))
    as (H1 & H2 & H3 & H4).
  { revert b Hc. induction es as [|e es IH]; intros b Hc; cbv zeta.
    - simpl. by rewrite app_nil_r.
    - simpl. rewrite (broadcast_queues writable uid e b Hc).
      match goal with
      | |- context [broadcast_each writable uid es ?b1] =>
          specialize (IH b1); destruct (broadcast_each writable uid es b1)
            as [b2 w2] eqn:E
      end.
      destruct IH as (I1 & I2 & I3 & I4); [done|]. simpl in *.
      repeat split; [done| | done |].
      + rewrite I2. unfold queued at 1. simpl. rewrite lookup_insert_eq. simpl.
        by rewrite <- app_assoc.
      + intros other Ho. rewrite (I4 other Ho). unfold queued. simpl.
        by rewrite lookup_insert_ne. }
  repeat split; try done.
  intros Hne users now rcp stream.
  unfold chatStream. simpl. rewrite bool_decide_eq_false_2 by done. simpl.
  rewrite <- H2. unfold queued. clear.
  by destruct (pendingEvents (broadcast_each writable uid es b).1 !! uid)
    as [[|e q]|].
Qed.

Lemma broadcast_each_queues_witness :
  let r := broadcast_each (fun _ => true) "u1"
             [Processing; Idle] Scenarios.late_bus in
  r.2 = [] /\
  queued "u1" r.1 = queued "u1" Scenarios.late_bus ++ [Processing; Idle].
Proof.
  destruct (broadcast_each_queues (fun _ => true) "u1"%string
              [Processing; Idle] Scenarios.late_bus) as (H1 & H2 & _).
  - reflexivity.
  - split; [exact H1|exact H2].
Defined.

Import BusAsync.

Lemma failed_all writable ws :
  Forall (fun w => writable (conn w) = false) ws -> failed writable ws = ws.
Proof.
  intros H. unfold failed. induction H as [|x l Hx _ IH]; [done|].
  rewrite filter_cons_True by done. by rewrite IH.
Qed.

Lemma failed_conn writable ws w :
  w ∈ ws ->
  (conn w ∉ map conn (failed writable ws) <-> writable (conn w) = true).
Proof.
  intros Hin. split.
  - intros Hw. destruct (writable (conn w)) eqn:E; [done|]. exfalso.
    apply Hw. apply (list_elem_of_fmap_2 conn). unfold failed.
    by apply list_elem_of_filter.
  - intros Hw Hc. apply list_elem_of_fmap in Hc as (w' & Heq & Hf).
    unfold failed in Hf. apply list_elem_of_filter in Hf as [Hf _].
    rewrite <- Heq in Hf. congruence.
Qed.

Lemma filter_failed writable (ws : list Chat.SSEWriter) :
  filter (fun w => conn w ∉ map conn (failed writable ws)) ws
  = filter (fun w => writable (conn w) = true) ws.
Proof.
  assert (forall l : list Chat.SSEWriter, (forall w, w ∈ l -> w ∈ ws) ->
            filter (fun w => conn w ∉ map conn (failed writable ws)) l
            = filter (fun w => writable (conn w) = true) l) as H.
  { intros l. induction l as [|x l IH]; intros Hl; [done|].
    assert (x ∈ ws) as Hx by (apply Hl; by left).
    assert (forall w, w ∈ l -> w ∈ ws) as Hl' by (intros w Hw; apply Hl; by right).
    destruct (writable (conn x)) eqn:E.
    - rewrite !filter_cons_True; [by rewrite IH|done|by apply failed_conn].
    - rewrite !filter_cons_False; [by apply IH|by rewrite E|].
      intros Hn. apply failed_conn in Hn; [congruence|done]. }
  by apply H.
Qed.

Lemma filter_out_all (ws : list Chat.SSEWriter) :
  filter (fun w => conn w ∉ map conn ws) ws = [].
Proof.
  assert (forall l : list Chat.SSEWriter,
            (forall w, w ∈ l -> w ∈ ws) ->
            filter (fun w => conn w ∉ map conn ws) l = []) as H.
  { intros l. induction l as [|x l IH]; intros Hl; [done|].
    rewrite filter_cons_False.
    - apply IH. intros w Hw. apply Hl. by right.
    - intros Hx. apply Hx. apply (list_elem_of_fmap_2 conn). apply Hl.
      by left. }
  by apply H.
Qed.

(** The broadcast of the model of the chat module is the call followed by
    the settlement of its writes; it lists the writes that succeeded. *)
Lemma broadcast_call_settle writable uid e b :
  (broadcastChatEvent writable uid e b).1
  = settle writable uid (broadcast_call uid e b).2 (broadcast_call uid e b).1.
Proof.
  unfold broadcastChatEvent, broadcast_call, settle.
  destruct (chatClients b !! uid) as [[|w ws]|] eqn:E; cbn [fst snd].
  - cbn. rewrite E. unfold failed. cbn.
    f_equal. symmetry. by apply insert_id.
  - rewrite E. by rewrite filter_failed.
  - cbn. by rewrite E.
Qed.

(** X12: an event broadcast to a user whose registered writers all fail is
    lost: it is handed to the failing writers and it is not queued. The
    writers are dropped only when the rejected writes are handled, after
    the call has returned: an event that is broadcast before that is lost
    in the same way, and an event that is broadcast after it is queued. *)
Theorem broadcast_failed_writes_lose_event writable uid e1 e2 e3 b :
  clients_of uid b <> [] ->
  Forall (fun w => writable (conn w) = false) (clients_of uid b) ->
  let c1 := broadcast_call uid e1 b in
  let c2 := broadcast_call uid e2 c1.1 in
  let settled := settle writable uid c2.2 (settle writable uid c1.2 c2.1) in
  let c3 := broadcast_call uid e3 settled in
  (c1.1 = b /\ c1.2 = clients_of uid b) /\
  (c2.1 = b /\ c2.2 = clients_of uid b) /\
  (clients_of uid settled = [] /\ queued uid settled = queued uid b) /\
  (c3.2 = [] /\ queued uid c3.1 = queued uid b ++ [e3]).
Proof.
  intros Hne Hall. cbv zeta.
  unfold clients_of in *.
  destruct (chatClients b !! uid) as [[|w ws]|] eqn:E; [done| |done].
  simpl in Hne, Hall. simpl default.
  assert (forall e, broadcast_call uid e b = (b, w :: ws)) as Hcall.
  { intros e. unfold broadcast_call. by rewrite E. }
  rewrite (Hcall e1). cbn [fst snd]. rewrite (Hcall e2). cbn [fst snd].
  split; [done|]. split; [done|].
  set (s1 := settle writable uid (w :: ws) b).
  assert (chatClients s1 !! uid = Some [] /\ pendingEvents s1 = pendingEvents b)
    as [Hs1 Hp1].
  { subst s1. unfold settle. rewrite E. cbn [chatClients pendingEvents].
    rewrite lookup_insert_eq.
    by rewrite (failed_all writable (w :: ws) Hall), filter_out_all. }
  set (s2 := settle writable uid (w :: ws) s1).
  assert (chatClients s2 !! uid = Some [] /\ pendingEvents s2 = pendingEvents b)
    as [Hs2 Hp2].
  { subst s2. unfold settle. rewrite Hs1. cbn. by rewrite lookup_insert_eq. }
  split.
  - unfold queued. by rewrite Hs2, Hp2.
  - unfold broadcast_call, queued. rewrite Hs2. cbn.
    by rewrite lookup_insert_eq, Hp2.
Qed.

Lemma broadcast_failed_writes_lose_event_witness :
  let b := bus Scenarios.watched_server in
  let c1 := broadcast_call "u1" Processing b in
  let c2 := broadcast_call "u1" Idle c1.1 in
  let settled :=
    settle (fun _ => false) "u1" c2.2 (settle (fun _ => false) "u1" c1.2 c2.1) in
  let c3 := broadcast_call "u1" Connected settled in
  (c1.1 = b /\ c1.2 = clients_of "u1" b) /\
  (c2.1 = b /\ c2.2 = clients_of "u1" b) /\
  (clients_of "u1" settled = [] /\ queued "u1" settled = queued "u1" b) /\
  (c3.2 = [] /\ queued "u1" c3.1 = queued "u1" b ++ [Connected]).
Proof.
  apply (broadcast_failed_writes_lose_event (fun _ => false) "u1"%string
           Processing Idle Connected (bus Scenarios.watched_server)).
  - discriminate.
  - repeat constructor.
Defined.

Lemma delete_first_fresh wid w ws :
  wid ∉ map id ws -> id w = wid -> delete_first wid (ws ++ [w]) = ws.
Proof.
  intros Hf Hw. induction ws as [|x ws IH]; simpl.
  - by rewrite bool_decide_eq_true_2.
  - simpl in Hf. apply not_elem_of_cons in Hf as [Hx Hf].
    rewrite bool_decide_eq_false_2 by done. by rewrite IH.
Qed.

(** X13: a stream that opens and is then aborted leaves the writers of
    every user as they were, provided no writer of the user carries the
    same writer id; the events that were queued for the user have been
    flushed to the stream and are gone. *)
Theorem chatStream_abort_restores users now uid rcp stream b :
  uid <> ""%string ->
  writer_id uid now ∉ map id (clients_of uid b) ->
  stream ∉ map conn (clients_of uid b) ->
  let r := chatStream users now (Some uid) rcp stream b in
  let b' := on_abort uid (writer_id uid now) (stream_bus r b) in
  (forall u, clients_of u b' = clients_of u b) /\
  queued uid b' = [] /\
  (forall other, other <> uid -> queued other b' = queued other b).
Proof.
  intros Hne Hid Hconn. cbv zeta. unfold chatStream. simpl.
  rewrite bool_decide_eq_false_2 by done. simpl.
  set (w := {| id := writer_id uid now; conn := stream |}).
  assert (forall b1,
    chatClients b1 = chatClients (addChatClient uid w b) ->
    (forall u, clients_of u (on_abort uid (writer_id uid now) b1)
               = clients_of u b) /\
    pendingEvents (on_abort uid (writer_id uid now) b1) = pendingEvents b1)
    as Habort.
  { intros b1 Hb1. unfold on_abort, removeChatClient. rewrite Hb1.
    unfold addChatClient. simpl. rewrite lookup_insert_eq.
    fold (clients_of uid b). unfold set_add.
    rewrite bool_decide_eq_false_2 by done.
    rewrite (delete_first_fresh _ w _ Hid eq_refl).
    split; [|by destruct (clients_of uid b)].
    intros u. unfold clients_of at 1.
    destruct (clients_of uid b) as [|x xs] eqn:E; simpl.
    - destruct (decide (u = uid)) as [->|Hu].
      + by rewrite lookup_delete_eq, E.
      + rewrite lookup_delete_ne, lookup_insert_ne by done. done.
    - destruct (decide (u = uid)) as [->|Hu].
      + by rewrite lookup_insert_eq, E.
      + rewrite !lookup_insert_ne by done. done. }
  destruct (pendingEvents b !! uid) as [[|e q]|] eqn:E; simpl.
  - destruct (Habort (addChatClient uid w b) eq_refl) as [H1 H2].
    split; [exact H1|]. unfold queued. rewrite H2. simpl. by rewrite E.
  - destruct (Habort (clearPendingEvents uid (addChatClient uid w b)) eq_refl)
      as [H1 H2].
    split; [exact H1|]. unfold queued. rewrite H2. simpl.
    rewrite lookup_delete_eq.
    split; [done|]. intros other Ho. by rewrite lookup_delete_ne.
  - destruct (Habort (addChatClient uid w b) eq_refl) as [H1 H2].
    split; [exact H1|]. unfold queued. rewrite H2. simpl. by rewrite E.
Qed.

Lemma chatStream_abort_restores_witness :
  let r := chatStream Scenarios.late_users 2000 (Some "u1"%string) None 6
             (bus Scenarios.watched_server) in
  let b' := on_abort "u1" (writer_id "u1" 2000)
              (stream_bus r (bus Scenarios.watched_server)) in
  (forall u, clients_of u b' = clients_of u (bus Scenarios.watched_server)) /\
  queued "u1" b' = [] /\
  (forall other, other <> "u1"%string ->
                 queued other b' = queued other (bus Scenarios.watched_server)).
Proof.
  apply (chatStream_abort_restores Scenarios.late_users 2000 "u1"%string None 6
           (bus Scenarios.watched_server)).
  - discriminate.
  - vm_compute. intros H. apply list_elem_of_singleton in H. discriminate H.
  - vm_compute. intros H. apply list_elem_of_singleton in H. discriminate H.
Defined.

Lemma chatStream_clients users now uid rcp stream b :
  uid <> ""%string ->
  chatClients (stream_bus (chatStream users now (Some uid) rcp stream b) b) =
  chatClients
    (addChatClient uid {| id := writer_id uid now; conn := stream |} b).
Proof.
  intros Hne. unfold chatStream. simpl.
  rewrite bool_decide_eq_false_2 by done. simpl.
  by destruct (pendingEvents b !! uid) as [[|e q]|].
Qed.

(** X14: the writer id is the user id and the clock in milliseconds, so
    two streams of a user that open within the same millisecond share it,
    and aborting the second one unregisters the writer of the first: the
    first stream, still open, is sent no further event, and the events go
    to the aborted stream. *)
Theorem chatStream_same_millisecond users now uid rcp rcp' s1 s2 b e :
  uid <> ""%string -> s1 <> s2 -> clients_of uid b = [] ->
  let r1 := chatStream users now (Some uid) rcp s1 b in
  let r2 := chatStream users now (Some uid) rcp' s2 (stream_bus r1 b) in
  let b' := on_abort uid (writer_id uid now) (stream_bus r2 (stream_bus r1 b)) in
  map conn (clients_of uid b') = [s2] /\
  (broadcastChatEvent (fun _ => true) uid e b').2 = [(s2, e)].
Proof.
  intros Hne Hs Hc. cbv zeta.
  set (w1 := {| id := writer_id uid now; conn := s1 |}).
  set (w2 := {| id := writer_id uid now; conn := s2 |}).
  set (b1 := stream_bus (chatStream users now (Some uid) rcp s1 b) b).
  set (b2 := stream_bus (chatStream users now (Some uid) rcp' s2 b1) b1).
  assert (chatClients b1 !! uid = Some [w1]) as H1.
  { subst b1. rewrite chatStream_clients by done. unfold addChatClient. simpl.
    rewrite lookup_insert_eq. fold (clients_of uid b). by rewrite Hc. }
  assert (chatClients b2 !! uid = Some [w1; w2]) as H2.
  { subst b2. rewrite chatStream_clients by done. unfold addChatClient. simpl.
    rewrite lookup_insert_eq, H1. simpl. unfold set_add. simpl.
    rewrite bool_decide_eq_false_2; [done|].
    intros H. apply list_elem_of_singleton in H. congruence. }
  assert (chatClients (on_abort uid (writer_id uid now) b2) !! uid = Some [w2])
    as H3.
  { unfold on_abort, removeChatClient. rewrite H2. simpl.
    rewrite bool_decide_eq_true_2 by done. simpl. by rewrite lookup_insert_eq. }
  unfold clients_of, broadcastChatEvent. by rewrite H3.
Qed.

Lemma chatStream_same_millisecond_witness :
  let r1 := chatStream Scenarios.late_users 2000 (Some "u1"%string) None 5
              Scenarios.late_bus in
  let r2 := chatStream Scenarios.late_users 2000 (Some "u1"%string) None 6
              (stream_bus r1 Scenarios.late_bus) in
  let b' := on_abort "u1" (writer_id "u1" 2000)
              (stream_bus r2 (stream_bus r1 Scenarios.late_bus)) in
  map conn (clients_of "u1" b') = [6] /\
  (broadcastChatEvent (fun _ => true) "u1" Idle b').2 = [(6, Idle)].
Proof.
  apply (chatStream_same_millisecond Scenarios.late_users 2000 "u1"%string
           None None 5 6 Scenarios.late_bus Idle).
  - discriminate.
  - discriminate.
  - reflexivity.
Defined.


(** ** Pending removals and their timers *)

Import Lifecycle.

Lemma armed_forget uid us' b' sv :
  removals_armed sv ->
  removals_armed
    {| sessions :=
         {| users := us';
            pendingRemovals := delete uid (pendingRemovals (sessions sv)) |};
       timers :=
         {| armed :=
              match pendingRemovals (sessions sv) !! uid with
              | Some existing => delete existing (armed (timers sv))
              | None => armed (timers sv)
              end;
            nextTimer := nextTimer (timers sv) |};
       bus := b' |}.
Proof.
  intros Hsv uid' t' Hpr. cbn in *.
  apply lookup_delete_Some in Hpr as [Hne Hpr].
  pose proof (Hsv _ _ Hpr) as Harm.
  destruct (pendingRemovals (sessions sv) !! uid) as [ex|] eqn:E; [|done].
  rewrite lookup_delete_ne; [done|]. intros ->.
  pose proof (Hsv _ _ E) as Hex. congruence.
Qed.

Lemma armed_arm uid sv :
  removals_armed sv -> timers_consistent sv ->
  removals_armed
    {| sessions :=
         {| users := users (sessions sv);
            pendingRemovals :=
              <[uid := nextTimer (timers sv)]> (pendingRemovals (sessions sv)) |};
       timers :=
         {| armed := <[nextTimer (timers sv) := uid]> (armed (timers sv));
            nextTimer := S (nextTimer (timers sv)) |};
       bus := bus sv |}.
Proof.
  intros Hsv [_ Hn] uid' t' Hpr. cbn in *.
  apply lookup_insert_Some in Hpr as [[<- <-]|[Hne Hold]].
  - by rewrite lookup_insert_eq.
  - pose proof (Hsv _ _ Hold) as Harm.
    assert (t' < nextTimer (timers sv)) as Hlt by (apply Hn; by eexists).
    rewrite lookup_insert_ne by lia. done.
Qed.

Lemma server_step_armed sv sv' :
  server_step sv sv' -> timers_consistent sv -> removals_armed sv ->
  removals_armed sv'.
Proof.
  intros Hstep Hcons Hsv.
  destruct Hstep as [uid sv|uid sv|uid grace sv|uid sv
                    |writable now timer sv|b sv|uid u sv Hu].
  - by rewrite getOrCreate_final.
  - rewrite remove_final. by apply armed_forget.
  - destruct (users (sessions sv) !! uid) as [u|] eqn:Hu.
    + rewrite (softRemove_known uid grace sv u Hu).
      pose proof (armed_forget uid
                    (<[uid := clearAppSession u]> (users (sessions sv)))
                    (bus sv) sv Hsv) as Hforget.
      apply (armed_arm uid) in Hforget; cbn in *.
      * by rewrite insert_delete_eq in Hforget.
      * apply consistent_forget; [done|].
        intros uid' Hne Hsome. by rewrite lookup_insert_ne.
    + by rewrite softRemove_unknown.
  - rewrite cancelRemoval_final. by apply armed_forget.
  - destruct (armed (timers sv) !! timer) as [uid|] eqn:Harm.
    + destruct (proj1 Hcons _ _ Harm) as [Hpr [u Hu]].
      rewrite (fire_armed writable now timer uid sv Harm).
      rewrite (grace_expired_known writable now uid _ u) by exact Hu.
      unfold final. cbn.
      pose proof (armed_forget uid (delete uid (users (sessions sv)))
                    (clearPendingEvents uid
                       (broadcastChatEvent writable uid
                          (SessionEnded (txt "grace period expired") now)
                          (bus sv)).1)
                    sv Hsv) as Hforget.
      by rewrite Hpr in Hforget.
    + by rewrite fire_unarmed.
  - done.
  - done.
Qed.

Lemma reachable_armed sv : reachable sv -> removals_armed sv.
Proof.
  unfold reachable. intros H.
  eapply (rtc_ind_r (fun sv => removals_armed sv)); [| |exact H].
  - intros uid t Ht. cbn in Ht. by rewrite lookup_empty in Ht.
  - intros sv1 sv2 H1 Hstep IH.
    eapply server_step_armed; [exact Hstep| |exact IH].
    by apply reachable_consistent.
Qed.

Lemma reachable_no_timer uid sv :
  reachable sv -> pendingRemovals (sessions sv) !! uid = None ->
  no_timer_for uid sv.
Proof.
  intros Hr Hpr t Ht.
  destruct (proj1 (reachable_consistent sv Hr) _ _ Ht) as [Hpr' _]. congruence.
Qed.

(** X15: in every state that the server can reach, the pending removals
    and the armed timers correspond one to one: a user has a pending
    removal with a given handle exactly when the timer of that handle is
    armed for them. So a user in the grace period always has a live timer,
    and no user has two. *)
Theorem removals_match_timers sv :
  reachable sv ->
  (forall uid t,
     pendingRemovals (sessions sv) !! uid = Some t <->
     armed (timers sv) !! t = Some uid) /\
  (forall uid t1 t2,
     armed (timers sv) !! t1 = Some uid -> armed (timers sv) !! t2 = Some uid ->
     t1 = t2).
Proof.
  intros Hr. pose proof (reachable_consistent sv Hr) as [Hc _].
  pose proof (reachable_armed sv Hr) as Ha. split.
  - intros uid t. split; [apply Ha|]. intros Ht. by destruct (Hc _ _ Ht).
  - intros uid t1 t2 H1 H2.
    destruct (Hc _ _ H1) as [P1 _]. destruct (Hc _ _ H2) as [P2 _]. congruence.
Qed.

Lemma softRemove_reachable uid grace sv :
  reachable sv -> reachable (final (softRemove uid grace sv)).
Proof. intros H. eapply rtc_r; [exact H|apply step_softRemove]. Qed.

Lemma removals_match_timers_witness :
  let sv := final (softRemove "u1" 60000 Scenarios.watched_server) in
  (forall uid t,
     pendingRemovals (sessions sv) !! uid = Some t <->
     armed (timers sv) !! t = Some uid) /\
  (forall uid t1 t2,
     armed (timers sv) !! t1 = Some uid -> armed (timers sv) !! t2 = Some uid ->
     t1 = t2).
Proof.
  apply (removals_match_timers
           (final (softRemove "u1" 60000 Scenarios.watched_server))).
  apply softRemove_reachable. apply watched_server_reachable.
Defined.

(** ** Reconnecting within the grace period *)

(** X16: when a registered user is soft-removed and the removal is then
    cancelled, [cancelRemoval] answers [true], the user is still
    registered, with the glasses session detached, every other user is
    registered as before, no removal is pending and no timer is armed for
    the user, and the timer that [softRemove] had armed does nothing if it
    is fired. *)
Theorem reconnect_within_grace uid grace sv u :
  reachable sv ->
  users (sessions sv) !! uid = Some u ->
  let r := cancelRemoval uid (final (softRemove uid grace sv)) in
  result r = true /\
  (exists u', users (sessions (final r)) !! uid = Some u' /\
              appSession u' = None) /\
  (forall other, other <> uid ->
     users (sessions (final r)) !! other = users (sessions sv) !! other) /\
  pendingRemovals (sessions (final r)) !! uid = None /\
  no_timer_for uid (final r) /\
  (forall writable now,
     fire writable now (nextTimer (timers sv)) (final r) = (tt, final r, [])).
Proof.
  intros Hr Hu. cbv zeta.
  assert (reachable (final (cancelRemoval uid (final (softRemove uid grace sv)))))
    as Hr'.
  { eapply rtc_r; [apply softRemove_reachable, Hr|apply step_cancelRemoval]. }
  assert (pendingRemovals
            (sessions (final (cancelRemoval uid (final (softRemove uid grace sv)))))
          !! uid = None) as Hnone.
  { rewrite cancelRemoval_final. cbn. apply lookup_delete_eq. }
  pose proof (reachable_no_timer uid _ Hr' Hnone) as Hno.
  split; [|split; [|split; [|split; [done|split; [done|]]]]].
  - unfold cancelRemoval, bind, get, result.
    rewrite (softRemove_known uid grace sv u Hu). cbn.
    by rewrite lookup_insert_eq.
  - exists (clearAppSession u).
    rewrite cancelRemoval_final, (softRemove_known uid grace sv u Hu). cbn.
    by rewrite lookup_insert_eq.
  - intros other Ho.
    rewrite cancelRemoval_final, (softRemove_known uid grace sv u Hu). cbn.
    by rewrite lookup_insert_ne.
  - intros writable now. apply fire_unarmed.
    rewrite cancelRemoval_final, (softRemove_known uid grace sv u Hu). cbn.
    rewrite lookup_insert_eq. apply lookup_delete_eq.
Qed.

Lemma reconnect_within_grace_witness :
  let r := cancelRemoval "u1"
             (final (softRemove "u1" 60000 Scenarios.watched_server)) in
  result r = true /\
  (exists u', users (sessions (final r)) !! "u1"%string = Some u' /\
              appSession u' = None) /\
  (forall other, other <> "u1"%string ->
     users (sessions (final r)) !! other
     = users (sessions Scenarios.watched_server) !! other) /\
  pendingRemovals (sessions (final r)) !! "u1"%string = None /\
  no_timer_for "u1" (final r) /\
  (forall writable now,
     fire writable now (nextTimer (timers Scenarios.watched_server)) (final r)
     = (tt, final r, [])).
Proof.
  apply (reconnect_within_grace "u1"%string 60000 Scenarios.watched_server
           Scenarios.late_user).
  - apply watched_server_reachable.
  - reflexivity.
Defined.

(** ** The debug endpoint and the [onStop] handler *)

Lemma truthy_Some uid : uid <> ""%string -> truthy (Some uid) = Some uid.
Proof. intros H. unfold truthy. by rewrite bool_decide_eq_false_2. Qed.

Lemma broadcast_run writable uid ev sv :
  broadcast writable uid ev sv =
  (tt, set_bus (broadcastChatEvent writable uid ev (bus sv)).1 sv,
   ChatBroadcast uid ev
     :: map (fun w => ChatWrite w.1 w.2)
            (broadcastChatEvent writable uid ev (bus sv)).2).
Proof.
  unfold broadcast, bind, get, put, emit, emits.
  by destruct (broadcastChatEvent writable uid ev (bus sv)) as [b written].
Qed.

Lemma remove_run uid sv u :
  users (sessions sv) !! uid = Some u ->
  remove uid sv =
  (tt, final (remove uid sv),
   match pendingRemovals (sessions sv) !! uid with
   | Some t => [ClearTimeout t]
   | None => []
   end ++ [UserCleanup uid; UserDelete uid]).
Proof.
  intros Hu. unfold remove, clearTimeout, bind, get, modify, emit, ret, final.
  destruct sv as [[us pr] [ar nx] b]. cbn in *.
  destruct (pr !! uid) as [t|] eqn:Ht; cbn; rewrite Hu; reflexivity.
Qed.

Lemma softRemove_run uid grace sv u :
  users (sessions sv) !! uid = Some u ->
  softRemove uid grace sv =
  (tt, final (softRemove uid grace sv),
   match pendingRemovals (sessions sv) !! uid with
   | Some t => [ClearTimeout t]
   | None => []
   end ++ [SetTimeout (nextTimer (timers sv)) grace]).
Proof.
  intros Hu.
  unfold softRemove, setTimeout, clearTimeout, bind, get, put, modify, emit,
    ret, final.
  destruct sv as [[us pr] [ar nx] b]. cbn in *. rewrite Hu.
  destruct (pr !! uid) as [t|] eqn:Ht; reflexivity.
Qed.

Lemma softRemove_unknown_run uid grace sv :
  users (sessions sv) !! uid = None -> softRemove uid grace sv = (tt, sv, []).
Proof. intros Hu. unfold softRemove, bind, get, ret. cbn. by rewrite Hu. Qed.

(** X17: a hard kill of a registered user broadcasts [session_ended],
    clears the queue of the user, cancels a pending grace-period timer and
    removes the user. Afterwards the user is unknown to the registry, has
    no queue and no pending removal, and no timer is armed for them, so no
    second [session_ended] follows from a grace period that was running. *)
Theorem killSession_hard writable now uid sv u :
  reachable sv -> uid <> ""%string ->
  users (sessions sv) !! uid = Some u ->
  let ended := SessionEnded (txt "debug-hard-kill") now in
  let r := killSession writable now (Some uid) (Some "hard"%string) sv in
  result r = Killed "hard" /\
  effects r =
    [ChatBroadcast uid ended]
      ++ map (fun w => ChatWrite w.1 w.2)
             (broadcastChatEvent writable uid ended (bus sv)).2
      ++ [ClearPending uid]
      ++ match pendingRemovals (sessions sv) !! uid with
         | Some t => [ClearTimeout t]
         | None => []
         end
      ++ [UserCleanup uid; UserDelete uid] /\
  users (sessions (final r)) !! uid = None /\
  pendingRemovals (sessions (final r)) !! uid = None /\
  queued uid (bus (final r)) = [] /\
  no_timer_for uid (final r).
Proof.
  intros Hr Hne Hu ended r.
  set (b1 := (broadcastChatEvent writable uid ended (bus sv)).1).
  set (sv2 := set_bus (clearPendingEvents uid b1) sv).
  assert (r = (Killed "hard", final (remove uid sv2),
               [ChatBroadcast uid ended]
                 ++ map (fun w => ChatWrite w.1 w.2)
                        (broadcastChatEvent writable uid ended (bus sv)).2
                 ++ [ClearPending uid]
                 ++ match pendingRemovals (sessions sv) !! uid with
                    | Some t => [ClearTimeout t]
                    | None => []
                    end
                 ++ [UserCleanup uid; UserDelete uid])) as Hrun.
  { subst r. unfold killSession. rewrite truthy_Some by done.
    change (bool_decide
              (default "soft"%string (truthy (Some "hard"%string))
               = "hard"%string)) with true. cbv iota.
    rewrite bind_run. unfold get at 1, get_user. cbv beta iota. rewrite Hu.
    rewrite bind_run, broadcast_run. fold ended b1. cbv beta iota.
    rewrite bind_run. unfold clearPending at 1. rewrite bind_run.
    unfold modify at 1, emit at 1. cbv beta iota. cbn [bus set_bus].
    change (set_bus (clearPendingEvents uid b1) (set_bus b1 sv)) with sv2.
    rewrite bind_run, (remove_run uid sv2 u) by exact Hu.
    cbv beta iota. unfold ret, final. cbn [fst snd app].
    change (pendingRemovals (sessions sv2)) with (pendingRemovals (sessions sv)).
    by rewrite ?app_nil_r, <- ?app_assoc. }
  assert (reachable (final (remove uid sv2))) as Hr2.
  { eapply rtc_r; [|apply step_remove].
    eapply rtc_r; [exact Hr|apply step_bus]. }
  assert (final r = final (remove uid sv2)) as -> by (by rewrite Hrun).
  split; [by rewrite Hrun|]. split; [by rewrite Hrun|].
  assert (pendingRemovals (sessions (final (remove uid sv2))) !! uid = None)
    as Hnone by (rewrite remove_final; cbn; apply lookup_delete_eq).
  split; [rewrite remove_final; cbn; apply lookup_delete_eq|].
  split; [done|]. split.
  - rewrite remove_final. unfold queued. cbn. by rewrite lookup_delete_eq.
  - by apply reachable_no_timer.
Qed.

Lemma killSession_hard_witness :
  let sv := final (softRemove "u1" 60000 Scenarios.watched_server) in
  let r := killSession (fun _ => true) 5000 (Some "u1"%string)
             (Some "hard"%string) sv in
  result r = Killed "hard" /\
  users (sessions (final r)) !! "u1"%string = None /\
  no_timer_for "u1" (final r).
Proof.
  destruct (killSession_hard (fun _ => true) 5000 "u1"%string
              (final (softRemove "u1" 60000 Scenarios.watched_server))
              (clearAppSession Scenarios.late_user))
    as (H1 & _ & H3 & _ & _ & H6).
  - apply softRemove_reachable, watched_server_reachable.
  - discriminate.
  - reflexivity.
  - split; [exact H1|]. split; [exact H3|exact H6].
Defined.

(** X18: a soft kill of a registered user, which is any kill whose mode
    is not "hard", does what [onStop] does with the reason
    "debug-soft-kill". *)
Theorem killSession_soft writable now uid mode sv u :
  uid <> ""%string -> mode <> Some "hard"%string ->
  users (sessions sv) !! uid = Some u ->
  let r := onStop writable now uid (txt "debug-soft-kill") sv in
  killSession writable now (Some uid) mode sv
  = (Killed "soft", final r, effects r).
Proof.
  intros Hne Hmode Hu r. subst r. unfold killSession, onStop.
  rewrite truthy_Some by done.
  assert (bool_decide (default "soft"%string (truthy mode) = "hard"%string)
          = false) as ->.
  { apply bool_decide_eq_false_2. destruct mode as [m|]; [|done]. simpl.
    case_bool_decide; [done|]. simpl. congruence. }
  rewrite !bind_run. unfold get at 1, get_user. cbv beta iota. rewrite Hu.
  rewrite !bind_run, broadcast_run. cbv beta iota.
  rewrite !bind_run.
  rewrite (softRemove_run uid DEFAULT_GRACE_MS _ u) by exact Hu.
  cbv beta iota. unfold ret, final, effects. cbn [fst snd].
  by rewrite app_nil_r.
Qed.

Lemma killSession_soft_witness :
  let r := onStop (fun _ => true) 5000 "u1" (txt "debug-soft-kill")
             Scenarios.watched_server in
  killSession (fun _ => true) 5000 (Some "u1"%string) (Some "gentle"%string)
    Scenarios.watched_server
  = (Killed "soft", final r, effects r).
Proof.
  apply (killSession_soft (fun _ => true) 5000 "u1"%string
           (Some "gentle"%string) Scenarios.watched_server Scenarios.late_user).
  - discriminate.
  - discriminate.
  - reflexivity.
Defined.

(** X19: [killSession] refuses a request exactly when the user id is
    missing or empty (status 400) or names no registered user (status
    404); a refused request changes nothing and has no effect. *)
Theorem killSession_refuses writable now userId mode sv :
  let r := killSession writable now userId mode sv in
  (result r = UserIdRequired <-> truthy userId = None) /\
  (result r = NoSession <->
   exists uid, truthy userId = Some uid /\ users (sessions sv) !! uid = None) /\
  ((forall m, result r <> Killed m) -> final r = sv /\ effects r = []).
Proof.
  intros r.
  assert ((truthy userId = None /\ r = (UserIdRequired, sv, [])) \/
          (exists uid, truthy userId = Some uid /\
                       users (sessions sv) !! uid = None /\
                       r = (NoSession, sv, [])) \/
          (exists uid u m st l, truthy userId = Some uid /\
                                users (sessions sv) !! uid = Some u /\
                                r = (Killed m, st, l))) as Hcases.
  { subst r. unfold killSession.
    destruct (truthy userId) as [uid|] eqn:Huid; [|by left].
    rewrite bind_run. unfold get, get_user. cbv beta iota.
    destruct (users (sessions sv) !! uid) as [u|] eqn:Hu.
    2:{ right. left. exists uid. split; [done|]. split; [done|]. reflexivity. }
    right. right. exists uid, u. case_bool_decide.
    - rewrite !bind_run, broadcast_run. cbv beta iota.
      rewrite !bind_run. unfold clearPending at 1. rewrite !bind_run.
      unfold modify at 1, emit at 1. cbv beta iota.
      rewrite !bind_run.
      match goal with
      | |- context [remove uid ?s] => destruct (remove uid s) as [[[] s3] l3]
      end.
      unfold ret. by eexists _, _, _.
    - rewrite !bind_run, broadcast_run. cbv beta iota. rewrite !bind_run.
      match goal with
      | |- context [softRemove uid ?g ?s] =>
          destruct (softRemove uid g s) as [[[] s3] l3]
      end.
      unfold ret. by eexists _, _, _. }
  clearbody r.
  destruct Hcases as [[Hn ->]|[(uid & Hn & Hu & ->)|(uid & u & m & st & l & Hn & Hu & ->)]];
    unfold result, final, effects; cbn.
  - split; [done|]. split; [|done].
    split; [done|]. intros (uid & H & _). congruence.
  - split; [split; [done|congruence]|]. split; [|done].
    split; [|done]. intros _. by exists uid.
  - split; [split; [done|congruence]|]. split.
    + split; [done|]. intros (uid' & H & H'). congruence.
    + intros H. by destruct (H m).
Qed.

Lemma killSession_refuses_witness :
  final (killSession (fun _ => true) 5000 (Some "nobody"%string) None
           Scenarios.watched_server) = Scenarios.watched_server /\
  effects (killSession (fun _ => true) 5000 (Some "nobody"%string) None
             Scenarios.watched_server) = [].
Proof.
  apply (proj2 (proj2 (killSession_refuses (fun _ => true) 5000
                         (Some "nobody"%string) None
                         Scenarios.watched_server))).
  intros m. discriminate.
Defined.

(** X20: [onStop] for a registered user broadcasts
    [session_reconnecting], then cancels the timer of a pending removal
    and arms a timer of 60 seconds, which becomes the pending removal.
    The user stays registered, with the glasses session detached, and
    every other user is registered as before. [onStop] does not clear the
    events queued for the user: the new event is queued behind them when
    no stream is registered. *)
Theorem onStop_grace writable now uid reason sv u :
  users (sessions sv) !! uid = Some u ->
  let ev := SessionReconnecting reason now in
  let r := onStop writable now uid reason sv in
  effects r =
    [ChatBroadcast uid ev]
      ++ map (fun w => ChatWrite w.1 w.2)
             (broadcastChatEvent writable uid ev (bus sv)).2
      ++ match pendingRemovals (sessions sv) !! uid with
         | Some t => [ClearTimeout t]
         | None => []
         end
      ++ [SetTimeout (nextTimer (timers sv)) 60000] /\
  (exists u', users (sessions (final r)) !! uid = Some u' /\
              appSession u' = None) /\
  (forall other, other <> uid ->
     users (sessions (final r)) !! other = users (sessions sv) !! other) /\
  pendingRemovals (sessions (final r)) !! uid = Some (nextTimer (timers sv)) /\
  armed (timers (final r)) !! nextTimer (timers sv) = Some uid /\
  queued uid (bus (final r)) =
    queued uid (bus sv)
      ++ match BusRuns.clients_of uid (bus sv) with [] => [ev] | _ => [] end.
Proof.
  intros Hu ev r.
  set (sv1 := set_bus (broadcastChatEvent writable uid ev (bus sv)).1 sv).
  assert (r = (tt, final (softRemove uid DEFAULT_GRACE_MS sv1),
               [ChatBroadcast uid ev]
                 ++ map (fun w => ChatWrite w.1 w.2)
                        (broadcastChatEvent writable uid ev (bus sv)).2
                 ++ match pendingRemovals (sessions sv) !! uid with
                    | Some t => [ClearTimeout t]
                    | None => []
                    end
                 ++ [SetTimeout (nextTimer (timers sv)) 60000])) as Hrun.
  { subst r. unfold onStop.
    rewrite bind_run, broadcast_run. fold ev sv1. cbv beta iota.
    pose proof (softRemove_run uid DEFAULT_GRACE_MS sv1 u Hu) as E.
    destruct (softRemove uid DEFAULT_GRACE_MS sv1) as [[[] s3] l3].
    injection E as ->. reflexivity. }
  assert (final r = final (softRemove uid DEFAULT_GRACE_MS sv1)) as ->
    by (by rewrite Hrun).
  split; [by rewrite Hrun|].
  rewrite (softRemove_known uid DEFAULT_GRACE_MS sv1 u Hu).
  cbn [sessions timers bus set_bus users pendingRemovals armed nextTimer sv1].
  rewrite !lookup_insert_eq.
  split; [by exists (clearAppSession u)|].
  split; [intros other Ho; by rewrite lookup_insert_ne|].
  split; [done|]. split; [done|].
  unfold queued, BusRuns.clients_of, sv1, broadcastChatEvent.
  destruct (chatClients (bus sv) !! uid) as [[|w ws]|]; cbn;
    rewrite ?lookup_insert_eq, ?app_nil_r; done.
Qed.

Lemma onStop_grace_witness :
  let r := onStop (fun _ => true) 5000 "u1" (txt "user_disabled")
             Scenarios.watched_server in
  pendingRemovals (sessions (final r)) !! "u1"%string = Some 1 /\
  armed (timers (final r)) !! 1 = Some "u1"%string.
Proof.
  destruct (onStop_grace (fun _ => true) 5000 "u1"%string
              (txt "user_disabled") Scenarios.watched_server
              Scenarios.late_user) as (_ & _ & _ & H3 & H4 & _).
  - reflexivity.
  - split; [exact H3|exact H4].
Defined.

(** X21: [onStop] for a user who is not registered changes neither the
    registry nor the timers, but the [session_reconnecting] event is
    broadcast all the same: without an open stream it is queued for the
    unknown user, and no timer is armed that would clear it. *)
Theorem onStop_unknown_user writable now uid reason sv :
  users (sessions sv) !! uid = None ->
  BusRuns.clients_of uid (bus sv) = [] ->
  let ev := SessionReconnecting reason now in
  let r := onStop writable now uid reason sv in
  effects r = [ChatBroadcast uid ev] /\
  sessions (final r) = sessions sv /\
  timers (final r) = timers sv /\
  queued uid (bus (final r)) = queued uid (bus sv) ++ [ev].
Proof.
  intros Hu Hc ev r. subst r. unfold onStop.
  rewrite bind_run, broadcast_run. fold ev. cbv beta iota.
  rewrite softRemove_unknown_run by exact Hu.
  rewrite (broadcast_queues writable uid ev (bus sv) Hc).
  unfold final, effects, queued. cbn. by rewrite lookup_insert_eq.
Qed.

Lemma onStop_unknown_user_witness :
  let ev := SessionReconnecting (txt "gone") 5000 in
  let r := onStop (fun _ => true) 5000 "u2" (txt "gone")
             Scenarios.watched_server in
  effects r = [ChatBroadcast "u2" ev] /\
  sessions (final r) = sessions Scenarios.watched_server /\
  timers (final r) = timers Scenarios.watched_server /\
  queued "u2" (bus (final r)) = queued "u2" (bus Scenarios.watched_server) ++ [ev].
Proof.
  apply (onStop_unknown_user (fun _ => true) 5000 "u2"%string (txt "gone")
           Scenarios.watched_server); reflexivity.
Defined.


(** ** Notifications *)

Import Notifications.

Lemma addNotification_drop now data ns :
  addNotification now data ns =
  drop (length (ns ++ [stored (now, data)]) - MAX_NOTIFICATIONS)
       (ns ++ [stored (now, data)]).
Proof.
  unfold addNotification, slice_last, MAX_NOTIFICATIONS, stored. cbn [fst snd].
  case_bool_decide as Hlen; [done|].
  replace (length _ - 20) with 0 by lia. done.
Qed.

Lemma addNotifications_drop arrivals ns :
  length ns <= MAX_NOTIFICATIONS ->
  addNotifications arrivals ns =
  drop (length (ns ++ map stored arrivals) - MAX_NOTIFICATIONS)
       (ns ++ map stored arrivals).
Proof.
  revert ns. induction arrivals as [|[now data] rest IH]; intros ns Hns.
  - simpl. rewrite app_nil_r. by replace (length ns - _) with 0 by lia.
  - cbn [addNotifications map]. rewrite IH.
    2:{ rewrite addNotification_drop, length_drop, length_app. simpl. lia. }
    rewrite addNotification_drop.
    set (L := ns ++ [stored (now, data)]).
    set (R := map stored rest).
    replace (ns ++ stored (now, data) :: R) with (L ++ R)
      by (subst L; by rewrite <- app_assoc).
    set (a := length L - MAX_NOTIFICATIONS).
    rewrite !length_app, length_drop.
    replace (length L + length R - MAX_NOTIFICATIONS)
      with (a + (length L - a + length R - MAX_NOTIFICATIONS)) by lia.
    rewrite <- drop_drop. f_equal.
    rewrite drop_app_le by lia. done.
Qed.

(** X22: the store is a window on the arrivals: after any number of
    additions it holds the last 20 of the notifications that were stored
    before followed by the new ones, in the order of arrival. *)
Theorem addNotifications_window arrivals ns :
  length ns <= MAX_NOTIFICATIONS ->
  addNotifications arrivals ns =
    drop (length (ns ++ map stored arrivals) - MAX_NOTIFICATIONS)
         (ns ++ map stored arrivals) /\
  length (addNotifications arrivals ns) <= MAX_NOTIFICATIONS /\
  (arrivals <> [] ->
   last (addNotifications arrivals ns) = last (map stored arrivals)).
Proof.
  intros Hns. rewrite (addNotifications_drop arrivals ns Hns).
  split; [done|]. split.
  - rewrite length_drop. lia.
  - intros Hne. destruct (exists_last Hne) as (front & x & ->).
    rewrite map_app, app_assoc. cbn [map].
    rewrite drop_app_le.
    2:{ rewrite !length_app. unfold MAX_NOTIFICATIONS. simpl. lia. }
    by rewrite !last_snoc.
Qed.

Lemma addNotifications_window_witness :
  addNotifications [(1000%N, txt "a"); (2000%N, txt "b")] [] =
    drop (length ([] ++ map stored [(1000%N, txt "a"); (2000%N, txt "b")])
          - MAX_NOTIFICATIONS)
         ([] ++ map stored [(1000%N, txt "a"); (2000%N, txt "b")]) /\
  length (addNotifications [(1000%N, txt "a"); (2000%N, txt "b")] [])
    <= MAX_NOTIFICATIONS.
Proof.
  destruct (addNotifications_window [(1000%N, txt "a"); (2000%N, txt "b")] [])
    as (H1 & H2 & _).
  - simpl. unfold MAX_NOTIFICATIONS. lia.
  - split; [exact H1|exact H2].
Defined.

Lemma slice_last_length {A} (k : nat) (l : list A) :
  1 <= k -> length (slice_last k l) <= k.
Proof.
  intros Hk. unfold slice_last. destruct k; [lia|].
  rewrite length_drop. lia.
Qed.

Lemma slice_back_nat {A} (k : nat) (l : list A) :
  slice_back (Z.of_nat k) l = slice_last k l.
Proof.
  unfold slice_back, slice_last. destruct k as [|k].
  - rewrite bool_decide_eq_false_2 by lia. done.
  - rewrite bool_decide_eq_true_2 by lia. by rewrite Nat2Z.id.
Qed.

Lemma slice_back_suffix {A} (limit : Z) (l : list A) :
  exists front, l = front ++ slice_back limit l.
Proof.
  unfold slice_back. case_bool_decide.
  - exists (take (length l - Z.to_nat limit) l). by rewrite take_drop.
  - exists (take (Z.to_nat (- limit)) l). by rewrite take_drop.
Qed.

Lemma slice_back_length {A} (limit : Z) (l : list A) :
  length (slice_back limit l)
  = if bool_decide (0 < limit)%Z
    then Nat.min (Z.to_nat limit) (length l)
    else length l - Z.to_nat (- limit).
Proof.
  unfold slice_back. case_bool_decide; rewrite length_drop; lia.
Qed.

(** X23: [getRecentNotifications(limit)] returns the data of the last
    notifications that are less than five minutes old, in the order of
    arrival: [limit] of them, or all when there are fewer, for a positive
    limit; all of them for the limit 0; and all but the first [-limit] of
    them for a negative limit. For a limit that is a natural number this
    is the function that the pipeline calls. *)
Theorem getRecentNotifications_limit now limit ns :
  (exists front,
     map n_data (recent now ns)
     = front ++ getRecentNotificationsInt now limit ns) /\
  length (getRecentNotificationsInt now limit ns)
  = (if bool_decide (0 < limit)%Z
     then Nat.min (Z.to_nat limit) (length (recent now ns))
     else length (recent now ns) - Z.to_nat (- limit)) /\
  (forall d, d ∈ getRecentNotificationsInt now limit ns ->
             exists n, n ∈ ns /\ n_data n = d /\ is_recent now n = true) /\
  (forall k : nat,
     getRecentNotificationsInt now (Z.of_nat k) ns
     = getRecentNotifications now k ns).
Proof.
  unfold getRecentNotificationsInt, getRecentNotifications, recent.
  destruct (slice_back_suffix limit
              (filter (fun n => is_recent now n = true) ns)) as [front Hf].
  split; [|split; [|split]].
  - exists (map n_data front). rewrite <- map_app. by rewrite <- Hf.
  - rewrite length_map. apply slice_back_length.
  - intros d Hd. apply list_elem_of_fmap in Hd as (n & -> & Hn).
    assert (n ∈ filter (fun n => is_recent now n = true) ns) as Hin.
    { rewrite Hf. apply elem_of_app. by right. }
    apply list_elem_of_filter in Hin as [Hrec Hin]. by exists n.
  - intros k. by rewrite slice_back_nat.
Qed.

Lemma recent_nil now ns :
  recent now ns = [] <-> hasNotifications now ns = false.
Proof.
  unfold recent, hasNotifications. induction ns as [|n ns IH]; [done|].
  cbn [existsb]. destruct (is_recent now n) eqn:E.
  - rewrite filter_cons_True by done. done.
  - rewrite filter_cons_False by (by rewrite E). done.
Qed.

Lemma formatForPromptInt_none stringify now limit ns :
  formatForPromptInt stringify now limit ns = txt "No recent notifications."
  <-> slice_back limit (recent now ns) = [].
Proof.
  unfold formatForPromptInt, getRecentNotificationsInt. fold (recent now ns).
  destruct (slice_back limit (recent now ns)) as [|x xs]; [done|].
  cbn [map]. destruct (stringify _); split; discriminate.
Qed.

(** X24: for a limit that is not negative, and so for the default limit
    with which the pipeline calls it, [formatForPrompt] yields "No recent
    notifications." exactly when [hasNotifications] answers [false],
    whatever [JSON.stringify] yields or throws. For a negative limit it
    yields that text exactly when at most [-limit] notifications are
    recent, so also while [hasNotifications] answers [true]. *)
Theorem formatForPrompt_none stringify now limit ns :
  ((0 <= limit)%Z ->
   (formatForPromptInt stringify now limit ns = txt "No recent notifications."
    <-> hasNotifications now ns = false)) /\
  ((limit < 0)%Z ->
   (formatForPromptInt stringify now limit ns = txt "No recent notifications."
    <-> length (recent now ns) <= Z.to_nat (- limit))) /\
  formatForPromptInt stringify now 5 ns = formatForPrompt stringify now ns.
Proof.
  split; [|split].
  - intros Hl. rewrite formatForPromptInt_none, <- recent_nil.
    split; [|intros ->; unfold slice_back; case_bool_decide; apply drop_nil].
    intros H. apply (f_equal length) in H.
    rewrite slice_back_length in H. simpl in H.
    case_bool_decide; [|apply length_zero_iff_nil; lia].
    destruct (recent now ns); [done|]. simpl in H. lia.
  - intros Hl. rewrite formatForPromptInt_none.
    split.
    + intros H. apply (f_equal length) in H.
      rewrite slice_back_length in H. simpl in H.
      rewrite bool_decide_eq_false_2 in H by lia. lia.
    + intros H. apply length_zero_iff_nil.
      rewrite slice_back_length, bool_decide_eq_false_2 by lia. lia.
  - unfold formatForPromptInt, formatForPrompt, getRecentNotificationsInt,
      getRecentNotifications.
    change 5%Z with (Z.of_nat 5). by rewrite slice_back_nat.
Qed.

Lemma formatForPrompt_none_witness :
  (formatForPromptInt (fun _ => None) 2000 (-1) [stored (1000%N, txt "a")]
   = txt "No recent notifications."
   <-> length (recent 2000 [stored (1000%N, txt "a")]) <= Z.to_nat (- -1)) /\
  hasNotifications 2000 [stored (1000%N, txt "a")] = true.
Proof.
  split; [|reflexivity].
  apply (proj1 (proj2 (formatForPrompt_none (fun _ => None) 2000 (-1)
                         [stored (1000%N, txt "a")]))).
  lia.
Defined.

(** X25: [cleanupOld] removes only what no later read would return:
    afterwards, at any later time, [getRecentNotifications] and
    [hasNotifications] answer as they would have without the cleanup; and
    a second cleanup at the same time removes nothing. *)
Theorem cleanupOld_keeps_recent now later limit ns :
  (now <= later)%N ->
  getRecentNotifications later limit (cleanupOld now ns)
  = getRecentNotifications later limit ns /\
  hasNotifications later (cleanupOld now ns) = hasNotifications later ns /\
  cleanupOld now (cleanupOld now ns) = cleanupOld now ns.
Proof.
  intros Hle.
  assert (forall n, is_recent later n = true -> is_recent now n = true) as Hmono.
  { intros n. unfold is_recent. intros H%bool_decide_eq_true.
    apply bool_decide_eq_true. lia. }
  assert (filter (fun n => is_recent later n = true) (cleanupOld now ns)
          = filter (fun n => is_recent later n = true) ns) as Hfilter.
  { unfold cleanupOld. induction ns as [|n ns IH]; [done|].
    destruct (is_recent now n) eqn:En.
    - rewrite (filter_cons_True (fun n => is_recent now n = true)) by done.
      destruct (is_recent later n) eqn:El.
      + rewrite !(filter_cons_True (fun n => is_recent later n = true)) by done.
        by rewrite IH.
      + rewrite !(filter_cons_False (fun n => is_recent later n = true))
          by (by rewrite El).
        done.
    - rewrite (filter_cons_False (fun n => is_recent now n = true))
        by (by rewrite En).
      rewrite (filter_cons_False (fun n => is_recent later n = true)); [done|].
      intros H. apply Hmono in H. congruence. }
  split; [|split].
  - unfold getRecentNotifications. by rewrite Hfilter.
  - destruct (hasNotifications later ns) eqn:E.
    + apply not_false_iff_true. intros H. apply recent_nil in H.
      unfold recent in H. rewrite Hfilter in H.
      apply recent_nil in H. congruence.
    + apply recent_nil. unfold recent. rewrite Hfilter. by apply recent_nil.
  - clear Hfilter. unfold cleanupOld. induction ns as [|n ns IH]; [done|].
    destruct (is_recent now n) eqn:En.
    + rewrite (filter_cons_True _ n ns) by done.
      rewrite filter_cons_True by done. by rewrite IH.
    + by rewrite (filter_cons_False _ n ns) by (by rewrite En).
Qed.

Lemma cleanupOld_keeps_recent_witness :
  getRecentNotifications 400000 5
    (cleanupOld 350000 [stored (1000%N, txt "a"); stored (200000%N, txt "b")])
  = getRecentNotifications 400000 5
      [stored (1000%N, txt "a"); stored (200000%N, txt "b")].
Proof.
  destruct (cleanupOld_keeps_recent 350000 400000 5
              [stored (1000%N, txt "a"); stored (200000%N, txt "b")])
    as [H _]; [lia|exact H].
Defined.

(** ** Runs of captures *)

Import Captures.

Lemma slice_last_snoc {A} (k : nat) (l : list A) (x : A) :
  (let pushed := slice_last k l ++ [x] in
   if bool_decide (k < length pushed) then slice_last k pushed else pushed)
  = slice_last k (l ++ [x]).
Proof.
  cbv zeta. destruct k as [|k].
  - simpl. by case_bool_decide.
  - unfold slice_last. rewrite !length_app, length_drop. cbn [length].
    case_bool_decide as Hlen.
    + replace (length l - (length l - S k) + 1 - S k) with 1 in * by lia.
      rewrite drop_app_le by (rewrite length_drop; lia).
      rewrite drop_drop, (drop_app_le l) by lia.
      by replace (length l - S k + 1) with (length l + 1 - S k) by lia.
    + replace (length l - S k) with 0 by lia.
      replace (length l + 1 - S k) with 0 by lia. done.
Qed.

(** X26: after a run of successful captures that starts with an empty
    manager, the last capture is the current photo and the previous
    photos are the last [previousPhotosToKeep] of the earlier captures,
    oldest first, which for a setting of 0 means all of them. The agent
    is handed the newest photo first and then the previous ones, oldest
    first. *)
Theorem capture_all_rotation keep writable uid shots shot :
  let pm := capture_all keep writable uid (shots ++ [shot]) empty_manager in
  currentPhoto pm = Some (stored_of uid shot) /\
  previousPhotos pm = slice_last keep (map (stored_of uid) shots) /\
  getPhotosForContext pm
  = pd_buffer shot :: map pd_buffer (slice_last keep shots) /\
  (1 <= keep -> length (getPhotosForContext pm) <= S keep).
Proof.
  cbv zeta.
  assert (currentPhoto
            (capture_all keep writable uid (shots ++ [shot]) empty_manager)
          = Some (stored_of uid shot) /\
          previousPhotos
            (capture_all keep writable uid (shots ++ [shot]) empty_manager)
          = slice_last keep (map (stored_of uid) shots)) as [Hc Hp].
  { revert shot. induction shots as [|y l IH] using rev_ind; intros shot.
    - split; [done|]. by destruct keep.
    - destruct (IH y) as [Hc Hp].
      rewrite capture_all_snoc.
      set (pm := capture_all keep writable uid (l ++ [y]) empty_manager) in *.
      unfold Photo.takePhoto. cbn [negb]. unfold broadcastPhoto.
      cbn [fst snd currentPhoto previousPhotos rotatePhotos].
      split; [done|].
      unfold rotatePhotos. cbn [previousPhotos]. rewrite Hc, Hp.
      rewrite map_app. cbn [map]. apply slice_last_snoc. }
  assert (map buffer (slice_last keep (map (stored_of uid) shots))
          = map pd_buffer (slice_last keep shots)) as Hbuf.
  { unfold slice_last. destruct keep.
    - by rewrite map_map.
    - rewrite length_map, skipn_map, map_map. done. }
  split; [done|]. split; [done|].
  unfold getPhotosForContext. rewrite Hc, Hp, Hbuf. split; [done|].
  intros Hk. cbn [app length]. rewrite length_map.
  pose proof (slice_last_length keep shots Hk). lia.
Qed.

Lemma capture_all_rotation_witness :
  length (getPhotosForContext
            (capture_all 2 (fun _ => true) "u1"
               (Scenarios.nine_shots ++ [Scenarios.man_shot]) empty_manager))
  <= 3.
Proof.
  apply (proj2 (proj2 (proj2 (capture_all_rotation 2 (fun _ => true) "u1"%string
                                Scenarios.nine_shots Scenarios.man_shot)))).
  lia.
Defined.


(** ** Runs of the query pipeline *)

Import PipelineRuns.

Lemma playProcessingSound_run w u :
  playProcessingSound w u =
  (tt, u,
   match PROCESSING_SOUND_URL w, appSession u with
   | Some url, Some _ => [PlayAudio url]
   | _, _ => []
   end).
Proof.
  unfold playProcessingSound, bind, get.
  by destruct (PROCESSING_SOUND_URL w), (appSession u).
Qed.

Lemma takePhoto_run w u session :
  appSession u = Some session ->
  Pipeline.takePhoto w u =
  ((capture w u).1.1, set_photo (capture w u).1.2 u,
   RequestPhoto :: map (fun x => PhotoWrite x.1 x.2) (capture w u).2).
Proof.
  intros Hs. unfold Pipeline.takePhoto, capture, bind, get, put, emits, ret.
  rewrite Hs. rewrite bool_decide_eq_true_2 by (by eexists).
  destruct (Photo.takePhoto _ _ _ _ _ _) as [[stored pm] written]. cbn.
  by rewrite app_nil_r.
Qed.

Lemma fetchLocation_frame w q u :
  let u' := final (fetchLocation w q u) in
  appSession u' = appSession u /\ photo u' = photo u /\
  notifications u' = notifications u /\ chatHistory u' = chatHistory u /\
  Users.userId u' = Users.userId u.
Proof.
  unfold fetchLocation. destruct (queryNeedsLocation q); [|done].
  destruct (getLatestLocation w) as [[[lat lng]|]|]; try done.
  unfold bind, emit, modify, final. cbn.
  by destruct (fetchContextIfNeeded w q _).
Qed.

Lemma outputResponse_run text sp dp u session :
  appSession u = Some session ->
  outputResponse text sp dp u = (tt, u, output_effects text sp dp).
Proof.
  intros Hs. unfold outputResponse, output_effects, bind, get. rewrite Hs.
  by destruct dp, sp.
Qed.

(** The run of the pipeline with a connected session, step by step. *)
Lemma processQuery_steps w q u session :
  appSession u = Some session ->
  let cam := capability hasCamera false session in
  let dp := capability hasDisplay false session in
  let sp := capability hasSpeaker true session in
  let sound :=
    match PROCESSING_SOUND_URL w with
    | Some url => [PlayAudio url]
    | None => []
    end in
  let u2 := if cam then set_photo (capture w u).1.2 u else u in
  let shooting :=
    if cam
    then RequestPhoto :: map (fun x => PhotoWrite x.1 x.2) (capture w u).2
    else [] in
  let photos := collected w cam u in
  let loc := fetchLocation w q u2 in
  let options := agent_options w q session photos (final loc) in
  let response := default APOLOGY (generateResponse w options) in
  let hadPhoto := bool_decide (0 < length photos) in
  processQuery w q u =
  (response,
   set_chatHistory
     (addTurn (now w) q response hadPhoto (chatHistory (final loc)))
     (final loc),
   sound ++ shooting ++ effects loc ++ [Generate options]
     ++ output_effects (formatResponse w response sp dp) sp dp
     ++ [AddTurn q response hadPhoto]).
Proof.
  intros Hs. cbv zeta. unfold processQuery.
  rewrite bind_run. unfold get at 1. cbv beta iota. rewrite Hs.
  rewrite bind_run, playProcessingSound_run, Hs. cbv beta iota.
  rewrite bind_run.
  set (cam := capability hasCamera false session).
  assert ((if cam
           then
             do currentPhoto <- Pipeline.takePhoto w;
             match currentPhoto with
             | Some _ =>
                 do u0 <- get; ret (Photo.getPhotosForContext (photo u0))
             | None => ret []
             end
           else ret []) u
          = (collected w cam u,
             if cam then set_photo (capture w u).1.2 u else u,
             if cam
             then RequestPhoto
                    :: map (fun x => PhotoWrite x.1 x.2) (capture w u).2
             else [])) as ->.
  { unfold collected. destruct cam; [|done].
    rewrite bind_run, (takePhoto_run w u session Hs).
    destruct (capture w u) as [[[stored|] pm] written]; cbn;
      by rewrite ?app_nil_r. }
  cbv beta iota.
  set (u2 := if cam then set_photo (capture w u).1.2 u else u).
  rewrite bind_run.
  pose proof (fetchLocation_frame w q u2) as (Hsess & _).
  assert (appSession u2 = Some session) as Hs2
    by (subst u2; by destruct cam).
  rewrite Hs2 in Hsess.
  destruct (fetchLocation w q u2) as [[[] u3] l3] eqn:E3.
  unfold final, effects in *. cbn [fst snd] in *.
  rewrite bind_run. unfold get at 1. cbv beta iota.
  rewrite bind_run. unfold emit at 1. cbv beta iota.
  rewrite bind_run.
  rewrite (outputResponse_run _ _ _ u3 session Hsess). cbv beta iota.
  rewrite bind_run. unfold emit at 1. cbv beta iota.
  rewrite bind_run. unfold modify at 1, ret. cbv beta iota.
  unfold agent_options, agent_context.
  reflexivity.
Qed.


Lemma fetchLocation_effects w q u :
  effects (fetchLocation w q u) =
  if queryNeedsLocation q then
    GetLatestLocation
      :: match getLatestLocation w with
         | Some (Some _) => [FetchContext q]
         | _ => []
         end
  else [].
Proof.
  unfold fetchLocation. destruct (queryNeedsLocation q); [|done].
  by destruct (getLatestLocation w) as [[[lat lng]|]|].
Qed.

Lemma fetchLocation_skipped w q u :
  queryNeedsLocation q = false \/ getLatestLocation w = None \/
  getLatestLocation w = Some None ->
  final (fetchLocation w q u) = u.
Proof.
  unfold fetchLocation. intros [H|[H|H]]; rewrite H; [done| |];
    by destruct (queryNeedsLocation q).
Qed.

(** ** The order of the steps of the pipeline *)

Lemma forallb_photo_writes written :
  forallb is_photo_effect
    (map (fun x : nat * Photo.Payload => PhotoWrite x.1 x.2) written) = true.
Proof. induction written as [|x l IH]; [done|]. simpl. exact IH. Qed.

(** C2, as amended: no run of the query pipeline broadcasts an event of
    the chat topic, neither the user's query nor the agent's response.
    With a connected session the effects of a run are, in this order: the
    processing sound, the request to the camera with the writes to the
    photo streams, the calls for the location, the one call of the agent
    with the query, the output on display and speakers, and the call of
    [chatHistory.addTurn] with the query and the returned response, which
    is the last effect, after the agent call. *)
Theorem processQuery_order :
  (forall w q u, existsb is_chat_effect (effects (processQuery w q u)) = false)
  /\
  (forall w q u session,
     appSession u = Some session ->
     exists sound photos location options output hadPhoto,
       effects (processQuery w q u) =
         sound ++ photos ++ location ++ [Generate options] ++ output
           ++ [AddTurn q (result (processQuery w q u)) hadPhoto] /\
       go_query options = q /\
       forallb is_sound_effect sound = true /\
       forallb is_photo_effect photos = true /\
       forallb is_location_effect location = true /\
       forallb is_output_effect output = true).
Proof.
  split.
  - intros w q u. destruct (appSession u) as [session|] eqn:Hs.
    + destruct (processQuery_connected w q u session Hs)
        as (before & options & after & hadPhoto & u' & -> & _ & Hb & Ha).
      unfold effects. cbn [snd].
      rewrite !existsb_app.
      rewrite (glasses_not_chat before Hb), (glasses_not_chat after Ha).
      reflexivity.
    + unfold processQuery. rewrite bind_run. unfold get. cbv beta iota.
      by rewrite Hs.
  - intros w q u session Hs.
    pose proof (processQuery_steps w q u session Hs) as Hrun.
    cbv zeta in Hrun. rewrite fetchLocation_effects in Hrun.
    match type of Hrun with
    | _ = (_, _, ?s ++ ?p ++ ?l ++ [Generate ?o] ++ ?out ++ [AddTurn _ _ ?h]) =>
        exists s, p, l, o, out, h
    end.
    rewrite Hrun. unfold result, effects. cbn [fst snd].
    split; [reflexivity|]. split; [reflexivity|].
    split; [by destruct (PROCESSING_SOUND_URL w)|].
    split.
    { destruct (capability hasCamera false session); [|done].
      cbn [forallb is_photo_effect andb]. apply forallb_photo_writes. }
    split.
    { destruct (queryNeedsLocation q); [|done].
      by destruct (getLatestLocation w) as [[c|]|]. }
    unfold output_effects.
    by destruct (capability hasDisplay false session),
                (capability hasSpeaker true session).
Qed.

Lemma processQuery_order_witness :
  exists sound photos location options output hadPhoto,
    effects (processQuery BusyScenario.busy_world (txt "where am i")
                          BusyScenario.full_user) =
      sound ++ photos ++ location ++ [Generate options] ++ output
        ++ [AddTurn (txt "where am i")
                    (result (processQuery BusyScenario.busy_world
                               (txt "where am i") BusyScenario.full_user))
                    hadPhoto] /\
    go_query options = txt "where am i" /\
    forallb is_sound_effect sound = true /\
    forallb is_photo_effect photos = true /\
    forallb is_location_effect location = true /\
    forallb is_output_effect output = true.
Proof.
  apply (proj2 processQuery_order BusyScenario.busy_world (txt "where am i")
               BusyScenario.full_user BusyScenario.full_session).
  reflexivity.
Defined.

(** In that run every step has effects, in the order stated. *)
Example processQuery_busy_run :
  exists options,
    effects (processQuery BusyScenario.busy_world (txt "where am i")
                          BusyScenario.full_user) =
      [ PlayAudio (txt "https://cdn.example/wait.mp3");
        RequestPhoto;
        PhotoWrite 7
          (Photo.photo_payload (Captures.stored_of "u1" Scenarios.man_shot));
        GetLatestLocation;
        FetchContext (txt "where am i");
        Generate options;
        ShowTextWall (txt "You are at home.") 10000;
        Speak (txt "You are at home.");
        AddTurn (txt "where am i") (txt "You are at home.") true ] /\
    go_query options = txt "where am i".
Proof. eexists. split; [vm_compute; reflexivity|reflexivity]. Qed.







(** In that run the camera delivers: the photo is written to the open
    photo stream, the agent is handed its bytes and the turn has
    [hadPhoto] set. *)
Example processQuery_photo_run :
  exists options,
    effects (processQuery BusyScenario.busy_world (txt "what is this")
                          BusyScenario.full_user) =
      [ PlayAudio (txt "https://cdn.example/wait.mp3");
        RequestPhoto;
        PhotoWrite 7
          (photo_payload (stored_of "u1" Scenarios.man_shot));
        Generate options;
        ShowTextWall (txt "You are at home.") 10000;
        Speak (txt "You are at home.");
        AddTurn (txt "what is this") (txt "You are at home.") true ] /\
    go_photos options = Some [pd_buffer Scenarios.man_shot].
Proof. eexists. split; [vm_compute; reflexivity|reflexivity]. Qed.

Lemma not_location_effects w q u session o r h :
  let other :=
    match PROCESSING_SOUND_URL w with
    | Some url => [PlayAudio url]
    | None => []
    end
    ++ (if capability hasCamera false session
        then RequestPhoto
               :: map (fun x => PhotoWrite x.1 x.2) (capture w u).2
        else [])
    ++ [Generate o]
    ++ output_effects (formatResponse w r (capability hasSpeaker true session)
                         (capability hasDisplay false session))
         (capability hasSpeaker true session)
         (capability hasDisplay false session)
    ++ [AddTurn q r h] in
  forall e, e ∈ other -> is_location_effect e = false.
Proof.
  cbv zeta. apply Forall_forall. repeat apply Forall_app_2.
  - destruct (PROCESSING_SOUND_URL w); by repeat constructor.
  - destruct (capability hasCamera false session); [|constructor].
    constructor; [done|]. apply Forall_forall. intros e He.
    apply list_elem_of_fmap in He as (x & -> & _). done.
  - by repeat constructor.
  - destruct (capability hasDisplay false session); by repeat constructor.
  - destruct (capability hasSpeaker true session); by repeat constructor.
  - by repeat constructor.
Qed.

(** X29: with a connected session, the pipeline asks the glasses for the
    location exactly when the location manager says that the query needs
    it, and looks up the context of the place exactly when the glasses
    then answer with coordinates. When the query needs no location, or
    the glasses throw or have no location, the location state of the user
    is as before and the run goes on. No run changes the session, the
    notifications or the id of the user. *)
Theorem processQuery_location w q u session :
  appSession u = Some session ->
  let r := processQuery w q u in
  (GetLatestLocation ∈ effects r <-> queryNeedsLocation q = true) /\
  (FetchContext q ∈ effects r <->
   queryNeedsLocation q = true /\
   exists c, getLatestLocation w = Some (Some c)) /\
  (queryNeedsLocation q = false \/ getLatestLocation w = None \/
   getLatestLocation w = Some None ->
   location (final r) = location u) /\
  appSession (final r) = appSession u /\
  notifications (final r) = notifications u /\
  Users.userId (final r) = Users.userId u.
Proof.
  intros Hs. cbv zeta.
  pose proof (processQuery_steps w q u session Hs) as Hrun. cbv zeta in Hrun.
  rewrite fetchLocation_effects in Hrun. rewrite Hrun. clear Hrun.
  unfold result, final, effects. cbn [fst snd].
  set (u2 := if capability hasCamera false session
             then set_photo (capture w u).1.2 u else u).
  match goal with
  | |- context [Generate ?o] =>
      match goal with
      | |- context [AddTurn q ?r ?h] =>
          pose proof (not_location_effects w q u session o r h) as Hother
      end
  end.
  cbv zeta in Hother.
  assert (forall e, is_location_effect e = true ->
            forall s sh l g out t,
              (forall e', e' ∈ s ++ sh ++ g ++ out ++ t ->
                          is_location_effect e' = false) ->
              (e ∈ s ++ sh ++ l ++ g ++ out ++ t <-> e ∈ l)) as Honly.
  { intros e He s sh l g out t Hoth. rewrite !elem_of_app. split; [|tauto].
    intros H.
    destruct H as [H|[H|[H|H]]]; [| |done|]; exfalso;
      (assert (is_location_effect e = false) as Hf;
       [apply Hoth; rewrite !elem_of_app; tauto|congruence]). }
  split; [|split; [|split]].
  - rewrite (Honly GetLatestLocation eq_refl) by exact Hother.
    destruct (queryNeedsLocation q); [|split; [|done]].
    + split; [done|]. intros _. apply list_elem_of_here.
    + intros H. by apply elem_of_nil in H.
  - rewrite (Honly (FetchContext q) eq_refl) by exact Hother.
    destruct (queryNeedsLocation q).
    + destruct (getLatestLocation w) as [[c|]|].
      * split; [by eauto|]. intros _. apply list_elem_of_further.
        apply list_elem_of_here.
      * split; [|by intros [_ [c Hc]]]. intros H.
        apply elem_of_cons in H as [H|H]; [done|]. by apply elem_of_nil in H.
      * split; [|by intros [_ [c Hc]]]. intros H.
        apply elem_of_cons in H as [H|H]; [done|]. by apply elem_of_nil in H.
    + split; [|by intros [? _]]. intros H. by apply elem_of_nil in H.
  - intros Hskip. cbn [location set_chatHistory].
    pose proof (fetchLocation_skipped w q u2 Hskip) as Hsk.
    unfold final in Hsk. rewrite Hsk. subst u2.
    by destruct (capability hasCamera false session).
  - pose proof (fetchLocation_frame w q u2) as Hframe.
    cbv zeta in Hframe. unfold final in Hframe.
    destruct Hframe as (H1 & _ & H3 & _ & H5).
    cbn [appSession notifications Users.userId set_chatHistory].
    rewrite H1, H3, H5. subst u2.
    by destruct (capability hasCamera false session).
Qed.

Lemma processQuery_location_witness :
  let r := processQuery Scenarios.calm_world (txt "what time is it")
             Scenarios.connected_user in
  (GetLatestLocation ∈ effects r <->
   queryNeedsLocation (txt "what time is it") = true) /\
  appSession (final r) = appSession Scenarios.connected_user.
Proof.
  destruct (processQuery_location Scenarios.calm_world (txt "what time is it")
              Scenarios.connected_user
              {| sessionRef := 1; capabilities := None |} eq_refl)
    as (H1 & _ & _ & H4 & _).
  split; [exact H1|exact H4].
Defined.


(** ** The history replay of a chat stream *)

Lemma history_from now uid rcp turns (f : nat -> nat) (o : nat) :
  (forall i, f i = o + i) ->
  let ms := concat (imap (fun i => history_pair now uid rcp (f i)) turns) in
  map hm_id ms = map (fun k => (now, k)) (seq (2 * o) (2 * length turns)) /\
  map hm_content ms = flat_map (fun t => [t_query t; t_response t]) turns /\
  map hm_senderId ms = flat_map (fun _ => [uid; rcp]) turns /\
  map hm_recipientId ms = flat_map (fun _ => [rcp; uid]) turns.
Proof.
  cbv zeta. revert f o. induction turns as [|t turns IH]; intros f o Hf.
  - done.
  - rewrite imap_cons. cbn [concat app].
    destruct (IH (f ∘ S) (S o)) as (I1 & I2 & I3 & I4).
    { intros i. unfold compose. rewrite Hf. lia. }
    unfold history_pair at 1 3 5 7.
    cbn [map app hm_id hm_content hm_senderId hm_recipientId flat_map length].
    change (fun i => history_pair now uid rcp ((f ∘ S) i))
      with ((fun i => history_pair now uid rcp (f i)) ∘ S) in *.
    rewrite I1, I2, I3, I4, Hf.
    replace (2 * S (length turns)) with (S (S (2 * length turns))) by lia.
    cbn [seq map].
    replace ((o + 0) * 2) with (2 * o) by lia.
    replace (2 * o + 1) with (S (2 * o)) by lia.
    replace (S (S (2 * o))) with (2 * S o) by lia.
    done.
Qed.

(** X30: the history event of a new stream holds two messages for every
    turn, in the order of the turns: the query, sent by the user to the
    recipient, then the response, sent back. Their ids count up from 0
    behind the time of the replay, so no two messages of the event share
    an id. *)
Theorem history_messages_order now uid rcp turns :
  let ms := history_messages now uid rcp turns in
  map hm_id ms = map (fun k => (now, k)) (seq 0 (2 * length turns)) /\
  NoDup (map hm_id ms) /\
  map hm_content ms = flat_map (fun t => [t_query t; t_response t]) turns /\
  map hm_senderId ms = flat_map (fun _ => [uid; rcp]) turns /\
  map hm_recipientId ms = flat_map (fun _ => [rcp; uid]) turns.
Proof.
  cbv zeta.
  assert (map hm_id (history_messages now uid rcp turns)
          = map (fun k => (now, k)) (seq 0 (2 * length turns)) /\
          map hm_content (history_messages now uid rcp turns)
          = flat_map (fun t => [t_query t; t_response t]) turns /\
          map hm_senderId (history_messages now uid rcp turns)
          = flat_map (fun _ => [uid; rcp]) turns /\
          map hm_recipientId (history_messages now uid rcp turns)
          = flat_map (fun _ => [rcp; uid]) turns) as (H1 & H2 & H3 & H4).
  { by apply (history_from now uid rcp turns (fun i => i) 0). }
  split; [exact H1|]. split; [|done].
  rewrite H1. apply NoDup_fmap_2; [|apply NoDup_seq].
  by intros x y [= ->].
Qed.
